(** * Infant sight simulator: the vision pipeline of [vision.js] and the
      tick of [app.js], embedded in Rocq.

    JavaScript numbers are modelled by the type [number]: a real number, or
    one of the three non-finite values [+Infinity], [-Infinity] and [NaN],
    with the IEEE-754 rules for how the non-finite values arise and
    propagate.  Rounding of finite results, overflow to infinity and the
    sign of zero are not modelled: a finite operation returns the exact
    real result, and every zero behaves as [+0].

    Pixel buffers ([Uint8ClampedArray]) are flat lists of integers, four
    entries per pixel, read and written through [aget] and [aset], which
    do what a typed array does out of range (a read gives [undefined], a
    write is dropped) and convert on store as [ToUint8Clamp] does. *)

From Stdlib Require Import Reals Lra Lia ZArith.
From stdpp Require Import base list strings gmap.

Open Scope R_scope.

(** ** JavaScript numbers *)

Module JS.

Inductive number : Type :=
  | Num (r : R)
  | PosInf
  | NegInf
  | NaN.

Definition isFinite (a : number) : bool :=
  match a with Num _ => true | _ => false end.

Definition Rltb (x y : R) : bool := if Rlt_dec x y then true else false.
Definition Rleb (x y : R) : bool := if Rle_dec x y then true else false.
Definition Reqb (x y : R) : bool := if Req_dec_T x y then true else false.

Definition nneg (a : number) : number :=
  match a with
  | Num x => Num (- x)
  | PosInf => NegInf
  | NegInf => PosInf
  | NaN => NaN
  end.

Definition nadd (a b : number) : number :=
  match a, b with
  | NaN, _ | _, NaN => NaN
  | Num x, Num y => Num (x + y)
  | PosInf, NegInf | NegInf, PosInf => NaN
  | PosInf, _ | _, PosInf => PosInf
  | NegInf, _ | _, NegInf => NegInf
  end.

Definition nsub (a b : number) : number := nadd a (nneg b).

(** An infinity times a finite [y]: [NaN] at zero, otherwise the sign rule. *)
Definition scale_inf (positive : bool) (y : R) : number :=
  if Reqb y 0 then NaN
  else if Bool.eqb positive (Rltb 0 y) then PosInf else NegInf.

Definition nmul (a b : number) : number :=
  match a, b with
  | NaN, _ | _, NaN => NaN
  | Num x, Num y => Num (x * y)
  | PosInf, Num y | Num y, PosInf => scale_inf true y
  | NegInf, Num y | Num y, NegInf => scale_inf false y
  | PosInf, PosInf | NegInf, NegInf => PosInf
  | PosInf, NegInf | NegInf, PosInf => NegInf
  end.

Definition ndiv (a b : number) : number :=
  match a, b with
  | NaN, _ | _, NaN => NaN
  | Num x, Num y =>
      if Reqb y 0 then
        (if Reqb x 0 then NaN else if Rltb 0 x then PosInf else NegInf)
      else Num (x / y)
  | Num _, (PosInf | NegInf) => Num 0
  | PosInf, Num y => if Rleb 0 y then PosInf else NegInf
  | NegInf, Num y => if Rleb 0 y then NegInf else PosInf
  | (PosInf | NegInf), (PosInf | NegInf) => NaN
  end.

(** Relational operators: every comparison with [NaN] is false. *)
Definition nlt (a b : number) : bool :=
  match a, b with
  | NaN, _ | _, NaN => false
  | Num x, Num y => Rltb x y
  | NegInf, (Num _ | PosInf) => true
  | Num _, PosInf => true
  | _, _ => false
  end.

Definition ngt (a b : number) : bool := nlt b a.

Definition nle (a b : number) : bool :=
  match a, b with
  | NaN, _ | _, NaN => false
  | Num x, Num y => Rleb x y
  | NegInf, _ => true
  | _, PosInf => true
  | _, _ => false
  end.

Definition nge (a b : number) : bool := nle b a.

(** [a === b] on numbers. *)
Definition strict_eq (a b : number) : bool :=
  match a, b with
  | Num x, Num y => Reqb x y
  | PosInf, PosInf | NegInf, NegInf => true
  | _, _ => false
  end.

(** [ToBoolean]: zero and [NaN] are falsy. *)
Definition truthy (a : number) : bool :=
  match a with
  | Num x => negb (Reqb x 0)
  | NaN => false
  | _ => true
  end.

(** [a || b] on numbers. *)
Definition or_else (a b : number) : number := if truthy a then a else b.

Definition Math_min (a b : number) : number :=
  match a, b with
  | NaN, _ | _, NaN => NaN
  | NegInf, _ | _, NegInf => NegInf
  | PosInf, c | c, PosInf => c
  | Num x, Num y => Num (Rmin x y)
  end.

Definition Math_max (a b : number) : number :=
  match a, b with
  | NaN, _ | _, NaN => NaN
  | PosInf, _ | _, PosInf => PosInf
  | NegInf, c | c, NegInf => c
  | Num x, Num y => Num (Rmax x y)
  end.

Definition Math_floor (a : number) : number :=
  match a with
  | Num x => Num (IZR (Zfloor x))
  | _ => a
  end.

(** [Math.round]: to the nearest integer, ties towards [+Infinity]. *)
Definition Math_round (a : number) : number :=
  match a with
  | Num x => Num (IZR (Zfloor (x + / 2)))
  | _ => a
  end.

Definition Math_PI : number := Num PI.

Definition Math_sqrt (a : number) : number :=
  match a with
  | Num x => if Rltb x 0 then NaN else Num (sqrt x)
  | PosInf => PosInf
  | _ => NaN
  end.

Definition Math_hypot (a b : number) : number :=
  match a, b with
  | (PosInf | NegInf), _ | _, (PosInf | NegInf) => PosInf
  | NaN, _ | _, NaN => NaN
  | Num x, Num y => Num (sqrt (x * x + y * y))
  end.

Definition Math_exp (a : number) : number :=
  match a with
  | Num x => Num (exp x)
  | PosInf => PosInf
  | NegInf => Num 0
  | NaN => NaN
  end.

(** The tangent of the reals.  At the odd multiples of [PI / 2], which no
    floating-point number is and where the code gets a large finite value,
    the value of the model says nothing about the code. *)
Definition Math_tan (a : number) : number :=
  match a with
  | Num x => Num (tan x)
  | _ => NaN
  end.

Definition Math_atan (a : number) : number :=
  match a with
  | Num x => Num (atan x)
  | PosInf => Num (PI / 2)
  | NegInf => Num (- (PI / 2))
  | NaN => NaN
  end.

Definition is_integer (x : R) : bool := Reqb (IZR (Zfloor x)) x.

(** [Math.pow], case by case as [Number::exponentiate] lists them. *)
Definition Math_pow (base exponent : number) : number :=
  match exponent with
  | NaN => NaN
  | Num y =>
      if Reqb y 0 then Num 1
      else
        match base with
        | NaN => NaN
        | PosInf => if Rltb 0 y then PosInf else Num 0
        | NegInf =>
            if Rltb 0 y
            then (if is_integer y && Z.odd (Zfloor y) then NegInf else PosInf)
            else Num 0
        | Num x =>
            if Reqb x 0 then (if Rltb 0 y then Num 0 else PosInf)
            else if Rltb 0 x then Num (Rpower x y)
            else if is_integer y
            then Num (if Z.odd (Zfloor y)
                      then - Rpower (- x) y else Rpower (- x) y)
            else NaN
        end
  | PosInf =>
      match base with
      | NaN => NaN
      | PosInf | NegInf => PosInf
      | Num x =>
          if Rltb 1 (Rabs x) then PosInf
          else if Reqb (Rabs x) 1 then NaN else Num 0
      end
  | NegInf =>
      match base with
      | NaN => NaN
      | PosInf | NegInf => Num 0
      | Num x =>
          if Rltb 1 (Rabs x) then Num 0
          else if Reqb (Rabs x) 1 then NaN else PosInf
      end
  end.

(** [ToUint8Clamp]: the conversion a [Uint8ClampedArray] applies on store.
    [NaN] becomes 0, the value is clamped to [0, 255] and rounded to the
    nearest integer, ties to even. *)
Definition ToUint8Clamp (a : number) : Z :=
  match a with
  | NaN | NegInf => 0%Z
  | PosInf => 255%Z
  | Num x =>
      if Rleb x 0 then 0%Z
      else if Rleb 255 x then 255%Z
      else
        let f := Zfloor x in
        if Rltb (x - IZR f) (/ 2) then f
        else if Rltb (/ 2) (x - IZR f) then (f + 1)%Z
        else if Z.even f then f else (f + 1)%Z
  end.

End JS.

Export JS.

Declare Scope num_scope.
Delimit Scope num_scope with num.
Bind Scope num_scope with number.
Infix "+" := nadd : num_scope.
Infix "-" := nsub : num_scope.
Infix "*" := nmul : num_scope.
Infix "/" := ndiv : num_scope.
Notation "- a" := (nneg a) : num_scope.
Infix ">?" := ngt (at level 70) : num_scope.
Infix "<?" := nlt (at level 70) : num_scope.
Infix "<=?" := nle (at level 70) : num_scope.
Infix "===" := strict_eq (at level 70) : num_scope.
Infix "||" := or_else : num_scope.
Coercion Num : R >-> number.

(** An integer loop variable or byte used as a number. *)
Definition ofZ (z : Z) : number := Num (IZR z).

(** ** Typed arrays and exceptions *)

(** [a[i]] read as a number: [undefined] (here [NaN], what every use in
    the program converts it to) outside the array. *)
Definition aget (a : list Z) (i : Z) : number :=
  if (i <? 0)%Z then NaN
  else match a !! Z.to_nat i with
       | Some b => ofZ b
       | None => NaN
       end.

(** [a[i] = v] on a [Uint8ClampedArray]: dropped outside the array. *)
Definition aset (a : list Z) (i : Z) (v : number) : list Z :=
  if (i <? 0)%Z then a else <[Z.to_nat i := ToUint8Clamp v]> a.

(** [a[i]] where the index is itself a computed number. *)
Definition aget_num (a : list Z) (i : number) : number :=
  match i with
  | Num r => if is_integer r then aget a (Zfloor r) else NaN
  | _ => NaN
  end.

(** A Float32Array read; the rounding to single precision is not modelled. *)
Definition kget (k : list number) (i : Z) : number :=
  if (i <? 0)%Z then NaN
  else match k !! Z.to_nat i with
       | Some w => w
       | None => NaN
       end.

(** The integers [lo, lo+1, ..., hi] of a counting loop. *)
Definition zrange (lo hi : Z) : list Z :=
  (fun n => (lo + Z.of_nat n)%Z) <$> seq 0 (Z.to_nat (hi - lo + 1)).

(** The indices [0, 4, 8, ...] below [len] of a pixel loop. *)
Definition pixelIndices (len : nat) : list Z :=
  (fun n => (4 * Z.of_nat n)%Z) <$> seq 0 ((len + 3) / 4).

(** Outcome of code that may throw: the only exception the program can
    raise on its own is the [TypeError] of a property read on [undefined]. *)
Inductive completion (A : Type) : Type :=
  | Return (a : A)
  | ThrowTypeError.
Arguments Return {A} a.
Arguments ThrowTypeError {A}.

Definition bind {A B} (c : completion A) (k : A -> completion B) : completion B :=
  match c with
  | Return a => k a
  | ThrowTypeError => ThrowTypeError
  end.

Notation "'let!' x ':=' c 'in' k" := (bind c (fun x => k))
  (at level 10, x name, c at level 100, k at level 200).

(** A loop whose body may throw: the first exception ends it. *)
Fixpoint forEach {A St} (xs : list A) (body : St -> A -> completion St) (s : St)
  : completion St :=
  match xs with
  | [] => Return s
  | x :: rest => let! s' := body s x in forEach rest body s'
  end.

(** [obj.field] on a value that may be [undefined]. *)
Definition prop {A B} (obj : option A) (field : A -> B) : completion B :=
  match obj with
  | Some o => Return (field o)
  | None => ThrowTypeError
  end.

(** ** vision.js *)

Module Vision.

Definition DEFAULT_CAMERA_HFOV_DEG : number := 60.

Definition degToRad (deg : number) : number := (deg * Math_PI / 180)%num.

Definition radToDeg (rad : number) : number := (rad * 180 / Math_PI)%num.

(** The [aspect] that [estimatePixelsPerDegree] computes first. *)
Definition aspect (width height : number) : number :=
  if (width >? 0)%num && (height >? 0)%num
  then (width / height)%num else (16 / 9)%num.

(** The third parameter defaults to [DEFAULT_CAMERA_HFOV_DEG]; every call
    in the program leaves it out. *)
Definition estimatePixelsPerDegree (width height hfovDeg : number) : number :=
  let aspect := aspect width height in
  let hfovRad := degToRad hfovDeg in
  let vfovRad := (2 * Math_atan (Math_tan (hfovRad / 2) / aspect))%num in
  let vfovDeg := radToDeg vfovRad in
  let ppdX := (width / hfovDeg)%num in
  let ppdY := (height / vfovDeg)%num in
  Math_max 1 (Math_min ppdX ppdY).

Definition srgbToLinear (v : number) : number :=
  if (v <=? 0.04045)%num then (v / 12.92)%num
  else Math_pow ((v + 0.055) / 1.055)%num 2.4.

Definition linearToSrgb (v : number) : number :=
  if (v <=? 0.0031308)%num then (12.92 * v)%num
  else (1.055 * Math_pow v (1 / 2.4)%num - 0.055)%num.

Definition clamp01 (v : number) : number :=
  if (v <? 0)%num then 0 else if (v >? 1)%num then 1 else v.

Definition LMS_TO_RGB : list (list number) :=
  [ [Num 5.47221; Num (-4.64196); Num 0.16975];
    [Num (-1.1248); Num 2.29317; Num (-0.16837)];
    [Num 0.0298; Num (-0.19318); Num 1.16338] ].

Definition RGB_TO_LMS : list (list number) :=
  [ [Num 0.31399; Num 0.63951; Num 0.0465];
    [Num 0.15537; Num 0.75789; Num 0.08674];
    [Num 0.01775; Num 0.10945; Num 0.8728] ].

(** [m[i][j]] *)
Definition entry (m : list (list number)) (i j : nat) : number :=
  nth j (nth i m []) NaN.

Record ConeSensitivity : Type := {
  cone_L : R;
  cone_M : R;
  cone_S : R
}.

Record AgePreset : Type := {
  label : string;
  spatialCutoffCPD : R;
  peakSensitivityCPD : R;
  contrastSensitivityPeak : R;
  contrastSlope : R;
  temporalIntegrationMs : R;
  coneSensitivity : ConeSensitivity;
  pupilDiameterMm : R;
  scatteringFactor : R;
  accommodationRange : R;
  centralFieldRadiusDeg : R;
  peripheralSuppression : R;
  lateralInhibition : R;
  photoreceptorNoise : R;
  description : string
}.

Definition preset1 : AgePreset := {|
  label := "1 month";
  spatialCutoffCPD := 1.5;
  peakSensitivityCPD := 0.5;
  contrastSensitivityPeak := 10;
  contrastSlope := 0.65;
  temporalIntegrationMs := 200;
  coneSensitivity := {| cone_L := 0.6; cone_M := 0.4; cone_S := 0.15 |};
  pupilDiameterMm := 2.5;
  scatteringFactor := 0.3;
  accommodationRange := 0.2;
  centralFieldRadiusDeg := 10;
  peripheralSuppression := 0.7;
  lateralInhibition := 0.3;
  photoreceptorNoise := 0.08;
  description :=
    "Visual acuity ~20/400 (1.5 cpd cutoff). Minimal blue cone function. High optical scatter. Best focus at 8-10 inches."
|}.

Definition preset2 : AgePreset := {|
  label := "2 months";
  spatialCutoffCPD := 2.5;
  peakSensitivityCPD := 1.0;
  contrastSensitivityPeak := 40;
  contrastSlope := 0.75;
  temporalIntegrationMs := 150;
  coneSensitivity := {| cone_L := 0.85; cone_M := 0.65; cone_S := 0.45 |};
  pupilDiameterMm := 3.0;
  scatteringFactor := 0.2;
  accommodationRange := 0.4;
  centralFieldRadiusDeg := 15;
  peripheralSuppression := 0.5;
  lateralInhibition := 0.5;
  photoreceptorNoise := 0.05;
  description :=
    "Visual acuity ~20/150 (2.5 cpd). S-cones functional. Contrast sensitivity 4-5x improved. Beginning accommodation."
|}.

Definition preset3 : AgePreset := {|
  label := "3 months";
  spatialCutoffCPD := 4.0;
  peakSensitivityCPD := 1.5;
  contrastSensitivityPeak := 60;
  contrastSlope := 0.85;
  temporalIntegrationMs := 100;
  coneSensitivity := {| cone_L := 0.95; cone_M := 0.85; cone_S := 0.7 |};
  pupilDiameterMm := 3.5;
  scatteringFactor := 0.1;
  accommodationRange := 0.6;
  centralFieldRadiusDeg := 20;
  peripheralSuppression := 0.3;
  lateralInhibition := 0.7;
  photoreceptorNoise := 0.02;
  description :=
    "Visual acuity 20/60 (4.0 cpd). Good color discrimination. Smooth pursuit tracking. Emerging stereopsis."
|}.

(** The preset table, keyed by the age in months. *)
Definition AGE_PRESETS : gmap Z AgePreset :=
  <[1%Z := preset1]> (<[2%Z := preset2]> (<[3%Z := preset3]> ∅)).

(** *** Infant colour vision *)

(** Body of the pixel loop of [applyInfantColorVision] at byte offset [i].
    [preset] is [None] when the caller passed [undefined]. *)
Definition infantColorPixel (preset : option AgePreset) (selectedAge : Z)
    (data : list Z) (i : Z) : completion (list Z) :=
  let rS := (aget data i / 255)%num in
  let gS := (aget data (i + 1) / 255)%num in
  let bS := (aget data (i + 2) / 255)%num in
  let rL := srgbToLinear rS in
  let gL := srgbToLinear gS in
  let bL := srgbToLinear bS in
  let luminance := (0.2126 * rL + 0.7152 * gL + 0.0722 * bL)%num in
  if (selectedAge =? 1)%Z then
    let! coneL := prop preset (fun p => cone_L (coneSensitivity p)) in
    let redStrength := (rL * coneL)%num in
    let desaturated := (luminance * 0.85)%num in
    let outR := clamp01 (desaturated + redStrength * 0.25) in
    let! coneM := prop preset (fun p => cone_M (coneSensitivity p)) in
    let outG := clamp01 (desaturated * coneM) in
    let! coneS := prop preset (fun p => cone_S (coneSensitivity p)) in
    let outB := clamp01 (desaturated * coneS) in
    let data := aset data i (Math_round (linearToSrgb outR * 255)) in
    let data := aset data (i + 1) (Math_round (linearToSrgb outG * 255)) in
    let data := aset data (i + 2) (Math_round (linearToSrgb outB * 255)) in
    Return data
  else if (selectedAge =? 2)%Z then
    let! coneL := prop preset (fun p => cone_L (coneSensitivity p)) in
    let outR := clamp01 (rL * coneL) in
    let! coneM := prop preset (fun p => cone_M (coneSensitivity p)) in
    let outG := clamp01 (gL * coneM) in
    let! coneS := prop preset (fun p => cone_S (coneSensitivity p)) in
    let outB := clamp01 (Math_min (bL * coneS) (luminance * 0.3)) in
    let data := aset data i (Math_round (linearToSrgb outR * 255)) in
    let data := aset data (i + 1) (Math_round (linearToSrgb outG * 255)) in
    let data := aset data (i + 2) (Math_round (linearToSrgb outB * 255)) in
    Return data
  else
    let! coneL := prop preset (fun p => cone_L (coneSensitivity p)) in
    let outR := clamp01 (rL * coneL) in
    let! coneM := prop preset (fun p => cone_M (coneSensitivity p)) in
    let outG := clamp01 (gL * coneM) in
    let! coneS := prop preset (fun p => cone_S (coneSensitivity p)) in
    let outB := clamp01 (bL * coneS) in
    let data := aset data i (Math_round (linearToSrgb outR * 255)) in
    let data := aset data (i + 1) (Math_round (linearToSrgb outG * 255)) in
    let data := aset data (i + 2) (Math_round (linearToSrgb outB * 255)) in
    Return data.

(** [applyInfantColorVision] on the pixel data of the canvas: the image
    data is read, rewritten pixel by pixel and put back. *)
Definition applyInfantColorVision (data : list Z) (width height : Z)
    (preset : option AgePreset) (selectedAge : Z) : completion (list Z) :=
  forEach (pixelIndices (length data)) (infantColorPixel preset selectedAge) data.

(** *** Peripheral vignette *)

(** What [createRadialGradient] and [addColorStop] are given: two circles
    and the colour stops, each a white of the given alpha at an offset. *)
Record RadialGradient : Type := {
  gx0 : number; gy0 : number; gr0 : number;
  gx1 : number; gy1 : number; gr1 : number;
  colorStops : list (number * number)
}.

Definition peripheralGradient (width height : number) (preset : AgePreset)
  : RadialGradient :=
  let centerX := (width / 2)%num in
  let centerY := (height / 2)%num in
  let ppd := estimatePixelsPerDegree width height DEFAULT_CAMERA_HFOV_DEG in
  let centralRadiusPx := Math_max 1 (centralFieldRadiusDeg preset * ppd)%num in
  let maxRadiusPx := (Math_hypot width height * 0.5)%num in
  {| gx0 := centerX; gy0 := centerY;
     gr0 := Math_max 1 (centralRadiusPx * 0.5)%num;
     gx1 := centerX; gy1 := centerY;
     gr1 := Math_max centralRadiusPx maxRadiusPx;
     colorStops :=
       [ (Num 0, Num 1);
         (Num 0.5, (1 - peripheralSuppression preset * 0.4)%num);
         (Num 1, (1 - peripheralSuppression preset)%num) ] |}.

(** The three [addColorStop] calls with the colour spelled out: the offset,
    then the red, green, blue and alpha of the [rgba(255,255,255,a)] the
    code writes. *)
Record ColorStop : Type := {
  stopOffset : number;
  stopRed : Z; stopGreen : Z; stopBlue : Z;
  stopAlpha : number
}.

Definition peripheralColorStops (preset : AgePreset) : list ColorStop :=
  [ {| stopOffset := 0; stopRed := 255; stopGreen := 255; stopBlue := 255;
       stopAlpha := 1 |};
    {| stopOffset := 0.5; stopRed := 255; stopGreen := 255; stopBlue := 255;
       stopAlpha := (1 - peripheralSuppression preset * 0.4)%num |};
    {| stopOffset := 1; stopRed := 255; stopGreen := 255; stopBlue := 255;
       stopAlpha := (1 - peripheralSuppression preset)%num |} ].

(** *** Contrast sensitivity function *)

Definition getContrastSensitivity (frequencyCPD : number) (preset : AgePreset)
  : number :=
  let peak : number := peakSensitivityCPD preset in
  let cutoff : number := spatialCutoffCPD preset in
  let maxSensitivity : number := contrastSensitivityPeak preset in
  if (frequencyCPD >? cutoff)%num then 0
  else
    let lowFreqFactor := Math_min 1 (frequencyCPD / peak)%num in
    let highFreqFactor :=
      Math_max 0
        (1 - Math_pow ((frequencyCPD - peak) / (cutoff - peak))%num 2)%num in
    (maxSensitivity * lowFreqFactor * highFreqFactor)%num.

(** *** Gaussian kernel and separable convolution *)

(** An integer-valued number used as a loop bound. *)
Definition toZ (a : number) : Z :=
  match a with
  | Num r => Zfloor r
  | _ => 0%Z
  end.

(** The unnormalised taps [exp(-i*i / twoSigma2)] for [i = -radius..radius]. *)
Definition gaussianTaps (radius : Z) (twoSigma2 : number) : list number :=
  (fun i => Math_exp (- (ofZ i * ofZ i) / twoSigma2)%num)
    <$> zrange (- radius) radius.

(** The kernel for a finite sigma.  The [Float32Array] the weights are
    stored in rounds them to single precision, which is not modelled: a
    weight below the smallest single (sigma under 0.07) is stored as 0 by
    the code and is a small positive number here. *)
Definition generateGaussianKernel1D (sigmaPx : R) : list number :=
  let radius := toZ (Math_max 1 (Math_floor (sigmaPx * 3)%num)) in
  let twoSigma2 := (2 * sigmaPx * sigmaPx)%num in
  let kernel := gaussianTaps radius twoSigma2 in
  let sum := fold_left nadd kernel (Num 0) in
  (fun v => (v / sum)%num) <$> kernel.

(** Accumulators [r, g, b, weightSum] of [applyKernelPixel]. *)
Record Accum : Type := { acc_r : number; acc_g : number; acc_b : number;
                         acc_w : number }.

Definition applyKernelPixel (input output : list Z) (width height x y : Z)
    (kernel : list number) (horizontal : bool) : list Z :=
  let idx := ((y * width + x) * 4)%Z in
  let kernelRadius := (Z.of_nat (length kernel) / 2)%Z in
  let step (a : Accum) (k : Z) : Accum :=
    let sampleX :=
      if horizontal then Z.max 0 (Z.min (width - 1) (x + k)) else x in
    let sampleY :=
      if horizontal then y else Z.max 0 (Z.min (height - 1) (y + k)) in
    let sampleIdx := ((sampleY * width + sampleX) * 4)%Z in
    let weight := kget kernel (k + kernelRadius) in
    {| acc_r := (acc_r a + aget input sampleIdx * weight)%num;
       acc_g := (acc_g a + aget input (sampleIdx + 1) * weight)%num;
       acc_b := (acc_b a + aget input (sampleIdx + 2) * weight)%num;
       acc_w := (acc_w a + weight)%num |} in
  let a := fold_left step (zrange (- kernelRadius) kernelRadius)
             {| acc_r := 0; acc_g := 0; acc_b := 0; acc_w := 0 |} in
  let output := aset output idx (acc_r a / acc_w a)%num in
  let output := aset output (idx + 1) (acc_g a / acc_w a)%num in
  let output := aset output (idx + 2) (acc_b a / acc_w a)%num in
  aset output (idx + 3) 255.

(** One pass of the separable blur: the double loop over [y] and [x] that
    fills a fresh zeroed array of the length of [input]. *)
Definition convolvePass (input : list Z) (width height : Z)
    (kernel : list number) (horizontal : bool) : list Z :=
  fold_left
    (fun out y =>
       fold_left
         (fun out x => applyKernelPixel input out width height x y kernel horizontal)
         (zrange 0 (width - 1)) out)
    (zrange 0 (height - 1)) (replicate (length input) 0%Z).

(** *** The Canvas 2D interface *)

(** The browser operations the program calls and does not define.  Pixel
    data is the backing store of the canvas, four bytes per pixel. *)
Class Canvas2D : Type := {
  (** the camera frame currently shown by the video element *)
  VideoFrame : Type;
  (** [drawImage(videoElement, 0, 0, width, height)], mirrored or not, on a
      canvas of that size; [None] when the call throws *)
  drawVideo : bool -> Z -> Z -> VideoFrame -> option (list Z);
  (** [filter = blur(..px) contrast(..%)] then [drawImage(ctx.canvas, 0, 0)] *)
  drawSelfFiltered : number -> number -> list Z -> list Z;
  (** [globalAlpha], [filter = blur(..px)], composite "screen", then
      [drawImage(ctx.canvas, 0, 0, width, height)] *)
  drawSelfScreen : number -> number -> Z -> Z -> list Z -> list Z;
  (** composite "multiply", [fillStyle = gradient], [fillRect(0, 0, w, h)] *)
  fillRectMultiply : RadialGradient -> Z -> Z -> list Z -> list Z;
  (** a canvas of [width] by [height] pixels holds [4 * width * height] bytes *)
  drawVideo_length : forall m w h v d,
    drawVideo m w h v = Some d -> length d = Z.to_nat (4 * w * h)
}.

Definition applyPeripheralVision `{Canvas2D} (data : list Z) (width height : Z)
    (preset : option AgePreset) : completion (list Z) :=
  let! p := prop preset (fun p => p) in
  Return (fillRectMultiply (peripheralGradient (ofZ width) (ofZ height) p)
            width height data).

(** *** LMS colour processing *)

(** The linear-light part of one pixel of [applyLMSColorProcessing]. *)
Definition lmsLinear (preset : AgePreset) (selectedAge : Z) (r g b : number)
  : number * number * number :=
  let L := (entry RGB_TO_LMS 0 0 * r + entry RGB_TO_LMS 0 1 * g
            + entry RGB_TO_LMS 0 2 * b)%num in
  let M := (entry RGB_TO_LMS 1 0 * r + entry RGB_TO_LMS 1 1 * g
            + entry RGB_TO_LMS 1 2 * b)%num in
  let S := (entry RGB_TO_LMS 2 0 * r + entry RGB_TO_LMS 2 1 * g
            + entry RGB_TO_LMS 2 2 * b)%num in
  let L := (L * cone_L (coneSensitivity preset))%num in
  let M := (M * cone_M (coneSensitivity preset))%num in
  let S := (S * cone_S (coneSensitivity preset))%num in
  let adaptationFactor := (0.8 + (0.2 * ofZ selectedAge) / 3)%num in
  let L := (L * adaptationFactor + (1 - adaptationFactor) * 0.5)%num in
  let M := (M * adaptationFactor + (1 - adaptationFactor) * 0.5)%num in
  let S := (S * adaptationFactor + (1 - adaptationFactor) * 0.5)%num in
  let newR := (entry LMS_TO_RGB 0 0 * L + entry LMS_TO_RGB 0 1 * M
               + entry LMS_TO_RGB 0 2 * S)%num in
  let newG := (entry LMS_TO_RGB 1 0 * L + entry LMS_TO_RGB 1 1 * M
               + entry LMS_TO_RGB 1 2 * S)%num in
  let newB := (entry LMS_TO_RGB 2 0 * L + entry LMS_TO_RGB 2 1 * M
               + entry LMS_TO_RGB 2 2 * S)%num in
  (newR, newG, newB).

Definition lmsColorPixel (preset : AgePreset) (selectedAge : Z)
    (data : list Z) (i : Z) : list Z :=
  let r := srgbToLinear (aget data i / 255)%num in
  let g := srgbToLinear (aget data (i + 1) / 255)%num in
  let b := srgbToLinear (aget data (i + 2) / 255)%num in
  let '(newR, newG, newB) := lmsLinear preset selectedAge r g b in
  let data := aset data i (Math_round (linearToSrgb (clamp01 newR) * 255)) in
  let data := aset data (i + 1) (Math_round (linearToSrgb (clamp01 newG) * 255)) in
  aset data (i + 2) (Math_round (linearToSrgb (clamp01 newB) * 255)).

Definition applyLMSColorProcessing (data : list Z) (width height : Z)
    (preset : AgePreset) (selectedAge : Z) : list Z :=
  fold_left (lmsColorPixel preset selectedAge) (pixelIndices (length data)) data.

(** *** Optical effects *)

Definition sampleNearest (src : list Z) (width height : Z)
    (ix iy : number) (channel : Z) : number :=
  let x := Math_max 0 (Math_min (ofZ width - 1)%num (Math_round ix)) in
  let y := Math_max 0 (Math_min (ofZ height - 1)%num (Math_round iy)) in
  aget_num src ((y * ofZ width + x) * 4 + ofZ channel)%num.

(** The unit radial direction and the normalised radius of pixel [(x, y)]. *)
Definition radialNorm (cx cy maxR : number) (x y : Z) : number :=
  let dx := (ofZ x - cx)%num in
  let dy := (ofZ y - cy)%num in
  Math_min 1 (Math_hypot dx dy / maxR)%num.

Definition radialUnitX (cx cy : number) (x y : Z) : number :=
  let dx := (ofZ x - cx)%num in
  let dy := (ofZ y - cy)%num in
  if (dx === 0)%num && (dy === 0)%num then 0
  else (dx / (Math_hypot dx dy || 1))%num.

Definition radialUnitY (cx cy : number) (x y : Z) : number :=
  let dx := (ofZ x - cx)%num in
  let dy := (ofZ y - cy)%num in
  if (dx === 0)%num && (dy === 0)%num then 0
  else (dy / (Math_hypot dx dy || 1))%num.

(** Body of the double loop of the chromatic aberration at pixel [(x, y)]. *)
Definition chromaticPixel (src : list Z) (width height : Z)
    (strength : number) (dst : list Z) (x y : Z) : list Z :=
  let cx := (ofZ width / 2)%num in
  let cy := (ofZ height / 2)%num in
  let maxR := Math_hypot cx cy in
  let rNorm := radialNorm cx cy maxR x y in
  let ux := radialUnitX cx cy x y in
  let uy := radialUnitY cx cy x y in
  let shiftR := (- strength * rNorm)%num in
  let shiftB := (strength * rNorm)%num in
  let rSampleX := (ofZ x + ux * shiftR)%num in
  let rSampleY := (ofZ y + uy * shiftR)%num in
  let bSampleX := (ofZ x + ux * shiftB)%num in
  let bSampleY := (ofZ y + uy * shiftB)%num in
  let idx := ((y * width + x) * 4)%Z in
  let dst := aset dst idx (sampleNearest src width height rSampleX rSampleY 0) in
  let dst := aset dst (idx + 1) (aget src (idx + 1)) in
  aset dst (idx + 2) (sampleNearest src width height bSampleX bSampleY 2).

(** The chromatic aberration step: [dst] starts as a copy of [src] and is
    what the image data is set to at the end. *)
Definition chromaticAberration (src : list Z) (width height selectedAge : Z)
  : list Z :=
  let strength := ((3 - ofZ selectedAge) * 0.6)%num in
  fold_left
    (fun dst y =>
       fold_left (fun dst x => chromaticPixel src width height strength dst x y)
                 (zrange 0 (width - 1)) dst)
    (zrange 0 (height - 1)) src.

Definition applyOpticalEffects `{Canvas2D} (data : list Z) (width height : Z)
    (preset : AgePreset) (selectedAge : Z) : list Z :=
  let data :=
    if (scatteringFactor preset >? 0)%num
    then drawSelfScreen (Math_min 1 (scatteringFactor preset))
           (scatteringFactor preset * 8)%num width height data
    else data in
  chromaticAberration data width height selectedAge.

(** *** Neural effects *)

(** Body of the noise loop; [rand] is the sequence of values [Math.random]
    returns and [n] counts the calls made so far. *)
Definition noisePixel (scale : number) (rand : nat -> number)
    (st : list Z * nat) (i : Z) : list Z * nat :=
  let '(data, n) := st in
  let L := (0.2126 * aget data i + 0.7152 * aget data (i + 1)
            + 0.0722 * aget data (i + 2))%num in
  let sigma := (Math_sqrt (Math_max 1 L) * scale)%num in
  let nR := ((rand n * 2 - 1) * sigma)%num in
  let nG := ((rand (S n) * 2 - 1) * sigma)%num in
  let nB := ((rand (S (S n)) * 2 - 1) * sigma)%num in
  let data := aset data i (Math_max 0 (Math_min 255 (aget data i + nR)%num)) in
  let data :=
    aset data (i + 1) (Math_max 0 (Math_min 255 (aget data (i + 1) + nG)%num)) in
  let data :=
    aset data (i + 2) (Math_max 0 (Math_min 255 (aget data (i + 2) + nB)%num)) in
  (data, S (S (S n))).

Definition photoreceptorNoiseStage (preset : AgePreset) (rand : nat -> number)
    (data : list Z) : list Z :=
  if (photoreceptorNoise preset >? 0)%num then
    let scale := (photoreceptorNoise preset * 0.6)%num in
    fst (fold_left (noisePixel scale rand) (pixelIndices (length data)) (data, 0%nat))
  else data.

(** Body of the loop that combines the two blurs into the image. *)
Definition dogPixel (k : number) (blur1 blur2 : list Z) (data : list Z) (i : Z)
  : list Z :=
  let dogR := (aget blur1 i - aget blur2 i)%num in
  let dogG := (aget blur1 (i + 1) - aget blur2 (i + 1))%num in
  let dogB := (aget blur1 (i + 2) - aget blur2 (i + 2))%num in
  let data := aset data i (Math_max 0 (Math_min 255 (aget data i - k * dogR)%num)) in
  let data :=
    aset data (i + 1)
      (Math_max 0 (Math_min 255 (aget data (i + 1) - k * dogG)%num)) in
  aset data (i + 2)
    (Math_max 0 (Math_min 255 (aget data (i + 2) - k * dogB)%num)).

(** Lateral inhibition by a difference of Gaussians. *)
Definition lateralInhibitionStage (preset : AgePreset) (data : list Z)
    (width height : Z) : list Z :=
  if (lateralInhibition preset >? 0)%num then
    let alpha := Rmin 1 (lateralInhibition preset) in
    let sigma1 := 0.8 in
    let sigma2 := 2.0 + 2.0 * (1 - alpha) in
    let k1 := generateGaussianKernel1D sigma1 in
    let k2 := generateGaussianKernel1D sigma2 in
    let temp1 := convolvePass data width height k1 true in
    let blur1 := convolvePass temp1 width height k1 false in
    let temp2 := convolvePass data width height k2 true in
    let blur2 := convolvePass temp2 width height k2 false in
    let k := 0.5 * alpha in
    fold_left (dogPixel k blur1 blur2) (pixelIndices (length data)) data
  else data.

Definition applyNeuralEffects (data : list Z) (width height : Z)
    (preset : AgePreset) (rand : nat -> number) : list Z :=
  let data := photoreceptorNoiseStage preset rand data in
  lateralInhibitionStage preset data width height.

End Vision.

(** ** app.js *)

Module App.
Import Vision.

Section ProcessFrame.
Context `{Canvas2D}.

Record VideoElement : Type := {
  readyState : Z;
  currentFrame : VideoFrame
}.

(** The module-level variables [processFrame] reads and writes.
    [outputCtx] holds the pixels of the output canvas and is [None] until
    [setupCanvases] has run. *)
Record AppState : Type := {
  outputCtx : option (list Z);
  canvasWidth : Z;
  canvasHeight : Z;
  videoElement : option VideoElement;
  selectedAge : Z;
  isMirrored : bool;
  enablePeripheralBlend : bool;
  frameCount : Z
}.

Definition withFrame (s : AppState) (pixels : list Z) : AppState :=
  {| outputCtx := Some pixels;
     canvasWidth := canvasWidth s;
     canvasHeight := canvasHeight s;
     videoElement := videoElement s;
     selectedAge := selectedAge s;
     isMirrored := isMirrored s;
     enablePeripheralBlend := enablePeripheralBlend s;
     frameCount := (frameCount s + 1)%Z |}.

(** One tick.  An early [return] leaves the module variables as they are;
    an exception nothing catches ends the tick with [ThrowTypeError].  The
    drawing state of the context (the stack of [save] and the transform) is
    not part of [AppState]: the [return] of the [catch] around [drawImage]
    leaves a [save] without its [restore], and the mirroring when there is
    one, behind, which the state returned here does not show. *)
Definition processFrame (s : AppState) : completion AppState :=
  match outputCtx s with
  | None => Return s
  | Some _ =>
      let width := canvasWidth s in
      let height := canvasHeight s in
      if (width <=? 0)%Z || (height <=? 0)%Z then Return s
      else
        match videoElement s with
        | None => Return s
        | Some video =>
            if (readyState video <? 2)%Z then Return s
            else
              match drawVideo (isMirrored s) width height (currentFrame video) with
              | None => Return s
              | Some ctx =>
                  let preset := AGE_PRESETS !! selectedAge s in
                  let blurAmount := Z.max 0 ((4 - selectedAge s) * 2) in
                  let! ctx :=
                    (if (0 <? blurAmount)%Z then
                       let! peak := prop preset contrastSensitivityPeak in
                       Return (drawSelfFiltered (ofZ blurAmount) (peak * 2)%num ctx)
                     else Return ctx) in
                  let! ctx :=
                    applyInfantColorVision ctx width height preset (selectedAge s) in
                  let! ctx :=
                    (if enablePeripheralBlend s
                     then applyPeripheralVision ctx width height preset
                     else Return ctx) in
                  Return (withFrame s ctx)
              end
        end
  end.

End ProcessFrame.
End App.

(** ** vision.js: the stages the application does not call yet *)

Module Stages.
Import Vision.

Definition Math_log (a : number) : number :=
  match a with
  | Num x => if Rltb x 0 then NaN else if Reqb x 0 then NegInf else Num (ln x)
  | PosInf => PosInf
  | _ => NaN
  end.

(** *** Spatial frequency filter *)

(** The sigma of the blur, from the cutoff of the preset and the pixels per
    degree of the frame. *)
Definition cutoffSigmaPx (width height : Z) (preset : AgePreset) : number :=
  let ppd :=
    estimatePixelsPerDegree (ofZ width) (ofZ height) DEFAULT_CAMERA_HFOV_DEG in
  let cutoffCpd := Math_max 0.5 (spatialCutoffCPD preset) in
  let cutoffCyclesPerPixel := (cutoffCpd / ppd)%num in
  Math_max 0.5
    (Math_sqrt (Math_log 2) / (2 * Math_PI * cutoffCyclesPerPixel))%num.

(** Body of the contrast compression loop at byte offset [i]. *)
Definition contrastPixel (slope : number) (output : list Z) (i : Z) : list Z :=
  let r := srgbToLinear (aget output i / 255)%num in
  let g := srgbToLinear (aget output (i + 1) / 255)%num in
  let b := srgbToLinear (aget output (i + 2) / 255)%num in
  let L := (0.2126 * r + 0.7152 * g + 0.0722 * b)%num in
  let r := clamp01 (L + (r - L) * slope)%num in
  let g := clamp01 (L + (g - L) * slope)%num in
  let b := clamp01 (L + (b - L) * slope)%num in
  let output := aset output i (Math_round (linearToSrgb r * 255)) in
  let output := aset output (i + 1) (Math_round (linearToSrgb g * 255)) in
  aset output (i + 2) (Math_round (linearToSrgb b * 255)).

(** [applySpatialFrequencyFilter] on the pixel data of the canvas.  The
    kernel is modelled for a finite sigma only: [None] stands for a sigma
    that is not finite. *)
Definition applySpatialFrequencyFilter (data : list Z) (width height : Z)
    (preset : AgePreset) : option (list Z) :=
  match cutoffSigmaPx width height preset with
  | Num sigmaPx =>
      let kernel := generateGaussianKernel1D sigmaPx in
      let temp := convolvePass data width height kernel true in
      let output := convolvePass temp width height kernel false in
      let slope := clamp01 (contrastSlope preset) in
      Some (fold_left (contrastPixel slope) (pixelIndices (length output)) output)
  | _ => None
  end.

(** *** Temporal integration *)

(** The module-level object [TEMPORAL_STATE]; [buffer] is [None] for
    [null]. *)
Record TemporalState : Type := {
  buffer : option (list Z);
  width : Z;
  height : Z;
  lastTs : number
}.

Definition TEMPORAL_STATE : TemporalState :=
  {| buffer := None; width := 0; height := 0; lastTs := 0 |}.

(** Body of the blending loop at byte offset [i]: [prev] is rewritten in
    place from itself and [curr]. *)
Definition temporalPixel (alpha : number) (curr prev : list Z) (i : Z) : list Z :=
  let prev :=
    aset prev i
      (Math_round (aget prev i * (1 - alpha) + aget curr i * alpha)%num) in
  let prev :=
    aset prev (i + 1)
      (Math_round (aget prev (i + 1) * (1 - alpha) + aget curr (i + 1) * alpha)%num) in
  let prev :=
    aset prev (i + 2)
      (Math_round (aget prev (i + 2) * (1 - alpha) + aget curr (i + 2) * alpha)%num) in
  aset prev (i + 3) 255.

(** [target.set(source)] on typed arrays: a source longer than the target
    is a [RangeError] ([None]). *)
Definition typedArraySet (target source : list Z) : option (list Z) :=
  if (length target <? length source)%nat then None
  else Some (source ++ drop (length source) target).

(** What a call leaves behind: the state and the pixel data put back on
    the canvas, or the state at the [RangeError] of [set]. *)
Inductive TemporalOutcome : Type :=
  | Integrated (st : TemporalState) (data : list Z)
  | ThrowRangeError (st : TemporalState).

(** [nowMs] is [None] when the argument is not a number; [clock] is what
    [performance.now()] would return. *)
Definition applyTemporalIntegration (st : TemporalState) (curr : list Z)
    (frameWidth frameHeight : Z) (preset : AgePreset) (nowMs : option number)
    (clock : number) : TemporalOutcome :=
  let tauMs := Math_max 10 (temporalIntegrationMs preset) in
  let now := match nowMs with Some t => t | None => clock end in
  let dt : number :=
    if truthy (lastTs st) then Math_max 1 (now - lastTs st)%num else 16 in
  let alpha := Math_min 1 (dt / tauMs)%num in
  let fresh := {| buffer := Some curr; width := frameWidth;
                  height := frameHeight; lastTs := lastTs st |} in
  let '(st, prev) :=
    match buffer st with
    | Some kept =>
        if negb (width st =? frameWidth)%Z || negb (height st =? frameHeight)%Z
        then (fresh, curr)
        else (st, kept)
    | None => (fresh, curr)
    end in
  let prev :=
    fold_left (temporalPixel alpha curr) (pixelIndices (length curr)) prev in
  let st := {| buffer := Some prev; width := width st; height := height st;
               lastTs := lastTs st |} in
  match typedArraySet curr prev with
  | Some data =>
      Integrated {| buffer := Some prev; width := width st; height := height st;
                    lastTs := now |} data
  | None => ThrowRangeError st
  end.

End Stages.

(** * Reference definitions

    Real-valued readings of the code on finite inputs, the sample presets
    and canvas the statements below are written with. *)

Import Vision.

(** A preset whose three cone sensitivities are all 1. *)
Definition unitCones (p : AgePreset) : Prop :=
  cone_L (coneSensitivity p) = 1 /\
  cone_M (coneSensitivity p) = 1 /\
  cone_S (coneSensitivity p) = 1.

Definition unitPreset : AgePreset := {|
  label := "unit cones";
  spatialCutoffCPD := 4.0;
  peakSensitivityCPD := 1.5;
  contrastSensitivityPeak := 60;
  contrastSlope := 1;
  temporalIntegrationMs := 100;
  coneSensitivity := {| cone_L := 1; cone_M := 1; cone_S := 1 |};
  pupilDiameterMm := 3.5;
  scatteringFactor := 0;
  accommodationRange := 0.6;
  centralFieldRadiusDeg := 20;
  peripheralSuppression := 0;
  lateralInhibition := 0;
  photoreceptorNoise := 0;
  description := "every cone sensitivity 1, no scatter, noise or inhibition"
|}.

(** The vertical field of view, in degrees, that [estimatePixelsPerDegree]
    derives from a 60 degree horizontal one and an aspect ratio. *)
Definition verticalFovDeg (aspect : R) : R :=
  2 * atan (tan (60 * PI / 180 / 2) / aspect) * 180 / PI.

(** The aspect ratio [estimatePixelsPerDegree] uses for a frame. *)
Definition aspectOf (w h : R) : R :=
  if Rltb 0 w && Rltb 0 h then w / h else 16 / 9.

(** The radius of the kernel for a finite sigma. *)
Definition kernelRadius (sigmaPx : R) : Z := Z.max 1 (Zfloor (sigmaPx * 3)).

(** The real value of tap [i] before normalisation. *)
Definition gaussianTap (sigmaPx : R) (i : Z) : R :=
  exp (- (IZR i * IZR i) / (2 * sigmaPx * sigmaPx)).

Definition realTaps (sigmaPx : R) : list R :=
  gaussianTap sigmaPx <$> zrange (- kernelRadius sigmaPx) (kernelRadius sigmaPx).

Definition tapSum (sigmaPx : R) : R := fold_left Rplus (realTaps sigmaPx) 0.

(** The entries of a [Uint8ClampedArray] are bytes. *)
Definition bytes (a : list Z) : Prop := Forall (fun b => (0 <= b <= 255)%Z) a.

(** A preset whose cutoff equals its peak frequency. *)
Definition equalCutoffPreset : AgePreset := {|
  label := "2 months";
  spatialCutoffCPD := 1.0;
  peakSensitivityCPD := 1.0;
  contrastSensitivityPeak := 40;
  contrastSlope := 0.75;
  temporalIntegrationMs := 150;
  coneSensitivity := {| cone_L := 0.85; cone_M := 0.65; cone_S := 0.45 |};
  pupilDiameterMm := 3.0;
  scatteringFactor := 0.2;
  accommodationRange := 0.4;
  centralFieldRadiusDeg := 15;
  peripheralSuppression := 0.5;
  lateralInhibition := 0.5;
  photoreceptorNoise := 0.05;
  description := "the 2 month preset with the cutoff lowered to the peak"
|}.

(** Real-valued readings of the transfer functions on finite arguments. *)
Definition srgbToLinearR (v : R) : R :=
  if Rleb v 0.04045 then v / 12.92 else Rpower ((v + 0.055) / 1.055) 2.4.

Definition clamp01R (v : R) : R :=
  if Rltb v 0 then 0 else if Rltb 1 v then 1 else v.

(** The linear-light channel of a stored byte. *)
Definition linearOfByte (b : Z) : R := srgbToLinearR (IZR b / 255).

(** The two summands of the red output and the three outputs, in linear
    light, as [applyInfantColorVision] forms them for age 1. *)
Definition luminanceTerm (rL gL bL : R) : R :=
  (0.2126 * rL + 0.7152 * gL + 0.0722 * bL) * 0.85.

Definition redTerm (p : AgePreset) (rL : R) : R :=
  rL * cone_L (coneSensitivity p) * 0.25.

Definition outR1 (p : AgePreset) (rL gL bL : R) : R :=
  clamp01R (luminanceTerm rL gL bL + redTerm p rL).

Definition outG1 (p : AgePreset) (rL gL bL : R) : R :=
  clamp01R (luminanceTerm rL gL bL * cone_M (coneSensitivity p)).

Definition outB1 (p : AgePreset) (rL gL bL : R) : R :=
  clamp01R (luminanceTerm rL gL bL * cone_S (coneSensitivity p)).

(** The byte a linear-light value is stored as: encoded to sRGB, scaled to
    255, rounded, and converted by the array. *)
Definition encodeByte (v : R) : Z :=
  ToUint8Clamp (Math_round (linearToSrgb (Num v) * 255)%num).

(** Pixel [k] of a buffer with its first three channels replaced. *)
Definition setPixel (d : list Z) (k : nat) (rgb : Z * Z * Z) : list Z :=
  let '(r, g, b) := rgb in
  <[(4 * k + 2)%nat := b]> (<[(4 * k + 1)%nat := g]> (<[(4 * k)%nat := r]> d)).

Definition pixelAt (d : list Z) (k : nat) : Z * Z * Z :=
  (d !!! (4 * k)%nat, d !!! (4 * k + 1)%nat, d !!! (4 * k + 2)%nat).

(** A frame of [n] pixels that all hold the four bytes [px]. *)
Fixpoint solidFrame (n : nat) (px : list Z) : list Z :=
  match n with
  | O => []
  | S m => px ++ solidFrame m px
  end.

(** What the age 1 branch makes of the three bytes of a pixel. *)
Definition infantBytes1 (p : AgePreset) (rgb : Z * Z * Z) : Z * Z * Z :=
  let '(r, g, b) := rgb in
  let rL := linearOfByte r in
  let gL := linearOfByte g in
  let bL := linearOfByte b in
  (encodeByte (outR1 p rL gL bL),
   encodeByte (outG1 p rL gL bL),
   encodeByte (outB1 p rL gL bL)).

(** The radii the vignette computes for a frame, as real numbers. *)
Definition pixelsPerDegreeR (w h : R) : R :=
  Rmax 1 (Rmin (w / 60) (h / verticalFovDeg (aspectOf w h))).

Definition centralRadiusPx (w h : R) (p : AgePreset) : R :=
  Rmax 1 (centralFieldRadiusDeg p * pixelsPerDegreeR w h).

Definition halfDiagonal (w h : R) : R := sqrt (w * w + h * h) * 0.5.

Definition innerRadius (w h : R) (p : AgePreset) : R :=
  Rmax 1 (centralRadiusPx w h p * 0.5).

Definition outerRadius (w h : R) (p : AgePreset) : R :=
  Rmax (centralRadiusPx w h p) (halfDiagonal w h).

(** A canvas that draws a frame already of its own size as it is, and on
    which filters and fills leave the pixels alone. *)
#[local] Program Instance plainCanvas : Canvas2D := {|
  VideoFrame := list Z;
  drawVideo := fun _ w h frame =>
    if decide (length frame = Z.to_nat (4 * w * h)) then Some frame else None;
  drawSelfFiltered := fun _ _ d => d;
  drawSelfScreen := fun _ _ _ _ d => d;
  fillRectMultiply := fun _ _ _ d => d
|}.
Next Obligation.
  intros m w h v d Hdraw. cbn in Hdraw.
  destruct (decide (length v = Z.to_nat (4 * w * h))); congruence.
Qed.

(** ** Frames, tolerances and blending weights *)

(** [x] is [y] to within one part in 10^9 of [y], or of 1 when [y] is
    smaller: far more than the rounding of a few floating-point operations
    can move a result. *)
Definition nearly (x y : R) : Prop :=
  Rabs (x - y) <= / 1000000000 * Rmax 1 (Rabs y).

(** A frame whose first [k] pixels are written and whose rest is still the
    zeroes of a fresh array. *)
Definition partlyFilled (total k : Z) (px : list Z) : list Z :=
  solidFrame (Z.to_nat k) px ++ replicate (4 * Z.to_nat (total - k)) 0%Z.

(** The length and the alpha bytes of the buffer a loop started from. *)
Definition sameAlpha (data d : list Z) : Prop :=
  length d = length data /\
  forall k : nat, d !! (4 * k + 3)%nat = data !! (4 * k + 3)%nat.

(** A stored byte that differs from another by at most one step. *)
Definition withinOne (x y : Z) : Prop :=
  (x - 1 <= y <= x + 1)%Z /\ (0 <= y <= 255)%Z.

(** The sigma of the blur on a finite frame. *)
Definition cutoffSigmaR (w h : R) (p : AgePreset) : R :=
  Rmax 0.5
    (sqrt (ln 2)
     / (2 * PI * (Rmax 0.5 (spatialCutoffCPD p) / pixelsPerDegreeR w h))).

(** The byte the blending loop stores for a previous byte [p] and a
    current byte [c]. *)
Definition blendByte (alpha : number) (p c : Z) : Z :=
  ToUint8Clamp (Math_round (ofZ p * (1 - alpha) + ofZ c * alpha)%num).

(** The blending weight for finite times: [t0] is the time of the last
    call, zero when there was none. *)
Definition temporalAlphaR (t0 t tauSetting : R) : R :=
  Rmin 1 ((if Reqb t0 0 then 16 else Rmax 1 (t - t0)) / Rmax 10 tauSetting).

(** The buffer the loop starts from: the kept one, or a copy of the
    current frame when there is none or the frame size has changed. *)
Definition temporalStart (st : Stages.TemporalState) (curr : list Z)
    (frameWidth frameHeight : Z) : list Z :=
  match Stages.buffer st with
  | Some kept =>
      if negb (Stages.width st =? frameWidth)%Z
         || negb (Stages.height st =? frameHeight)%Z
      then curr else kept
  | None => curr
  end.

(** The weight as the code computes it. *)
Definition temporalAlpha (st : Stages.TemporalState) (p : AgePreset)
    (now : number) : number :=
  Math_min 1
    ((if truthy (Stages.lastTs st)
      then Math_max 1 (now - Stages.lastTs st)%num else 16)
     / Math_max 10 (temporalIntegrationMs p))%num.

(** * Properties *)

(** ** Reasoning about numbers *)

Lemma Rltb_true x y : x < y -> Rltb x y = true.
Proof. intros Hxy. unfold Rltb. destruct (Rlt_dec x y); [reflexivity | lra]. Qed.

Lemma Rltb_false x y : y <= x -> Rltb x y = false.
Proof. intros Hxy. unfold Rltb. destruct (Rlt_dec x y); [lra | reflexivity]. Qed.

Lemma Rleb_true x y : x <= y -> Rleb x y = true.
Proof. intros Hxy. unfold Rleb. destruct (Rle_dec x y); [reflexivity | lra]. Qed.

Lemma Rleb_false x y : y < x -> Rleb x y = false.
Proof. intros Hxy. unfold Rleb. destruct (Rle_dec x y); [lra | reflexivity]. Qed.

Lemma Reqb_true x y : x = y -> Reqb x y = true.
Proof. intros ->. unfold Reqb. destruct (Req_dec_T y y); [reflexivity | contradiction]. Qed.

Lemma Reqb_false x y : x <> y -> Reqb x y = false.
Proof. intros Hxy. unfold Reqb. destruct (Req_dec_T x y); [contradiction | reflexivity]. Qed.

Lemma ndiv_Num x y : y <> 0 -> (Num x / Num y)%num = Num (x / y).
Proof. intros Hy. unfold ndiv. now rewrite Reqb_false. Qed.

Lemma ndiv_zero_zero : (Num 0 / Num 0)%num = NaN.
Proof. unfold ndiv. now rewrite !Reqb_true. Qed.

Lemma nadd_Num x y : (Num x + Num y)%num = Num (x + y).
Proof. reflexivity. Qed.

Lemma nsub_Num x y : (Num x - Num y)%num = Num (x - y).
Proof. reflexivity. Qed.

Lemma nmul_Num x y : (Num x * Num y)%num = Num (x * y).
Proof. reflexivity. Qed.

Lemma nneg_Num x : (- Num x)%num = Num (- x).
Proof. reflexivity. Qed.

Lemma Math_min_Num x y : Math_min (Num x) (Num y) = Num (Rmin x y).
Proof. reflexivity. Qed.

Lemma Math_max_Num x y : Math_max (Num x) (Num y) = Num (Rmax x y).
Proof. reflexivity. Qed.

Lemma nlt_Num x y : (Num x <? Num y)%num = Rltb x y.
Proof. reflexivity. Qed.

Lemma ngt_Num x y : (Num x >? Num y)%num = Rltb y x.
Proof. reflexivity. Qed.

Lemma nle_Num x y : (Num x <=? Num y)%num = Rleb x y.
Proof. reflexivity. Qed.

Lemma strict_eq_Num x y : (Num x === Num y)%num = Reqb x y.
Proof. reflexivity. Qed.

Lemma ofZ_Num z : ofZ z = Num (IZR z).
Proof. reflexivity. Qed.

Create Rewrite HintDb num.
#[local] Hint Rewrite nadd_Num nsub_Num nmul_Num nneg_Num Math_min_Num
  Math_max_Num nlt_Num ngt_Num nle_Num strict_eq_Num ofZ_Num : num.

(** Decide the comparisons of real constants a computation branches on. *)
Ltac decide_R :=
  repeat first
    [ rewrite Rltb_true by lra | rewrite Rltb_false by lra
    | rewrite Rleb_true by lra | rewrite Rleb_false by lra
    | rewrite Reqb_true by lra | rewrite Reqb_false by lra
    | rewrite ndiv_Num by lra ].

(** Evaluate number arithmetic on finite operands down to real arithmetic. *)
Ltac num_simpl :=
  repeat (autorewrite with num; decide_R; cbn [andb orb negb fst snd]).

(** ** The preset table *)

Lemma AGE_PRESETS_lookup (age : Z) :
  AGE_PRESETS !! age =
    if decide (age = 1%Z) then Some preset1
    else if decide (age = 2%Z) then Some preset2
    else if decide (age = 3%Z) then Some preset3
    else None.
Proof.
  unfold AGE_PRESETS.
  repeat (rewrite lookup_insert; case_decide; subst;
          [repeat case_decide; try reflexivity; try lia |]).
  repeat case_decide; try lia. apply lookup_empty.
Qed.

Lemma AGE_PRESETS_unknown (age : Z) :
  age <> 1%Z -> age <> 2%Z -> age <> 3%Z -> AGE_PRESETS !! age = None.
Proof.
  intros H1 H2 H3. rewrite AGE_PRESETS_lookup.
  repeat case_decide; try contradiction; reflexivity.
Qed.

(** C8: in the preset table, the spatial cutoff, the peak contrast
    sensitivity and each of the three cone sensitivities do not decrease
    from one age to an older one. *)
Theorem presets_nondecreasing_with_age (a b : Z) (pa pb : AgePreset) :
  AGE_PRESETS !! a = Some pa ->
  AGE_PRESETS !! b = Some pb ->
  (a < b)%Z ->
  spatialCutoffCPD pa <= spatialCutoffCPD pb /\
  contrastSensitivityPeak pa <= contrastSensitivityPeak pb /\
  cone_L (coneSensitivity pa) <= cone_L (coneSensitivity pb) /\
  cone_M (coneSensitivity pa) <= cone_M (coneSensitivity pb) /\
  cone_S (coneSensitivity pa) <= cone_S (coneSensitivity pb).
Proof.
  rewrite !AGE_PRESETS_lookup. intros Ha Hb Hlt.
  repeat case_decide; subst; try discriminate; try lia;
    injection Ha as <-; injection Hb as <-; cbn; lra.
Qed.

Lemma presets_nondecreasing_with_age_witness :
  spatialCutoffCPD preset1 <= spatialCutoffCPD preset3 /\
  contrastSensitivityPeak preset1 <= contrastSensitivityPeak preset3 /\
  cone_L (coneSensitivity preset1) <= cone_L (coneSensitivity preset3) /\
  cone_M (coneSensitivity preset1) <= cone_M (coneSensitivity preset3) /\
  cone_S (coneSensitivity preset1) <= cone_S (coneSensitivity preset3).
Proof.
  apply (presets_nondecreasing_with_age 1 3 preset1 preset3).
  - reflexivity.
  - reflexivity.
  - lia.
Defined.

(** ** Colour matrices *)

(** At age 3 the adaptation factor [0.8 + (0.2 * age) / 3] is 1, so the von
    Kries blend leaves each cone channel as it is. *)
Lemma adaptationFactor_age3 : (0.8 + (0.2 * ofZ 3) / 3)%num = Num 1.
Proof. num_simpl. f_equal. lra. Qed.

(** C1: with unit cone sensitivities and no adaptation (age 3), a linear
    RGB triple taken to LMS by [RGB_TO_LMS] and back by [LMS_TO_RGB] comes
    back within 1e-2 on every channel. *)
Theorem lms_round_trip (p : AgePreset) (r g b : R) :
  unitCones p ->
  0 <= r <= 1 -> 0 <= g <= 1 -> 0 <= b <= 1 ->
  exists r' g' b' : R,
    lmsLinear p 3 (Num r) (Num g) (Num b) = (Num r', Num g', Num b') /\
    Rabs (r' - r) <= 0.01 /\ Rabs (g' - g) <= 0.01 /\ Rabs (b' - b) <= 0.01.
Proof.
  intros (HL & HM & HS) Hr Hg Hb.
  unfold lmsLinear, entry, RGB_TO_LMS, LMS_TO_RGB. rewrite HL, HM, HS.
  num_simpl. cbn.
  do 3 eexists. split; [reflexivity |].
  repeat split; apply Rabs_le; lra.
Qed.

Lemma lms_round_trip_witness :
  exists r' g' b' : R,
    lmsLinear unitPreset 3 (Num 1) (Num 0.5) (Num 0) = (Num r', Num g', Num b') /\
    Rabs (r' - 1) <= 0.01 /\ Rabs (g' - 0.5) <= 0.01 /\ Rabs (b' - 0) <= 0.01.
Proof.
  apply (lms_round_trip unitPreset 1 0.5 0).
  - repeat split.
  - lra.
  - lra.
  - lra.
Defined.

(** ** Pixels per degree *)

Lemma aspectOf_pos w h : 0 < aspectOf w h.
Proof.
  unfold aspectOf, Rltb.
  destruct (Rlt_dec 0 w), (Rlt_dec 0 h); cbn; try lra.
  now apply Rdiv_lt_0_compat.
Qed.

Lemma tan_half_hfov_pos : 0 < tan (60 * PI / 180 / 2).
Proof.
  pose proof PI_RGT_0 as HPI.
  apply tan_gt_0; lra.
Qed.

Lemma verticalFovDeg_pos aspect : 0 < aspect -> 0 < verticalFovDeg aspect.
Proof.
  intros Ha. unfold verticalFovDeg.
  pose proof PI_RGT_0 as HPI.
  pose proof tan_half_hfov_pos as Htan.
  assert (Hq : 0 < tan (60 * PI / 180 / 2) / aspect)
    by now apply Rdiv_lt_0_compat.
  pose proof (atan_increasing _ _ Hq) as Hatan. rewrite atan_0 in Hatan.
  apply Rdiv_lt_0_compat; lra.
Qed.

Lemma aspect_finite (w h : R) : aspect (Num w) (Num h) = Num (aspectOf w h).
Proof.
  unfold aspect. rewrite !ngt_Num. unfold aspectOf, Rltb.
  destruct (Rlt_dec 0 w), (Rlt_dec 0 h); cbn [andb]; apply ndiv_Num; lra.
Qed.

(** On finite arguments and the default field of view every division of
    [estimatePixelsPerDegree] has a non-zero denominator, and the function
    is the real-valued formula below. *)
Lemma estimatePixelsPerDegree_formula (w h : R) :
  estimatePixelsPerDegree (Num w) (Num h) DEFAULT_CAMERA_HFOV_DEG =
    Num (Rmax 1 (Rmin (w / 60) (h / verticalFovDeg (aspectOf w h)))).
Proof.
  pose proof PI_RGT_0 as HPI.
  pose proof (aspectOf_pos w h) as Hasp.
  pose proof (verticalFovDeg_pos _ Hasp) as Hv.
  unfold estimatePixelsPerDegree, degToRad, radToDeg, DEFAULT_CAMERA_HFOV_DEG,
    Math_PI.
  rewrite aspect_finite.
  rewrite nmul_Num, (ndiv_Num _ 180), (ndiv_Num _ 2) by lra.
  cbn [Math_tan]. rewrite (ndiv_Num _ (aspectOf w h)) by lra.
  cbn [Math_atan]. rewrite !nmul_Num, (ndiv_Num _ PI) by lra.
  fold (verticalFovDeg (aspectOf w h)).
  rewrite (ndiv_Num w 60), (ndiv_Num h) by lra.
  reflexivity.
Qed.

(** C10, as the code has it: on every finite width and height, positive or
    not, [estimatePixelsPerDegree] raises nothing and returns a finite
    number that is at least 1.  The aspect ratio it computes first is
    [width / height] when both are positive and 16/9 otherwise; the result is
    [max(1, min(width / 60, height / vfov))] with [vfov] the vertical field
    of view of that aspect ratio; and a width that is not positive gives
    exactly 1. *)
Theorem estimatePixelsPerDegree_total (w h : R) :
  exists a ppd : R,
    aspect (Num w) (Num h) = Num a /\
    (0 < w -> 0 < h -> a = w / h) /\
    (w <= 0 \/ h <= 0 -> a = 16 / 9) /\
    estimatePixelsPerDegree (Num w) (Num h) DEFAULT_CAMERA_HFOV_DEG = Num ppd /\
    ppd = Rmax 1 (Rmin (w / 60) (h / verticalFovDeg a)) /\
    1 <= ppd /\
    (w <= 0 -> ppd = 1).
Proof.
  exists (aspectOf w h),
    (Rmax 1 (Rmin (w / 60) (h / verticalFovDeg (aspectOf w h)))).
  split; [apply aspect_finite |].
  split.
  { intros Hw Hh. unfold aspectOf. now rewrite !Rltb_true by assumption. }
  split.
  { intros Hwh. unfold aspectOf, Rltb.
    destruct (Rlt_dec 0 w), (Rlt_dec 0 h); cbn [andb]; try reflexivity.
    destruct Hwh; lra. }
  split; [apply estimatePixelsPerDegree_formula |].
  split; [reflexivity |].
  split; [apply Rmax_l |].
  intros Hw. apply Rmax_left.
  etransitivity; [apply Rmin_l |]. lra.
Qed.

Lemma estimatePixelsPerDegree_total_witness :
  aspect (Num 0) (Num 720) = Num (16 / 9) /\
  estimatePixelsPerDegree (Num 0) (Num 720) DEFAULT_CAMERA_HFOV_DEG = Num 1.
Proof.
  destruct (estimatePixelsPerDegree_total 0 720)
    as (a & ppd & Ha & _ & Hfallback & Heq & _ & _ & Hone).
  rewrite Ha, Heq. split; f_equal.
  - apply Hfallback. left. lra.
  - apply Hone. lra.
Defined.

(** C10 as claimed fails for a width that is not finite: a [NaN] width
    gives [NaN], and an infinite width over a finite positive height gives
    [Infinity], neither of them a finite value. *)
Lemma estimatePixelsPerDegree_not_finite :
  estimatePixelsPerDegree NaN (Num 720) DEFAULT_CAMERA_HFOV_DEG = NaN /\
  estimatePixelsPerDegree PosInf (Num 720) DEFAULT_CAMERA_HFOV_DEG = PosInf.
Proof.
  split.
  - unfold estimatePixelsPerDegree.
    replace (NaN / DEFAULT_CAMERA_HFOV_DEG)%num with NaN by reflexivity.
    cbn [Math_min]. reflexivity.
  - pose proof PI_RGT_0 as HPI.
    assert (Ha : aspect PosInf (Num 720) = PosInf).
    { unfold aspect. cbn. rewrite Rltb_true by lra. rewrite Rleb_true by lra.
      reflexivity. }
    assert (Hx : (PosInf / DEFAULT_CAMERA_HFOV_DEG)%num = PosInf).
    { unfold DEFAULT_CAMERA_HFOV_DEG. cbn. rewrite Rleb_true by lra.
      reflexivity. }
    assert (Hy : (Num 720 / Num 0)%num = PosInf).
    { unfold ndiv. rewrite Reqb_true by reflexivity.
      rewrite Reqb_false by lra. rewrite Rltb_true by lra. reflexivity. }
    unfold estimatePixelsPerDegree. rewrite Ha, Hx.
    unfold degToRad, radToDeg, DEFAULT_CAMERA_HFOV_DEG, Math_PI.
    rewrite nmul_Num, (ndiv_Num _ 180), (ndiv_Num _ 2) by lra.
    cbn [Math_tan].
    replace (Num (tan (60 * PI / 180 / 2)) / PosInf)%num with (Num 0)
      by reflexivity.
    cbn [Math_atan]. rewrite atan_0.
    rewrite !nmul_Num, ndiv_Num by lra.
    replace (2 * 0 * 180 / PI) with 0 by (field; lra).
    rewrite Hy. reflexivity.
Qed.

(** ** The Gaussian kernel *)

Lemma zrange_length lo hi : length (zrange lo hi) = Z.to_nat (hi - lo + 1).
Proof. unfold zrange. now rewrite length_fmap, length_seq. Qed.

Lemma zrange_lookup lo hi (n : nat) :
  (n < Z.to_nat (hi - lo + 1))%nat ->
  zrange lo hi !! n = Some (lo + Z.of_nat n)%Z.
Proof.
  intros Hn. unfold zrange.
  rewrite list_lookup_fmap, lookup_seq_lt by exact Hn. reflexivity.
Qed.

Lemma fold_left_nadd_Num (l : list R) (a : R) :
  fold_left nadd (Num <$> l) (Num a) = Num (fold_left Rplus l a).
Proof.
  revert a. induction l as [| x l IH]; intros a; [reflexivity |].
  cbn. apply IH.
Qed.

Lemma fold_left_Rplus_pos (l : list R) (a : R) :
  Forall (fun x => 0 < x) l -> 0 <= a -> a <= fold_left Rplus l a.
Proof.
  intros Hl. revert a. induction Hl as [| x l Hx _ IH]; intros a Ha; cbn.
  - lra.
  - etransitivity; [| apply IH; lra]. lra.
Qed.

Lemma fold_left_Rplus_scaled (l : list R) (a s : R) :
  fold_left Rplus ((fun t => t / s) <$> l) (a / s) = fold_left Rplus l a / s.
Proof.
  revert a. induction l as [| x l IH]; intros a; [reflexivity |].
  cbn. replace (a / s + x / s) with ((a + x) / s) by (unfold Rdiv; ring).
  apply IH.
Qed.

Lemma Rmax_IZR (a b : Z) : Rmax (IZR a) (IZR b) = IZR (Z.max a b).
Proof.
  destruct (Z.le_ge_cases a b) as [Hab | Hab].
  - rewrite Rmax_right, Z.max_r by (try apply IZR_le; assumption). reflexivity.
  - rewrite Rmax_left, Z.max_l by (try apply IZR_le; lia). reflexivity.
Qed.

Lemma radius_of_sigma (sigmaPx : R) :
  toZ (Math_max 1 (Math_floor (Num sigmaPx * 3)%num)) = kernelRadius sigmaPx.
Proof.
  unfold kernelRadius. rewrite nmul_Num. cbn [Math_floor].
  rewrite Math_max_Num. cbn [toZ].
  rewrite (Rmax_IZR 1). apply ZfloorZ.
Qed.

Lemma gaussianTaps_real (sigmaPx : R) :
  0 < sigmaPx ->
  gaussianTaps (kernelRadius sigmaPx) (2 * sigmaPx * sigmaPx)%num
  = Num <$> realTaps sigmaPx.
Proof.
  intros Hs. unfold gaussianTaps, realTaps.
  rewrite <- list_fmap_compose. apply list_fmap_ext. intros _ i _.
  cbn [compose]. rewrite !nmul_Num, !ofZ_Num, nmul_Num, nneg_Num.
  rewrite ndiv_Num by nra. reflexivity.
Qed.

Lemma realTaps_pos (sigmaPx : R) : Forall (fun x => 0 < x) (realTaps sigmaPx).
Proof.
  unfold realTaps. apply Forall_fmap, Forall_true. intros i. apply exp_pos.
Qed.

Lemma realTaps_length (sigmaPx : R) :
  length (realTaps sigmaPx) = Z.to_nat (2 * kernelRadius sigmaPx + 1).
Proof.
  unfold realTaps. rewrite length_fmap, zrange_length. f_equal. lia.
Qed.

(** The sum that divides the taps is at least the centre tap, which is 1:
    it is never zero. *)
Lemma tapSum_ge_1 (sigmaPx : R) : 0 < sigmaPx -> 1 <= tapSum sigmaPx.
Proof.
  intros Hs. unfold tapSum, realTaps.
  set (r := kernelRadius sigmaPx).
  assert (Hr : (1 <= r)%Z) by (unfold r, kernelRadius; lia).
  assert (Hsplit : zrange (- r) r =
            zrange (- r) (-1) ++ [0%Z] ++ zrange 1 r).
  { apply list_eq. intros n.
    destruct (decide (n < Z.to_nat (2 * r + 1))%nat) as [Hn | Hn].
    - rewrite zrange_lookup by lia.
      destruct (decide (n < Z.to_nat r)%nat) as [Hlo | Hlo].
      + rewrite lookup_app_l by (rewrite zrange_length; lia).
        rewrite zrange_lookup by lia. reflexivity.
      + rewrite lookup_app_r by (rewrite zrange_length; lia).
        rewrite zrange_length.
        destruct (decide (n = Z.to_nat r)) as [-> | Hne].
        * replace (Z.to_nat r - Z.to_nat (-1 - - r + 1))%nat with 0%nat by lia.
          cbn. f_equal. lia.
        * replace (n - Z.to_nat (-1 - - r + 1))%nat
            with (S (n - Z.to_nat r - 1))%nat by lia.
          cbn. rewrite zrange_lookup by lia. f_equal. lia.
    - rewrite !lookup_ge_None_2; [reflexivity | |].
      + rewrite !length_app, !zrange_length. cbn. lia.
      + rewrite zrange_length. lia. }
  rewrite Hsplit, !fmap_app, !fold_left_app. cbn [fmap list_fmap fold_left].
  set (before := fold_left Rplus (gaussianTap sigmaPx <$> zrange (- r) (-1)) 0).
  assert (Hbefore : 0 <= before).
  { apply (fold_left_Rplus_pos _ 0); [| lra].
    apply Forall_fmap, Forall_true. intros i. apply exp_pos. }
  assert (Hcentre : gaussianTap sigmaPx 0 = 1).
  { unfold gaussianTap. replace (- (0 * 0) / (2 * sigmaPx * sigmaPx)) with 0.
    - apply exp_0.
    - unfold Rdiv. ring. }
  rewrite Hcentre.
  etransitivity; [| apply fold_left_Rplus_pos].
  - lra.
  - apply Forall_fmap, Forall_true. intros i. apply exp_pos.
  - lra.
Qed.

Lemma generateGaussianKernel1D_real (sigmaPx : R) :
  0 < sigmaPx ->
  generateGaussianKernel1D sigmaPx =
    Num <$> ((fun t => t / tapSum sigmaPx) <$> realTaps sigmaPx).
Proof.
  intros Hs. pose proof (tapSum_ge_1 _ Hs) as Hsum.
  unfold generateGaussianKernel1D.
  rewrite radius_of_sigma, gaussianTaps_real by exact Hs.
  rewrite fold_left_nadd_Num. fold (tapSum sigmaPx).
  rewrite <- !list_fmap_compose. apply list_fmap_ext. intros _ t _.
  cbn [compose]. apply ndiv_Num. lra.
Qed.

(** C3: for every sigma > 0 the kernel has the odd length
    [2 * max(1, floor(3 sigma)) + 1], its tap at offset [i] from the centre
    is a fixed positive multiple of [exp(-i^2 / (2 sigma^2))], and its
    weights add up to 1 within 1e-4. *)
Theorem gaussian_kernel_normalised (sigmaPx : R) :
  0 < sigmaPx ->
  let radius := Z.max 1 (Zfloor (3 * sigmaPx)) in
  let kernel := generateGaussianKernel1D sigmaPx in
  length kernel = Z.to_nat (2 * radius + 1) /\
  Z.odd (Z.of_nat (length kernel)) = true /\
  (exists c : R, 0 < c /\
     forall i : Z, (- radius <= i <= radius)%Z ->
       kget kernel (i + radius) =
         Num (c * exp (- (IZR i * IZR i) / (2 * (sigmaPx * sigmaPx))))) /\
  (exists total : R,
     fold_left nadd kernel (Num 0) = Num total /\ Rabs (total - 1) <= 0.0001).
Proof.
  intros Hs radius kernel.
  assert (Hradius : radius = kernelRadius sigmaPx).
  { unfold radius, kernelRadius. now rewrite (Rmult_comm 3). }
  pose proof (tapSum_ge_1 _ Hs) as Hsum.
  assert (Hr : (1 <= radius)%Z) by (unfold radius; lia).
  assert (Hlen : length kernel = Z.to_nat (2 * radius + 1)).
  { unfold kernel. rewrite generateGaussianKernel1D_real by exact Hs.
    rewrite !length_fmap, realTaps_length, Hradius. reflexivity. }
  split; [exact Hlen |].
  split.
  { rewrite Hlen, Z2Nat.id by lia.
    rewrite Z.add_comm, Z.odd_add_mul_2. reflexivity. }
  split.
  - exists (/ tapSum sigmaPx). split; [apply Rinv_0_lt_compat; lra |].
    intros i Hi. unfold kernel, kget.
    rewrite generateGaussianKernel1D_real by exact Hs.
    destruct (Z.ltb_spec (i + radius) 0) as [Hneg | _]; [lia |].
    unfold realTaps. rewrite !list_lookup_fmap, <- Hradius.
    rewrite zrange_lookup by lia. cbn [fmap option_fmap option_map].
    replace (- radius + Z.of_nat (Z.to_nat (i + radius)))%Z with i by lia.
    unfold gaussianTap. f_equal.
    replace (2 * sigmaPx * sigmaPx) with (2 * (sigmaPx * sigmaPx)) by ring.
    unfold Rdiv at 1. ring.
  - exists 1. split; [| rewrite Rminus_diag, Rabs_R0; lra].
    unfold kernel. rewrite generateGaussianKernel1D_real by exact Hs.
    rewrite fold_left_nadd_Num. f_equal.
    replace 0 with (0 / tapSum sigmaPx) at 1 by (unfold Rdiv; ring).
    rewrite fold_left_Rplus_scaled. fold (tapSum sigmaPx).
    unfold Rdiv. rewrite Rplus_0_l || idtac. field. lra.
Qed.

Lemma gaussian_kernel_normalised_witness :
  let radius := Z.max 1 (Zfloor (3 * 0.8)) in
  let kernel := generateGaussianKernel1D 0.8 in
  length kernel = Z.to_nat (2 * radius + 1) /\
  Z.odd (Z.of_nat (length kernel)) = true /\
  (exists c : R, 0 < c /\
     forall i : Z, (- radius <= i <= radius)%Z ->
       kget kernel (i + radius) =
         Num (c * exp (- (IZR i * IZR i) / (2 * (0.8 * 0.8))))) /\
  (exists total : R,
     fold_left nadd kernel (Num 0) = Num total /\ Rabs (total - 1) <= 0.0001).
Proof.
  apply (gaussian_kernel_normalised 0.8). lra.
Defined.

(** ** Neural effects *)

(** C4: with [lateralInhibition = 0] the difference-of-Gaussians stage
    returns the pixel buffer it was given, so [applyNeuralEffects] is the
    noise stage alone. *)
Theorem lateral_inhibition_zero_is_noop
    (preset : AgePreset) (data : list Z) (width height : Z)
    (rand : nat -> number) :
  lateralInhibition preset = 0 ->
  lateralInhibitionStage preset data width height = data /\
  applyNeuralEffects data width height preset rand =
    photoreceptorNoiseStage preset rand data.
Proof.
  intros Hzero.
  assert (Hstage : forall d, lateralInhibitionStage preset d width height = d).
  { intros d. unfold lateralInhibitionStage. rewrite Hzero, ngt_Num.
    now rewrite Rltb_false by lra. }
  split; [apply Hstage |].
  unfold applyNeuralEffects. apply Hstage.
Qed.

Lemma lateral_inhibition_zero_is_noop_witness :
  lateralInhibitionStage unitPreset [10; 20; 30; 255]%Z 1 1 = [10; 20; 30; 255]%Z /\
  applyNeuralEffects [10; 20; 30; 255]%Z 1 1 unitPreset (fun _ => Num 0.5) =
    photoreceptorNoiseStage unitPreset (fun _ => Num 0.5) [10; 20; 30; 255]%Z.
Proof.
  apply (lateral_inhibition_zero_is_noop unitPreset [10; 20; 30; 255]%Z 1 1).
  reflexivity.
Defined.

(** ** Chromatic aberration *)

Lemma ToUint8Clamp_byte (b : Z) : (0 <= b <= 255)%Z -> ToUint8Clamp (ofZ b) = b.
Proof.
  intros [Hlo Hhi]. unfold ToUint8Clamp, ofZ.
  apply IZR_le in Hlo as Hlo', Hhi as Hhi'.
  destruct (Z.eq_dec b 0%Z) as [-> | Hb0]; [now rewrite Rleb_true by lra |].
  assert (0 < IZR b) by (apply IZR_lt; lia).
  rewrite Rleb_false by lra.
  destruct (Z.eq_dec b 255%Z) as [-> | Hb255]; [now rewrite Rleb_true by lra |].
  assert (IZR b < 255) by (apply IZR_lt; lia).
  rewrite Rleb_false by lra.
  rewrite ZfloorZ, Rltb_true by lra. reflexivity.
Qed.

(** Storing back what was read from the same place changes nothing. *)
Lemma aset_aget_same (a : list Z) (i : Z) : bytes a -> aset a i (aget a i) = a.
Proof.
  intros Ha. unfold aset, aget.
  destruct (i <? 0)%Z; [reflexivity |].
  destruct (a !! Z.to_nat i) as [b |] eqn:Hb.
  - apply list_insert_id. rewrite Hb. f_equal. symmetry. apply ToUint8Clamp_byte.
    unfold bytes in Ha. rewrite Forall_lookup in Ha. exact (Ha _ _ Hb).
  - apply list_insert_ge. now apply lookup_ge_None_1.
Qed.

Lemma Math_round_integer (z : Z) : Math_round (Num (IZR z)) = Num (IZR z).
Proof.
  cbn [Math_round]. do 2 f_equal. apply Zfloor_eq. lra.
Qed.

Lemma aget_num_integer (a : list Z) (z : Z) : aget_num a (Num (IZR z)) = aget a z.
Proof.
  unfold aget_num, is_integer. rewrite ZfloorZ. now rewrite Reqb_true.
Qed.

(** Sampling at a pixel's own position reads that pixel. *)
Lemma sampleNearest_own (src : list Z) (width height x y channel : Z) :
  (0 <= x < width)%Z -> (0 <= y < height)%Z ->
  sampleNearest src width height (Num (IZR x)) (Num (IZR y)) channel
  = aget src ((y * width + x) * 4 + channel).
Proof.
  intros Hx Hy. unfold sampleNearest.
  rewrite !Math_round_integer, !ofZ_Num, !nsub_Num, !Math_min_Num, !Math_max_Num.
  assert (Hclamp : forall v bound : Z, (0 <= v < bound)%Z ->
            Rmax 0 (Rmin (IZR bound - 1) (IZR v)) = IZR v).
  { intros v bound [Hv0 Hvb].
    apply IZR_le in Hv0 as Hv0'.
    assert (IZR v <= IZR bound - 1)
      by (rewrite <- minus_IZR; apply IZR_le; lia).
    rewrite Rmin_right, Rmax_right by lra. reflexivity. }
  rewrite (Hclamp x width Hx), (Hclamp y height Hy).
  rewrite !nmul_Num, !nadd_Num, nmul_Num, nadd_Num.
  rewrite <- mult_IZR, <- plus_IZR, <- mult_IZR, <- plus_IZR.
  apply aget_num_integer.
Qed.

Lemma radialNorm_finite (width height x y : Z) :
  (0 < width)%Z ->
  exists r : R,
    radialNorm (ofZ width / 2)%num (ofZ height / 2)%num
      (Math_hypot (ofZ width / 2)%num (ofZ height / 2)%num) x y = Num r.
Proof.
  intros Hw. apply IZR_lt in Hw as Hw'.
  unfold radialNorm. rewrite !ofZ_Num, !(ndiv_Num _ 2) by lra.
  rewrite !nsub_Num. cbn [Math_hypot].
  assert (0 < sqrt (IZR width / 2 * (IZR width / 2)
                    + IZR height / 2 * (IZR height / 2))).
  { apply sqrt_lt_R0. nra. }
  rewrite ndiv_Num by lra. rewrite Math_min_Num. eauto.
Qed.

Lemma unit_component_finite (d dx dy : R) :
  exists u : R,
    (if (Num dx === 0)%num && (Num dy === 0)%num then Num 0
     else (Num d / (Math_hypot (Num dx) (Num dy) || 1))%num) = Num u.
Proof.
  destruct ((Num dx === 0)%num && (Num dy === 0)%num); [eauto |].
  cbn [Math_hypot]. unfold or_else, truthy, Reqb.
  destruct (Req_dec_T (sqrt (dx * dx + dy * dy)) 0) as [Hz | Hnz]; cbn [negb].
  - rewrite ndiv_Num by lra. eauto.
  - rewrite ndiv_Num by exact Hnz. eauto.
Qed.

(** With zero strength a pixel of the chromatic aberration loop copies the
    three channels of the source pixel at the same position. *)
Lemma chromaticPixel_zero_strength (src : list Z) (width height x y : Z) :
  bytes src -> (0 <= x < width)%Z -> (0 <= y < height)%Z ->
  chromaticPixel src width height (Num 0) src x y = src.
Proof.
  intros Hsrc Hx Hy. unfold chromaticPixel.
  destruct (radialNorm_finite width height x y ltac:(lia)) as [r ->].
  unfold radialUnitX, radialUnitY.
  rewrite !ofZ_Num, !(ndiv_Num _ 2), !nsub_Num by lra.
  destruct (unit_component_finite
              (IZR x - IZR width / 2) (IZR x - IZR width / 2)
              (IZR y - IZR height / 2)) as [ux ->].
  destruct (unit_component_finite
              (IZR y - IZR height / 2) (IZR x - IZR width / 2)
              (IZR y - IZR height / 2)) as [uy ->].
  rewrite nneg_Num, !nmul_Num, !nadd_Num.
  replace (IZR x + ux * (- 0 * r)) with (IZR x) by ring.
  replace (IZR y + uy * (- 0 * r)) with (IZR y) by ring.
  replace (IZR x + ux * (0 * r)) with (IZR x) by ring.
  replace (IZR y + uy * (0 * r)) with (IZR y) by ring.
  rewrite !sampleNearest_own by assumption.
  rewrite Z.add_0_r.
  now rewrite !aset_aget_same.
Qed.

Lemma zrange_elem (lo hi z : Z) : z ∈ zrange lo hi -> (lo <= z <= hi)%Z.
Proof.
  unfold zrange. rewrite list_elem_of_fmap. intros (n & -> & Hn).
  apply elem_of_seq in Hn. lia.
Qed.

(** A loop whose body returns its state on every element returns it. *)
Lemma fold_left_fixed {A St} (body : St -> A -> St) (xs : list A) (s : St) :
  (forall x, x ∈ xs -> body s x = s) -> fold_left body xs s = s.
Proof.
  induction xs as [| x xs IH]; intros Hbody; [reflexivity |].
  cbn. rewrite Hbody by apply list_elem_of_here.
  apply IH. intros z Hz. apply Hbody. now apply list_elem_of_further.
Qed.

(** C9: at age 3 the strength [(3 - age) * 0.6] is 0 and the chromatic
    aberration step gives back the pixel buffer unchanged. *)
Theorem chromatic_aberration_identity_at_age3 (src : list Z) (width height : Z) :
  bytes src ->
  ((3 - ofZ 3) * 0.6)%num = Num 0 /\
  chromaticAberration src width height 3 = src.
Proof.
  intros Hsrc.
  assert (Hstrength : ((3 - ofZ 3) * 0.6)%num = Num 0).
  { rewrite ofZ_Num, nsub_Num, nmul_Num. f_equal. lra. }
  split; [exact Hstrength |].
  unfold chromaticAberration. rewrite Hstrength.
  apply fold_left_fixed. intros y Hy%zrange_elem.
  apply fold_left_fixed. intros x Hx%zrange_elem.
  apply chromaticPixel_zero_strength; [assumption | lia | lia].
Qed.

Lemma chromatic_aberration_identity_at_age3_witness :
  ((3 - ofZ 3) * 0.6)%num = Num 0 /\
  chromaticAberration
    [255; 0; 0; 255; 0; 255; 0; 255; 0; 0; 255; 255; 9; 8; 7; 255]%Z 2 2 3
  = [255; 0; 0; 255; 0; 255; 0; 255; 0; 0; 255; 255; 9; 8; 7; 255]%Z.
Proof.
  apply (chromatic_aberration_identity_at_age3
           [255; 0; 0; 255; 0; 255; 0; 255; 0; 0; 255; 255; 9; 8; 7; 255]%Z 2 2).
  unfold bytes. repeat constructor; lia.
Defined.

(** ** Numeric edge cases *)

(** Squaring with [Math.pow] is finite on every finite base. *)
Lemma Math_pow_square (q : R) : Math_pow (Num q) (Num 2) = Num (q * q).
Proof.
  unfold Math_pow. rewrite (Reqb_false 2 0) by lra.
  assert (Hsq : forall x, 0 < x -> Rpower x 2 = x * x).
  { intros x Hx. change 2 with (INR 2). rewrite Rpower_pow by exact Hx.
    cbn. ring. }
  destruct (Req_dec_T q 0) as [-> | Hq0].
  - rewrite Reqb_true, Rltb_true by lra. f_equal. ring.
  - rewrite Reqb_false by exact Hq0.
    destruct (Rlt_dec 0 q) as [Hpos | Hneg].
    + rewrite Rltb_true by exact Hpos. f_equal. now apply Hsq.
    + rewrite Rltb_false by lra.
      assert (Hint : is_integer 2 = true).
      { unfold is_integer. rewrite (ZfloorZ 2). now apply Reqb_true. }
      rewrite Hint, (ZfloorZ 2). cbn [Z.odd]. f_equal.
      rewrite Hsq by lra. ring.
Qed.

(** Where the two denominators of the sensitivity curve are not zero, the
    curve is the real-valued formula below. *)
Lemma getContrastSensitivity_formula (f : R) (p : AgePreset) :
  peakSensitivityCPD p <> 0 ->
  spatialCutoffCPD p <> peakSensitivityCPD p ->
  getContrastSensitivity (Num f) p =
    if Rltb (spatialCutoffCPD p) f then Num 0
    else
      Num (contrastSensitivityPeak p
           * Rmin 1 (f / peakSensitivityCPD p)
           * Rmax 0 (1 - ((f - peakSensitivityCPD p)
                          / (spatialCutoffCPD p - peakSensitivityCPD p))
                         * ((f - peakSensitivityCPD p)
                            / (spatialCutoffCPD p - peakSensitivityCPD p)))).
Proof.
  intros Hpeak Hcut. unfold getContrastSensitivity. rewrite ngt_Num.
  destruct (Rltb (spatialCutoffCPD p) f); [reflexivity |].
  rewrite !nsub_Num, (ndiv_Num f) by exact Hpeak.
  rewrite ndiv_Num by lra.
  rewrite Math_pow_square.
  now rewrite nsub_Num, Math_min_Num, Math_max_Num, !nmul_Num.
Qed.

(** With the cutoff equal to the peak, the sensitivity at that frequency is
    [0 / 0]: not a number. *)
Lemma getContrastSensitivity_equal_cutoff_is_NaN :
  getContrastSensitivity (Num 1) equalCutoffPreset = NaN /\
  ~ (forall (p : AgePreset) (f : R),
       0 <= f -> isFinite (getContrastSensitivity (Num f) p) = true).
Proof.
  assert (HNaN : getContrastSensitivity (Num 1) equalCutoffPreset = NaN).
  { unfold getContrastSensitivity, equalCutoffPreset.
    cbn [peakSensitivityCPD spatialCutoffCPD contrastSensitivityPeak].
    rewrite ngt_Num, Rltb_false by lra.
    rewrite !nsub_Num.
    assert (Hzz : (Num (1 - 1.0) / Num (1.0 - 1.0))%num = NaN).
    { unfold ndiv. now rewrite !Reqb_true by lra. }
    rewrite Hzz. unfold Math_pow. rewrite Reqb_false by lra.
    rewrite ndiv_Num, Math_min_Num, nmul_Num by lra.
    reflexivity. }
  split; [exact HNaN |].
  intros Hall. specialize (Hall equalCutoffPreset 1 ltac:(lra)).
  rewrite HNaN in Hall. discriminate.
Qed.

(** C7, as the code has it: the sensitivity curve is finite on every
    non-negative frequency for a preset whose peak frequency is not zero and
    whose cutoff differs from its peak; at the exact centre pixel the
    displacements of the red and the blue sample are zero; and for sigma > 0
    the sum that normalises the kernel is finite and at least 1. *)
Theorem numeric_edge_cases_are_finite :
  (forall (p : AgePreset) (f : R),
     peakSensitivityCPD p <> 0 ->
     spatialCutoffCPD p <> peakSensitivityCPD p ->
     0 <= f ->
     exists v : R, getContrastSensitivity (Num f) p = Num v) /\
  (forall (width height x y selectedAge : Z),
     (0 < width)%Z ->
     IZR x = IZR width / 2 -> IZR y = IZR height / 2 ->
     let cx := (ofZ width / 2)%num in
     let cy := (ofZ height / 2)%num in
     let strength := ((3 - ofZ selectedAge) * 0.6)%num in
     let rNorm := radialNorm cx cy (Math_hypot cx cy) x y in
     (radialUnitX cx cy x y * (- strength * rNorm))%num = Num 0 /\
     (radialUnitY cx cy x y * (- strength * rNorm))%num = Num 0 /\
     (radialUnitX cx cy x y * (strength * rNorm))%num = Num 0 /\
     (radialUnitY cx cy x y * (strength * rNorm))%num = Num 0) /\
  (forall sigmaPx : R,
     0 < sigmaPx ->
     exists sum : R,
       fold_left nadd
         (gaussianTaps (toZ (Math_max 1 (Math_floor (sigmaPx * 3)%num)))
            (2 * sigmaPx * sigmaPx)%num) (Num 0) = Num sum /\
       1 <= sum).
Proof.
  split; [| split].
  - intros p f Hpeak Hcut _.
    rewrite getContrastSensitivity_formula by assumption.
    destruct (Rltb (spatialCutoffCPD p) f); eauto.
  - intros width height x y selectedAge Hw Hx Hy cx cy strength rNorm.
    destruct (radialNorm_finite width height x y Hw) as [r Hr].
    assert (Hux : radialUnitX cx cy x y = Num 0).
    { unfold radialUnitX, cx, cy.
      rewrite !ofZ_Num, !(ndiv_Num _ 2), !nsub_Num, !strict_eq_Num by lra.
      now rewrite !Reqb_true by lra. }
    assert (Huy : radialUnitY cx cy x y = Num 0).
    { unfold radialUnitY, cx, cy.
      rewrite !ofZ_Num, !(ndiv_Num _ 2), !nsub_Num, !strict_eq_Num by lra.
      now rewrite !Reqb_true by lra. }
    unfold rNorm, cx, cy. rewrite Hr. fold cx cy. rewrite Hux, Huy.
    unfold strength. rewrite ofZ_Num, nsub_Num, !nmul_Num, nneg_Num, !nmul_Num.
    repeat split; f_equal; ring.
  - intros sigmaPx Hs. exists (tapSum sigmaPx).
    rewrite radius_of_sigma, gaussianTaps_real by exact Hs.
    rewrite fold_left_nadd_Num. split; [reflexivity |].
    now apply tapSum_ge_1.
Qed.

Lemma numeric_edge_cases_are_finite_witness :
  (exists v : R, getContrastSensitivity (Num 0.5) preset1 = Num v) /\
  (radialUnitX (ofZ 4 / 2)%num (ofZ 2 / 2)%num 2 1
   * (- ((3 - ofZ 1) * 0.6)
      * radialNorm (ofZ 4 / 2)%num (ofZ 2 / 2)%num
          (Math_hypot (ofZ 4 / 2)%num (ofZ 2 / 2)%num) 2 1))%num = Num 0 /\
  (exists sum : R,
     fold_left nadd
       (gaussianTaps (toZ (Math_max 1 (Math_floor (0.8 * 3)%num)))
          (2 * 0.8 * 0.8)%num) (Num 0) = Num sum /\
     1 <= sum).
Proof.
  destruct numeric_edge_cases_are_finite as (Hcsf & Hcentre & Hsum).
  split; [| split].
  - apply (Hcsf preset1 0.5); cbn; lra.
  - apply (Hcentre 4 2 2 1 1)%Z; [lia | lra | lra].
  - apply (Hsum 0.8). lra.
Defined.

(** ** Infant colour vision at age 1 *)

Lemma srgbToLinear_Num (v : R) : srgbToLinear (Num v) = Num (srgbToLinearR v).
Proof.
  unfold srgbToLinear, srgbToLinearR. rewrite nle_Num. unfold Rleb.
  destruct (Rle_dec v 0.04045) as [Hle | Hgt].
  - apply ndiv_Num. lra.
  - rewrite nadd_Num, ndiv_Num by lra.
    assert (0 < (v + 0.055) / 1.055) by (apply Rdiv_lt_0_compat; lra).
    unfold Math_pow. now rewrite !Reqb_false, Rltb_true by lra.
Qed.

Lemma clamp01_Num (v : R) : clamp01 (Num v) = Num (clamp01R v).
Proof.
  unfold clamp01, clamp01R. rewrite nlt_Num, ngt_Num.
  destruct (Rltb v 0); [reflexivity |]. now destruct (Rltb 1 v).
Qed.

Lemma aget_in_range (d : list Z) (j : nat) :
  (j < length d)%nat -> aget d (Z.of_nat j) = ofZ (d !!! j).
Proof.
  intros Hj. unfold aget.
  destruct (Z.ltb_spec (Z.of_nat j) 0) as [Hneg | _]; [lia |].
  rewrite Nat2Z.id.
  destruct (lookup_lt_is_Some_2 d j Hj) as [b Hb].
  rewrite Hb. now rewrite (list_lookup_total_correct _ _ _ Hb).
Qed.

Lemma aset_nat (d : list Z) (j : nat) (v : number) :
  aset d (Z.of_nat j) v = <[j := ToUint8Clamp v]> d.
Proof.
  unfold aset.
  destruct (Z.ltb_spec (Z.of_nat j) 0) as [Hneg | _]; [lia |].
  now rewrite Nat2Z.id.
Qed.

(** One iteration of the age 1 loop rewrites the three colour bytes of its
    pixel from the three it read. *)
Lemma infantColorPixel_age1 (p : AgePreset) (d : list Z) (k : nat) :
  (4 * k + 2 < length d)%nat ->
  infantColorPixel (Some p) 1 d (4 * Z.of_nat k)
  = Return (setPixel d k (infantBytes1 p (pixelAt d k))).
Proof.
  intros Hk. unfold infantColorPixel.
  replace (4 * Z.of_nat k)%Z with (Z.of_nat (4 * k)) by lia.
  replace (Z.of_nat (4 * k) + 1)%Z with (Z.of_nat (4 * k + 1)) by lia.
  replace (Z.of_nat (4 * k) + 2)%Z with (Z.of_nat (4 * k + 2)) by lia.
  rewrite !aget_in_range by lia.
  rewrite !ofZ_Num, !(ndiv_Num _ 255) by lra.
  rewrite !srgbToLinear_Num.
  cbn [Z.eqb Pos.eqb prop bind].
  rewrite !nmul_Num, !nadd_Num, !nmul_Num, !nadd_Num, !clamp01_Num.
  rewrite !aset_nat.
  unfold setPixel, pixelAt, infantBytes1, encodeByte, outR1, outG1, outB1,
    luminanceTerm, redTerm, linearOfByte.
  repeat f_equal; ring.
Qed.

Lemma setPixel_length (d : list Z) (k : nat) (rgb : Z * Z * Z) :
  length (setPixel d k rgb) = length d.
Proof. destruct rgb as [[r g] b]. unfold setPixel. now rewrite !length_insert. Qed.

Lemma setPixel_lookup_other (d : list Z) (k j : nat) (rgb : Z * Z * Z) :
  (j < 4 * k \/ 4 * k + 3 <= j)%nat -> setPixel d k rgb !! j = d !! j.
Proof.
  intros Hj. destruct rgb as [[r g] b]. unfold setPixel.
  rewrite !list_lookup_insert_ne by lia. reflexivity.
Qed.

Lemma pixelAt_ext (d d' : list Z) (k : nat) :
  (forall j, (4 * k <= j < 4 * k + 3)%nat -> d' !! j = d !! j) ->
  pixelAt d' k = pixelAt d k.
Proof.
  intros Hsame. unfold pixelAt.
  rewrite !list_lookup_total_alt, !Hsame by lia. reflexivity.
Qed.

Lemma setPixel_pixelAt (d : list Z) (k : nat) (rgb : Z * Z * Z) :
  (4 * k + 2 < length d)%nat -> pixelAt (setPixel d k rgb) k = rgb.
Proof.
  intros Hk. destruct rgb as [[r g] b]. unfold pixelAt, setPixel.
  rewrite !list_lookup_total_alt.
  rewrite list_lookup_insert_ne, list_lookup_insert_ne by lia.
  rewrite list_lookup_insert_eq by lia.
  rewrite list_lookup_insert_ne by lia.
  rewrite list_lookup_insert_eq by (rewrite !length_insert; lia).
  rewrite list_lookup_insert_eq by (rewrite !length_insert; lia).
  reflexivity.
Qed.

(** A pixel loop whose body rewrites the colour bytes of its own pixel from
    the bytes it finds there applies that rewriting to every pixel it visits
    and leaves every other byte, the alpha bytes included, as it was. *)
Lemma pixel_loop_in_place (F : Z * Z * Z -> Z * Z * Z)
    (body : list Z -> Z -> completion (list Z)) :
  (forall d k, (4 * k + 2 < length d)%nat ->
     body d (4 * Z.of_nat k)%Z = Return (setPixel d k (F (pixelAt d k)))) ->
  forall (m a : nat) (d : list Z),
    (4 * (a + m) <= length d)%nat ->
    exists out : list Z,
      forEach ((fun n => (4 * Z.of_nat n)%Z) <$> seq a m) body d = Return out /\
      length out = length d /\
      (forall k, (a <= k < a + m)%nat -> pixelAt out k = F (pixelAt d k)) /\
      (forall j, (j < 4 * a \/ 4 * (a + m) <= j \/ j mod 4 = 3)%nat ->
         out !! j = d !! j).
Proof.
  intros Hbody. induction m as [| m IH]; intros a d Hlen.
  - exists d. cbn. repeat split; try reflexivity. intros k Hk. lia.
  - cbn [seq fmap list_fmap forEach]. rewrite Hbody by lia. cbn [bind].
    set (d1 := setPixel d a (F (pixelAt d a))).
    assert (Hlen1 : length d1 = length d) by apply setPixel_length.
    destruct (IH (S a) d1 ltac:(lia)) as (out & Hrun & Hlenout & Hpix & Hrest).
    exists out. split; [exact Hrun |]. split; [lia |]. split.
    + intros k Hk. destruct (decide (k = a)) as [-> | Hne].
      * transitivity (pixelAt d1 a).
        -- apply pixelAt_ext. intros j Hj. apply Hrest. lia.
        -- apply setPixel_pixelAt. lia.
      * rewrite Hpix by lia. f_equal.
        apply pixelAt_ext. intros j Hj. apply setPixel_lookup_other. lia.
    + intros j Hj. destruct (decide (4 * a <= j < 4 * a + 3)%nat) as [Hin | Hout].
      * assert (j mod 4 = 3)%nat as Hmod by lia.
        assert (j = 4 * a + (j - 4 * a))%nat as Hsplit by lia.
        rewrite Hsplit, Nat.add_comm, Nat.mul_comm, Nat.Div0.mod_add in Hmod.
        rewrite Nat.mod_small in Hmod by lia. lia.
      * rewrite Hrest by lia. apply setPixel_lookup_other. lia.
Qed.

Lemma pixelIndices_whole (n : nat) :
  pixelIndices (4 * n) = (fun k => (4 * Z.of_nat k)%Z) <$> seq 0 n.
Proof.
  unfold pixelIndices. do 2 f_equal.
  rewrite (Nat.mul_comm 4 n), Nat.div_add_l by lia. cbn. lia.
Qed.

Lemma Rpower_one (y : R) : Rpower 1 y = 1.
Proof. unfold Rpower. rewrite ln_1, Rmult_0_r. apply exp_0. Qed.

Lemma linearOfByte_255 : linearOfByte 255 = 1.
Proof.
  unfold linearOfByte, srgbToLinearR. rewrite Rleb_false by lra.
  replace ((255 / 255 + 0.055) / 1.055) with 1 by lra. apply Rpower_one.
Qed.

Lemma linearOfByte_0 : linearOfByte 0 = 0.
Proof. unfold linearOfByte, srgbToLinearR. rewrite Rleb_true by lra. lra. Qed.

Lemma clamp01R_inside (v : R) : 0 <= v <= 1 -> clamp01R v = v.
Proof. intros Hv. unfold clamp01R. now rewrite !Rltb_false by lra. Qed.

Lemma solidFrame_length (n : nat) (px : list Z) :
  length (solidFrame n px) = (length px * n)%nat.
Proof. induction n as [| n IH]; cbn; [lia |]. rewrite length_app, IH. lia. Qed.

Lemma solidFrame_lookup (n k c : nat) (px : list Z) :
  length px = 4%nat -> (k < n)%nat -> (c < 4)%nat ->
  solidFrame n px !! (4 * k + c)%nat = px !! c.
Proof.
  intros Hpx. revert k. induction n as [| n IH]; intros k Hk Hc; [lia |].
  cbn [solidFrame]. destruct k as [| k].
  - rewrite Nat.mul_0_r, lookup_app_l by lia. reflexivity.
  - rewrite lookup_app_r by lia.
    replace (4 * S k + c - length px)%nat with (4 * k + c)%nat by lia.
    apply IH; lia.
Qed.

(** The age 1 loop on a whole buffer of [n] pixels. *)
Lemma infant_colour_age1_pixels (p : AgePreset) (data : list Z)
    (width height : Z) (n : nat) :
  length data = (4 * n)%nat ->
  exists out : list Z,
    applyInfantColorVision data width height (Some p) 1 = Return out /\
    length out = length data /\
    forall k, (k < n)%nat ->
      pixelAt out k = infantBytes1 p (pixelAt data k) /\
      out !! (4 * k + 3)%nat = data !! (4 * k + 3)%nat.
Proof.
  intros Hlen. unfold applyInfantColorVision. rewrite Hlen, pixelIndices_whole.
  destruct (pixel_loop_in_place (infantBytes1 p) (infantColorPixel (Some p) 1)
              (infantColorPixel_age1 p) n 0%nat data ltac:(lia))
    as (out & Hrun & Hlenout & Hpix & Hrest).
  exists out. split; [exact Hrun |]. split; [lia |].
  intros k Hk. split; [apply Hpix; lia |].
  apply Hrest. right. right.
  rewrite Nat.add_comm, Nat.mul_comm, Nat.Div0.mod_add. reflexivity.
Qed.

Lemma linearToSrgb_Num (v : R) :
  0.0031308 < v ->
  linearToSrgb (Num v) = Num (1.055 * Rpower v (1 / 2.4) - 0.055).
Proof.
  intros Hv. unfold linearToSrgb. rewrite nle_Num, Rleb_false by lra.
  rewrite (ndiv_Num 1 2.4) by lra.
  unfold Math_pow. rewrite !Reqb_false, Rltb_true by lra.
  now rewrite nmul_Num, nsub_Num.
Qed.

(** The encoding exponent is 5/12: the twelfth power of [v ^ (1 / 2.4)] is
    the fifth power of [v], which brackets it between rationals. *)
Lemma Rpower_encode_between (v a b : R) :
  0 < v -> 0 < a -> 0 < b ->
  a ^ 12 < v ^ 5 -> v ^ 5 < b ^ 12 ->
  a < Rpower v (1 / 2.4) < b.
Proof.
  intros Hv Ha Hb Hlo Hhi.
  set (y := Rpower v (1 / 2.4)).
  assert (Hy : 0 < y) by apply exp_pos.
  assert (Hpow : y ^ 12 = v ^ 5).
  { rewrite <- (Rpower_pow 12 y Hy), <- (Rpower_pow 5 v Hv).
    unfold y. rewrite Rpower_mult. f_equal. simpl INR. lra. }
  split.
  - destruct (Rlt_dec a y) as [Hlt | Hge]; [exact Hlt |].
    pose proof (pow_incr y a 12 ltac:(lra)). lra.
  - destruct (Rlt_dec y b) as [Hlt | Hge]; [exact Hlt |].
    pose proof (pow_incr b y 12 ltac:(lra)). lra.
Qed.

(** The byte a linear value is stored as, from a bracket of its encoding. *)
Lemma encodeByte_between (v a b : R) (z : Z) :
  0.0031308 < v -> 0 < a -> 0 < b ->
  a ^ 12 < v ^ 5 -> v ^ 5 < b ^ 12 ->
  IZR z - / 2 <= (1.055 * a - 0.055) * 255 ->
  (1.055 * b - 0.055) * 255 <= IZR z + / 2 ->
  (0 <= z <= 255)%Z ->
  encodeByte v = z.
Proof.
  intros Hv Ha Hb Hlo Hhi Hza Hzb Hz.
  destruct (Rpower_encode_between v a b ltac:(lra) Ha Hb Hlo Hhi) as [Hay Hyb].
  unfold encodeByte. rewrite linearToSrgb_Num by exact Hv.
  rewrite nmul_Num. cbn [Math_round].
  rewrite (Zfloor_eq z) by (split; nra).
  now apply ToUint8Clamp_byte.
Qed.

Lemma red_output_bytes :
  encodeByte 0.33071 = 156%Z /\
  encodeByte 0.072284 = 76%Z /\
  encodeByte 0.0271065 = 46%Z.
Proof.
  split; [| split].
  - apply (encodeByte_between _ 0.6302 0.6338); try lra; lia.
  - apply (encodeByte_between _ 0.333 0.336); try lra; lia.
  - apply (encodeByte_between _ 0.222 0.224); try lra; lia.
Qed.

Lemma red_pixel_linear :
  outR1 preset1 (linearOfByte 255) (linearOfByte 0) (linearOfByte 0) = 0.33071 /\
  outG1 preset1 (linearOfByte 255) (linearOfByte 0) (linearOfByte 0) = 0.072284 /\
  outB1 preset1 (linearOfByte 255) (linearOfByte 0) (linearOfByte 0) = 0.0271065.
Proof.
  rewrite linearOfByte_255, linearOfByte_0.
  unfold outR1, outG1, outB1, luminanceTerm, redTerm, preset1.
  cbn [coneSensitivity cone_L cone_M cone_S].
  rewrite !clamp01R_inside by lra.
  repeat split; lra.
Qed.

Lemma red_pixel_bytes : infantBytes1 preset1 (255, 0, 0)%Z = (156, 76, 46)%Z.
Proof.
  destruct red_pixel_linear as (HR & HG & HB).
  destruct red_output_bytes as (ER & EG & EB).
  unfold infantBytes1. now rewrite HR, HG, HB, ER, EG, EB.
Qed.

(** C2, first part as claimed, and for a solid saturated red frame the
    values the code produces: at age 1 every pixel gets, in linear light,
    [outR = luminance * 0.85 + (rL * coneL) * 0.25],
    [outG = luminance * 0.85 * coneM] and [outB = luminance * 0.85 * coneS],
    each clamped to [0, 1] and then encoded; the alpha byte is kept.  A
    solid saturated red frame under the 1 month preset comes out solid, with
    [outG = 0.072284], [outB = 0.0271065] and [outR = 0.33071], the sum of a
    luminance term of 0.18071 and a red term of 0.15. *)
Theorem infant_colour_age1 (p : AgePreset) (data : list Z) (width height : Z)
    (n : nat) :
  length data = (4 * n)%nat ->
  (exists out : list Z,
     applyInfantColorVision data width height (Some p) 1 = Return out /\
     length out = length data /\
     forall k, (k < n)%nat ->
       let rL := linearOfByte (data !!! (4 * k)%nat) in
       let gL := linearOfByte (data !!! (4 * k + 1)%nat) in
       let bL := linearOfByte (data !!! (4 * k + 2)%nat) in
       let luminance := 0.2126 * rL + 0.7152 * gL + 0.0722 * bL in
       out !!! (4 * k)%nat =
         encodeByte (clamp01R (luminance * 0.85
                               + rL * cone_L (coneSensitivity p) * 0.25)) /\
       out !!! (4 * k + 1)%nat =
         encodeByte (clamp01R (luminance * 0.85 * cone_M (coneSensitivity p))) /\
       out !!! (4 * k + 2)%nat =
         encodeByte (clamp01R (luminance * 0.85 * cone_S (coneSensitivity p))) /\
       out !! (4 * k + 3)%nat = data !! (4 * k + 3)%nat) /\
  applyInfantColorVision (solidFrame n [255; 0; 0; 255]%Z) width height
    (Some preset1) 1
  = Return (solidFrame n [156; 76; 46; 255]%Z) /\
  (let rL := linearOfByte 255 in
   let gL := linearOfByte 0 in
   let bL := linearOfByte 0 in
   outR1 preset1 rL gL bL = 0.33071 /\ encodeByte 0.33071 = 156%Z /\
   outG1 preset1 rL gL bL = 0.072284 /\ encodeByte 0.072284 = 76%Z /\
   outB1 preset1 rL gL bL = 0.0271065 /\ encodeByte 0.0271065 = 46%Z /\
   luminanceTerm rL gL bL = 0.18071 /\
   redTerm preset1 rL = 0.15 /\
   outR1 preset1 rL gL bL = luminanceTerm rL gL bL + redTerm preset1 rL).
Proof.
  intros Hlen. split; [| split].
  - destruct (infant_colour_age1_pixels p data width height n Hlen)
      as (out & Hrun & Hlenout & Hpix).
    exists out. split; [exact Hrun |]. split; [exact Hlenout |].
    intros k Hk. cbn zeta.
    destruct (Hpix k Hk) as [Hrgb Halpha].
    unfold pixelAt, infantBytes1 in Hrgb.
    pose proof (f_equal (fun t => fst (fst t)) Hrgb) as HR.
    pose proof (f_equal (fun t => snd (fst t)) Hrgb) as HG.
    pose proof (f_equal snd Hrgb) as HB.
    cbn [fst snd] in HR, HG, HB.
    rewrite HR, HG, HB. repeat split. exact Halpha.
  - set (red := [255; 0; 0; 255]%Z).
    set (shown := [156; 76; 46; 255]%Z).
    assert (Hredlen : length (solidFrame n red) = (4 * n)%nat)
      by apply solidFrame_length.
    destruct (infant_colour_age1_pixels preset1 (solidFrame n red)
                width height n Hredlen) as (out & Hrun & Hlenout & Hpix).
    rewrite Hrun. f_equal. apply list_eq. intros j.
    destruct (decide (j < 4 * n)%nat) as [Hj | Hj].
    + set (k := (j / 4)%nat). set (c := (j mod 4)%nat).
      assert (Hjk : j = (4 * k + c)%nat) by apply Nat.div_mod_eq.
      assert (Hc : (c < 4)%nat) by (apply Nat.mod_upper_bound; lia).
      assert (Hk : (k < n)%nat) by lia.
      destruct (Hpix k Hk) as [Hrgb Halpha].
      assert (Hin : pixelAt (solidFrame n red) k = (255, 0, 0)%Z).
      { unfold pixelAt. rewrite !list_lookup_total_alt.
        rewrite <- (Nat.add_0_r (4 * k)) at 1.
        rewrite !solidFrame_lookup by (reflexivity || lia). reflexivity. }
      rewrite Hin, red_pixel_bytes in Hrgb.
      unfold pixelAt in Hrgb.
      pose proof (f_equal (fun t => fst (fst t)) Hrgb) as HR.
      pose proof (f_equal (fun t => snd (fst t)) Hrgb) as HG.
      pose proof (f_equal snd Hrgb) as HB.
      cbn [fst snd] in HR, HG, HB.
      rewrite Hjk.
      rewrite (solidFrame_lookup n k c shown) by (reflexivity || lia).
      destruct c as [| [| [| [| c]]]]; [| | | | lia].
      * rewrite Nat.add_0_r, list_lookup_lookup_total_lt by lia.
        now rewrite HR.
      * rewrite list_lookup_lookup_total_lt by lia. now rewrite HG.
      * rewrite list_lookup_lookup_total_lt by lia. now rewrite HB.
      * rewrite Halpha.
        now rewrite solidFrame_lookup by (reflexivity || lia).
    + rewrite !lookup_ge_None_2; [reflexivity | |].
      * rewrite solidFrame_length. cbn. lia.
      * lia.
  - destruct red_pixel_linear as (HR & HG & HB).
    destruct red_output_bytes as (ER & EG & EB).
    cbn zeta. rewrite HR, HG, HB.
    do 6 (split; [assumption || reflexivity |]).
    rewrite linearOfByte_255, linearOfByte_0.
    unfold luminanceTerm, redTerm, preset1. cbn [coneSensitivity cone_L].
    repeat split; lra.
Qed.

Lemma infant_colour_age1_witness :
  applyInfantColorVision (solidFrame 2 [255; 0; 0; 255]%Z) 2 1 (Some preset1) 1
  = Return (solidFrame 2 [156; 76; 46; 255]%Z).
Proof.
  destruct (infant_colour_age1 preset1 (solidFrame 2 [255; 0; 0; 255]%Z) 2 1 2
              eq_refl) as (_ & Hred & _).
  exact Hred.
Defined.

(** C2, second part as claimed, fails: a saturated red pixel under the
    1 month preset comes out as (156, 76, 46), and the red term, 0.15, is
    the smaller of the two summands of its red output; the luminance term
    is 0.18071. *)
Lemma red_output_not_dominated_by_red_term :
  infantColorPixel (Some preset1) 1 [255; 0; 0; 255]%Z 0
  = Return [156; 76; 46; 255]%Z /\
  encodeByte (clamp01R (luminanceTerm 1 0 0 + redTerm preset1 1)) = 156%Z /\
  redTerm preset1 1 = 0.15 /\
  luminanceTerm 1 0 0 = 0.18071 /\
  ~ (luminanceTerm 1 0 0 < redTerm preset1 1).
Proof.
  assert (Hterms : redTerm preset1 1 = 0.15 /\ luminanceTerm 1 0 0 = 0.18071).
  { unfold luminanceTerm, redTerm, preset1. cbn [coneSensitivity cone_L].
    split; lra. }
  destruct Hterms as [Hred Hlum].
  destruct red_output_bytes as (ER & _ & _).
  split; [| split; [| split; [exact Hred | split; [exact Hlum | lra]]]].
  - pose proof (infantColorPixel_age1 preset1 [255; 0; 0; 255]%Z 0) as Hstep.
    change (4 * Z.of_nat 0)%Z with 0%Z in Hstep. rewrite Hstep by (cbn; lia).
    unfold pixelAt. cbn [lookup_total list_lookup_total Nat.mul Nat.add].
    rewrite red_pixel_bytes. reflexivity.
  - rewrite Hred, Hlum, clamp01R_inside by lra.
    replace (0.18071 + 0.15) with 0.33071 by lra. exact ER.
Qed.

(** ** Peripheral vignette *)

Lemma peripheralGradient_finite (w h : R) (p : AgePreset) :
  peripheralGradient (Num w) (Num h) p =
    {| gx0 := Num (w / 2); gy0 := Num (h / 2);
       gr0 := Num (innerRadius w h p);
       gx1 := Num (w / 2); gy1 := Num (h / 2);
       gr1 := Num (outerRadius w h p);
       colorStops :=
         [ (Num 0, Num 1);
           (Num 0.5, Num (1 - peripheralSuppression p * 0.4));
           (Num 1, Num (1 - peripheralSuppression p)) ] |}.
Proof.
  unfold peripheralGradient. rewrite estimatePixelsPerDegree_formula.
  fold (pixelsPerDegreeR w h).
  rewrite !(ndiv_Num _ 2) by lra. cbn [Math_hypot].
  rewrite !nmul_Num, !Math_max_Num, !nmul_Num, !Math_max_Num, !nsub_Num.
  reflexivity.
Qed.

(** A 24 by 32 frame under the 1 month preset: one pixel per degree, a
    central-field radius of 10 pixels and a half-diagonal of 20. *)
Lemma small_frame_radii :
  pixelsPerDegreeR 24 32 = 1 /\
  centralRadiusPx 24 32 preset1 = 10 /\
  innerRadius 24 32 preset1 = 5 /\
  outerRadius 24 32 preset1 = 20.
Proof.
  assert (Hppd : pixelsPerDegreeR 24 32 = 1).
  { unfold pixelsPerDegreeR. apply Rmax_left.
    etransitivity; [apply Rmin_l |]. lra. }
  assert (Hcentral : centralRadiusPx 24 32 preset1 = 10).
  { unfold centralRadiusPx. rewrite Hppd. cbn [centralFieldRadiusDeg preset1].
    rewrite Rmax_right by lra. lra. }
  assert (Hdiag : halfDiagonal 24 32 = 20).
  { unfold halfDiagonal. replace (24 * 24 + 32 * 32) with (40 * 40) by lra.
    rewrite sqrt_square by lra. lra. }
  repeat split; try assumption.
  - unfold innerRadius. rewrite Hcentral, Rmax_right by lra. lra.
  - unfold outerRadius. rewrite Hcentral, Hdiag, Rmax_right by lra. reflexivity.
Qed.

Section Vignette.
Context `{Canvas2D}.

(** C5, what the code does where the claim fails: on a 24 by 32 canvas
    under the 1 month preset [applyPeripheralVision] asks the canvas for one
    fill, composite "multiply", with a gradient between the circles of radius
    5 and 20 about (12, 16) whose three stops, at offsets 0, 0.5 and 1, are
    all white, of alpha 1, 0.72 and 0.3; and for every preset the stops are
    white: the suppression reaches the canvas as the alpha of a white fill
    only. *)
Theorem vignette_fill_is_white (data : list Z) (p : AgePreset) :
  applyPeripheralVision data 24 32 (Some preset1)
  = Return
      (fillRectMultiply
         {| gx0 := Num 12; gy0 := Num 16; gr0 := Num 5;
            gx1 := Num 12; gy1 := Num 16; gr1 := Num 20;
            colorStops :=
              [ (Num 0, Num 1); (Num 0.5, Num 0.72); (Num 1, Num 0.3) ] |}
         24 32 data) /\
  Forall (fun st => stopRed st = 255%Z /\ stopGreen st = 255%Z
                    /\ stopBlue st = 255%Z)
    (peripheralColorStops p) /\
  (fun st => (stopOffset st, stopAlpha st)) <$> peripheralColorStops p
  = colorStops (peripheralGradient (ofZ 24) (ofZ 32) p).
Proof.
  destruct small_frame_radii as (Hppd & Hcentral & Hinner & Houter).
  split; [| split].
  - unfold applyPeripheralVision. cbn [prop bind]. do 2 f_equal.
    rewrite !ofZ_Num, peripheralGradient_finite, Hinner, Houter.
    cbn [peripheralSuppression preset1].
    f_equal; try (f_equal; lra).
    repeat (f_equal; try lra).
  - unfold peripheralColorStops. repeat constructor.
  - reflexivity.
Qed.

End Vignette.

(** ** The tick *)

Section Tick.
Context `{Canvas2D}.
Import App.

(** On a canvas with pixels, the colour loop throws on an [undefined]
    preset whatever the age. *)
Lemma applyInfantColorVision_undefined (data : list Z) (width height age : Z) :
  (0 < length data)%nat ->
  applyInfantColorVision data width height None age = ThrowTypeError.
Proof.
  intros Hlen. unfold applyInfantColorVision, pixelIndices.
  destruct ((length data + 3) / 4)%nat as [| m] eqn:Hdiv.
  - apply Nat.div_small_iff in Hdiv; lia.
  - cbn [seq fmap list_fmap forEach]. unfold infantColorPixel.
    destruct (age =? 1)%Z; [reflexivity |].
    destruct (age =? 2)%Z; reflexivity.
Qed.

(** C6: a tick that gets as far as drawing the camera frame ends, for an age
    that is not a key of the preset table, with the [TypeError] of reading a
    property of the [undefined] preset: no preset's processing is applied. *)
Theorem unknown_age_throws (s : AppState) (pixels frame : list Z)
    (video : VideoElement) :
  outputCtx s = Some pixels ->
  (0 < canvasWidth s)%Z -> (0 < canvasHeight s)%Z ->
  videoElement s = Some video ->
  (2 <= readyState video)%Z ->
  drawVideo (isMirrored s) (canvasWidth s) (canvasHeight s) (currentFrame video)
    = Some frame ->
  selectedAge s <> 1%Z -> selectedAge s <> 2%Z -> selectedAge s <> 3%Z ->
  AGE_PRESETS !! selectedAge s = None /\
  processFrame s = ThrowTypeError.
Proof.
  intros Hctx Hw Hh Hvideo Hready Hdraw H1 H2 H3.
  pose proof (AGE_PRESETS_unknown _ H1 H2 H3) as Hnone.
  split; [exact Hnone |].
  unfold processFrame. rewrite Hctx.
  destruct (Z.leb_spec (canvasWidth s) 0) as [Hbad | _]; [lia |].
  destruct (Z.leb_spec (canvasHeight s) 0) as [Hbad | _]; [lia |].
  cbn [orb]. rewrite Hvideo.
  destruct (Z.ltb_spec (readyState video) 2) as [Hbad | _]; [lia |].
  rewrite Hdraw, Hnone.
  destruct (0 <? Z.max 0 ((4 - selectedAge s) * 2))%Z; [reflexivity |].
  cbn [bind]. rewrite applyInfantColorVision_undefined; [reflexivity |].
  rewrite (drawVideo_length _ _ _ _ _ Hdraw).
  assert (0 < 4 * canvasWidth s * canvasHeight s)%Z by nia. lia.
Qed.

End Tick.

Lemma unknown_age_throws_witness :
  App.processFrame
    {| App.outputCtx := Some [0; 0; 0; 255]%Z;
       App.canvasWidth := 1; App.canvasHeight := 1;
       App.videoElement :=
         Some {| App.readyState := 4;
                 App.currentFrame := [200; 100; 50; 255]%Z |};
       App.selectedAge := 7;
       App.isMirrored := true;
       App.enablePeripheralBlend := true;
       App.frameCount := 0 |}
  = ThrowTypeError.
Proof.
  apply (unknown_age_throws (H := plainCanvas) _
           [0; 0; 0; 255]%Z [200; 100; 50; 255]%Z
           (@App.Build_VideoElement plainCanvas 4 [200; 100; 50; 255]%Z)).
  - reflexivity.
  - cbn. lia.
  - cbn. lia.
  - reflexivity.
  - cbn. lia.
  - reflexivity.
  - cbn. lia.
  - cbn. lia.
  - cbn. lia.
Defined.

(** * Further properties of the code *)

(** ** Angles *)

(** Without rounding the two conversions undo each other. *)
Lemma degToRad_radToDeg_exact (a : R) :
  radToDeg (degToRad (Num a)) = Num a /\ degToRad (radToDeg (Num a)) = Num a.
Proof.
  pose proof PI_RGT_0 as HPI.
  unfold radToDeg, degToRad, Math_PI. split.
  - rewrite nmul_Num, (ndiv_Num _ 180), nmul_Num, (ndiv_Num _ PI) by lra.
    f_equal. field. lra.
  - rewrite nmul_Num, (ndiv_Num _ PI), nmul_Num, (ndiv_Num _ 180) by lra.
    f_equal. field. lra.
Qed.

Lemma nearly_refl (x : R) : nearly x x.
Proof.
  unfold nearly. rewrite Rminus_diag, Rabs_R0.
  apply Rmult_le_pos; [lra |].
  apply Rle_trans with 1; [lra | apply Rmax_l].
Qed.

(** Degrees to radians and back, and radians to degrees and back, give
    every finite angle back to within one part in 10^9 (of the angle, or
    of 1 for a smaller one): each conversion is the inverse of the other up
    to the rounding of the four operations. *)
Theorem deg_rad_round_trip (a : R) :
  exists d r : R,
    radToDeg (degToRad (Num a)) = Num d /\
    degToRad (radToDeg (Num a)) = Num r /\
    nearly d a /\ nearly r a.
Proof.
  destruct (degToRad_radToDeg_exact a) as [Hd Hr].
  exists a, a. repeat split; try assumption; apply nearly_refl.
Qed.

(** ** Transfer functions *)

Lemma linearToSrgb_low (x : R) :
  x <= 0.0031308 -> linearToSrgb (Num x) = Num (12.92 * x).
Proof.
  intros Hx. unfold linearToSrgb. rewrite nle_Num, Rleb_true by exact Hx.
  apply nmul_Num.
Qed.

(** Above the sRGB threshold the decoded value is above the linear one. *)
Lemma srgbToLinearR_high (v : R) :
  0.04045 < v ->
  srgbToLinearR v = Rpower ((v + 0.055) / 1.055) 2.4 /\
  0.0031308 < srgbToLinearR v.
Proof.
  intros Hv. unfold srgbToLinearR. rewrite Rleb_false by exact Hv.
  split; [reflexivity |].
  set (x := (v + 0.055) / 1.055).
  assert (Hx : (0.04045 + 0.055) / 1.055 <= x) by (unfold x; lra).
  assert (Hx0 : 0 < x) by lra.
  set (y := Rpower x 2.4).
  assert (Hy : 0 < y) by apply exp_pos.
  assert (Hpow : y ^ 5 = x ^ 12).
  { rewrite <- (Rpower_pow 5 y Hy), <- (Rpower_pow 12 x Hx0).
    unfold y. rewrite Rpower_mult. f_equal. simpl INR. lra. }
  pose proof (pow_incr ((0.04045 + 0.055) / 1.055) x 12 ltac:(lra)) as Hmono.
  assert (Hc : 0.0031308 ^ 5 < ((0.04045 + 0.055) / 1.055) ^ 12) by lra.
  destruct (Rlt_dec 0.0031308 y) as [Hlt | Hge]; [exact Hlt |].
  pose proof (pow_incr y 0.0031308 5 ltac:(lra)). lra.
Qed.

Lemma srgb_decode_encode_round_trip_aux (v : R) :
  v <= 0.0404499 \/ 0.04045 < v ->
  linearToSrgb (srgbToLinear (Num v)) = Num v.
Proof.
  intros Hv. rewrite srgbToLinear_Num.
  destruct Hv as [Hlow | Hhigh].
  - unfold srgbToLinearR. rewrite Rleb_true by lra.
    rewrite linearToSrgb_low by lra. f_equal. lra.
  - destruct (srgbToLinearR_high v Hhigh) as [Heq Hgt].
    rewrite linearToSrgb_Num by exact Hgt. rewrite Heq.
    rewrite Rpower_mult.
    replace (2.4 * (1 / 2.4)) with 1 by lra.
    rewrite Rpower_1 by (apply Rdiv_lt_0_compat; lra).
    f_equal. lra.
Qed.

(** Decoding an sRGB value and encoding it again gives the value back to
    within one part in 10^9, outside the sliver (0.0404499, 0.04045] where
    the two thresholds of the transfer functions do not meet. *)
Theorem srgb_decode_encode_round_trip (v : R) :
  v <= 0.0404499 \/ 0.04045 < v ->
  exists r : R, linearToSrgb (srgbToLinear (Num v)) = Num r /\ nearly r v.
Proof.
  intros Hv. exists v.
  split; [now apply srgb_decode_encode_round_trip_aux | apply nearly_refl].
Qed.

Lemma srgb_decode_encode_round_trip_witness :
  exists r : R, linearToSrgb (srgbToLinear (Num 0.5)) = Num r /\ nearly r 0.5.
Proof. apply srgb_decode_encode_round_trip. right. lra. Defined.

Lemma srgb_encode_decode_exact (x : R) :
  x <= 0.0031308 \/ 0.0031309 <= x ->
  srgbToLinear (linearToSrgb (Num x)) = Num x.
Proof.
  intros [Hlow | Hhigh].
  - rewrite linearToSrgb_low, srgbToLinear_Num by exact Hlow.
    unfold srgbToLinearR. rewrite Rleb_true by lra. f_equal. lra.
  - rewrite linearToSrgb_Num, srgbToLinear_Num by lra.
    assert (Hx : 0 < x) by lra.
    set (y := Rpower x (1 / 2.4)).
    assert (Hy : 0 < y) by apply exp_pos.
    assert (Hpow : y ^ 12 = x ^ 5).
    { rewrite <- (Rpower_pow 12 y Hy), <- (Rpower_pow 5 x Hx).
      unfold y. rewrite Rpower_mult. f_equal. simpl INR. lra. }
    assert (Hybig : (0.04045 + 0.055) / 1.055 < y).
    { destruct (Rlt_dec ((0.04045 + 0.055) / 1.055) y) as [Hlt | Hge];
        [exact Hlt |].
      pose proof (pow_incr y ((0.04045 + 0.055) / 1.055) 12 ltac:(lra)).
      pose proof (pow_incr 0.0031309 x 5 ltac:(lra)). lra. }
    unfold srgbToLinearR. rewrite Rleb_false by lra.
    replace ((1.055 * y - 0.055 + 0.055) / 1.055) with y by lra.
    unfold y. rewrite Rpower_mult.
    replace (1 / 2.4 * 2.4) with 1 by lra.
    now rewrite Rpower_1.
Qed.

(** Encoding a linear value and decoding it again gives the value back to
    within one part in 10^9, outside the sliver (0.0031308, 0.0031309). *)
Theorem srgb_encode_decode_round_trip (x : R) :
  x <= 0.0031308 \/ 0.0031309 <= x ->
  exists r : R, srgbToLinear (linearToSrgb (Num x)) = Num r /\ nearly r x.
Proof.
  intros Hx. exists x.
  split; [now apply srgb_encode_decode_exact | apply nearly_refl].
Qed.

Lemma srgb_encode_decode_round_trip_witness :
  exists r : R, srgbToLinear (linearToSrgb (Num 0.2)) = Num r /\ nearly r 0.2.
Proof. apply srgb_encode_decode_round_trip. right. lra. Defined.

(** A byte is one of the integers 0 to 255, so its sRGB value is never in
    the sliver between the thresholds. *)
Lemma byte_not_in_sliver (b : Z) :
  (0 <= b <= 255)%Z -> IZR b / 255 <= 0.0404499 \/ 0.04045 < IZR b / 255.
Proof.
  intros [Hlo Hhi].
  destruct (Z_le_gt_dec b 10) as [Hsmall | Hbig].
  - left. apply IZR_le in Hsmall. lra.
  - right. assert (Hb : (11 <= b)%Z) by lia. apply IZR_le in Hb. lra.
Qed.

(** Every byte survives decoding to linear light and encoding back. *)
Lemma encodeByte_linearOfByte (b : Z) :
  (0 <= b <= 255)%Z -> encodeByte (linearOfByte b) = b.
Proof.
  intros Hb. unfold encodeByte, linearOfByte.
  rewrite <- srgbToLinear_Num.
  rewrite srgb_decode_encode_round_trip_aux by now apply byte_not_in_sliver.
  rewrite nmul_Num.
  replace (IZR b / 255 * 255) with (IZR b) by lra.
  rewrite Math_round_integer. now apply ToUint8Clamp_byte.
Qed.

(** [clamp01] is idempotent and puts every number but [NaN] into [0, 1];
    [NaN] passes through it unchanged. *)
Theorem clamp01_range (a : number) :
  clamp01 (clamp01 a) = clamp01 a /\
  (a <> NaN -> exists r : R, clamp01 a = Num r /\ 0 <= r <= 1) /\
  clamp01 NaN = NaN.
Proof.
  assert (Hfin : forall v, exists r, clamp01 (Num v) = Num r /\ 0 <= r <= 1).
  { intros v. rewrite clamp01_Num. eexists. split; [reflexivity |].
    unfold clamp01R, Rltb.
    destruct (Rlt_dec v 0); [lra |]. destruct (Rlt_dec 1 v); lra. }
  assert (Hpos : clamp01 PosInf = Num 1) by reflexivity.
  assert (Hneg : clamp01 NegInf = Num 0) by reflexivity.
  split; [| split; [| reflexivity]].
  - destruct a as [v | | |]; [| | | reflexivity].
    + destruct (Hfin v) as (r & -> & Hr).
      rewrite clamp01_Num. f_equal. now apply clamp01R_inside.
    + rewrite Hpos, clamp01_Num. f_equal. apply clamp01R_inside. lra.
    + rewrite Hneg, clamp01_Num. f_equal. apply clamp01R_inside. lra.
  - intros Hnan. destruct a as [v | | |]; [apply Hfin | | | contradiction].
    + exists 1. split; [exact Hpos | lra].
    + exists 0. split; [exact Hneg | lra].
Qed.

(** Every byte survives the trip through linear light: decoded with
    [srgbToLinear], encoded with [linearToSrgb], scaled, rounded and stored,
    it is the byte it was. *)
Theorem byte_survives_linear_light (b : Z) :
  (0 <= b <= 255)%Z ->
  ToUint8Clamp
    (Math_round (linearToSrgb (srgbToLinear (ofZ b / 255)%num) * 255)%num)
  = b.
Proof.
  intros Hb. rewrite ofZ_Num, ndiv_Num by lra. rewrite srgbToLinear_Num.
  fold (linearOfByte b). now apply encodeByte_linearOfByte.
Qed.

Lemma byte_survives_linear_light_witness :
  ToUint8Clamp
    (Math_round (linearToSrgb (srgbToLinear (ofZ 200 / 255)%num) * 255)%num)
  = 200%Z.
Proof.
  apply byte_survives_linear_light. lia.
Defined.

(** ** Pixels per degree of a square frame *)

(** On a square frame the vertical field of view is the horizontal one, so
    the estimate is [max(1, side / 60)]; and on every frame it is at most
    [max(1, width / 60)]. *)
Theorem pixels_per_degree_square (w h : R) :
  (0 < w ->
   estimatePixelsPerDegree (Num w) (Num w) DEFAULT_CAMERA_HFOV_DEG
   = Num (Rmax 1 (w / 60))) /\
  (exists ppd : R,
     estimatePixelsPerDegree (Num w) (Num h) DEFAULT_CAMERA_HFOV_DEG = Num ppd /\
     ppd <= Rmax 1 (w / 60)).
Proof.
  pose proof PI_RGT_0 as HPI. split.
  - intros Hw. rewrite estimatePixelsPerDegree_formula. f_equal.
    assert (Haspect : aspectOf w w = 1).
    { unfold aspectOf. rewrite !Rltb_true by exact Hw. cbn [andb].
      field. lra. }
    assert (Hv : verticalFovDeg 1 = 60).
    { unfold verticalFovDeg. rewrite Rdiv_1_r, atan_tan by lra.
      field. lra. }
    rewrite Haspect, Hv, Rmin_left by lra. reflexivity.
  - eexists. split; [apply estimatePixelsPerDegree_formula |].
    apply Rmax_case; [apply Rmax_l |].
    etransitivity; [apply Rmin_l | apply Rmax_r].
Qed.

Lemma pixels_per_degree_square_witness :
  estimatePixelsPerDegree (Num 600) (Num 600) DEFAULT_CAMERA_HFOV_DEG
  = Num (Rmax 1 (600 / 60)).
Proof.
  destruct (pixels_per_degree_square 600 600) as [Hsquare _].
  apply Hsquare. lra.
Defined.

(** ** The contrast sensitivity curve *)

(** For a preset with [0 < peak < cutoff] and a non-negative peak
    sensitivity, the curve stays between 0 and the peak sensitivity, reaches
    it at the peak frequency, and is 0 at frequency 0, at the cutoff and
    above the cutoff. *)
Theorem contrast_sensitivity_shape (p : AgePreset) (f : R) :
  0 < peakSensitivityCPD p < spatialCutoffCPD p ->
  0 <= contrastSensitivityPeak p ->
  0 <= f ->
  (exists v : R,
     getContrastSensitivity (Num f) p = Num v /\
     0 <= v <= contrastSensitivityPeak p) /\
  getContrastSensitivity (Num (peakSensitivityCPD p)) p
    = Num (contrastSensitivityPeak p) /\
  getContrastSensitivity (Num 0) p = Num 0 /\
  getContrastSensitivity (Num (spatialCutoffCPD p)) p = Num 0 /\
  (spatialCutoffCPD p < f -> getContrastSensitivity (Num f) p = Num 0).
Proof.
  intros [Hpeak Hcut] Hmax Hf.
  set (peak := peakSensitivityCPD p) in *.
  set (cutoff := spatialCutoffCPD p) in *.
  set (top := contrastSensitivityPeak p) in *.
  assert (Hform := fun g => getContrastSensitivity_formula g p
                     ltac:(fold peak; lra) ltac:(fold peak cutoff; lra)).
  fold peak cutoff top in Hform.
  split; [| split; [| split; [| split]]].
  - rewrite Hform. unfold Rltb. destruct (Rlt_dec cutoff f) as [Habove | Hbelow].
    + exists 0. split; [reflexivity | lra].
    + eexists. split; [reflexivity |].
      set (q := (f - peak) / (cutoff - peak)).
      assert (Hlow : 0 <= Rmin 1 (f / peak) <= 1).
      { split; [| apply Rmin_l].
        apply Rmin_glb; [lra |].
        apply Rmult_le_pos; [lra |]. apply Rlt_le, Rinv_0_lt_compat. lra. }
      assert (Hhigh : 0 <= Rmax 0 (1 - q * q) <= 1).
      { split; [apply Rmax_l |]. apply Rmax_lub; nra. }
      set (lo := Rmin 1 (f / peak)) in *.
      set (hi := Rmax 0 (1 - q * q)) in *.
      assert (0 <= top * lo <= top) by nra.
      split; nra.
  - rewrite Hform, Rltb_false by lra. f_equal.
    replace (peak / peak) with 1 by (field; lra).
    replace ((peak - peak) / (cutoff - peak)) with 0 by (field; lra).
    rewrite Rmin_left, Rmax_right by lra. lra.
  - rewrite Hform, Rltb_false by lra. f_equal.
    replace (0 / peak) with 0 by (field; lra).
    rewrite Rmin_right by lra. lra.
  - rewrite Hform, Rltb_false by lra. f_equal.
    replace ((cutoff - peak) / (cutoff - peak)) with 1 by (field; lra).
    rewrite Rmax_left by lra. lra.
  - intros Habove. rewrite Hform, Rltb_true by exact Habove. reflexivity.
Qed.

Lemma contrast_sensitivity_shape_witness :
  getContrastSensitivity (Num (peakSensitivityCPD preset2)) preset2
  = Num (contrastSensitivityPeak preset2).
Proof.
  destruct (contrast_sensitivity_shape preset2 0.7) as (_ & Hpeak & _);
    cbn; try lra.
  exact Hpeak.
Defined.

(** ** Shape of the Gaussian kernel *)

Lemma kernel_tap_value (sigmaPx : R) (i : Z) :
  0 < sigmaPx ->
  (- kernelRadius sigmaPx <= i <= kernelRadius sigmaPx)%Z ->
  kget (generateGaussianKernel1D sigmaPx) (i + kernelRadius sigmaPx)
  = Num (gaussianTap sigmaPx i / tapSum sigmaPx).
Proof.
  intros Hs Hi. unfold kget.
  rewrite generateGaussianKernel1D_real by exact Hs.
  destruct (Z.ltb_spec (i + kernelRadius sigmaPx) 0) as [Hneg | _]; [lia |].
  unfold realTaps. rewrite !list_lookup_fmap.
  rewrite zrange_lookup by lia. cbn [fmap option_fmap option_map].
  do 3 f_equal. lia.
Qed.

(** For a sigma of at least 0.5, the least any caller passes, the kernel is
    symmetric about its centre, every weight is positive, and no weight
    exceeds the centre one. *)
Theorem gaussian_kernel_symmetric (sigmaPx : R) (i : Z) :
  0.5 <= sigmaPx ->
  let radius := Z.max 1 (Zfloor (sigmaPx * 3)) in
  let kernel := generateGaussianKernel1D sigmaPx in
  (0 <= i <= radius)%Z ->
  exists weight centre : R,
    kget kernel (radius + i) = Num weight /\
    kget kernel (radius - i) = Num weight /\
    kget kernel radius = Num centre /\
    0 < weight <= centre.
Proof.
  intros Hhalf radius kernel Hi.
  assert (Hs : 0 < sigmaPx) by lra.
  change radius with (kernelRadius sigmaPx) in *.
  pose proof (tapSum_ge_1 _ Hs) as Hsum.
  exists (gaussianTap sigmaPx i / tapSum sigmaPx),
         (gaussianTap sigmaPx 0 / tapSum sigmaPx).
  assert (Hpos : forall j, 0 < gaussianTap sigmaPx j) by (intros j; apply exp_pos).
  assert (Hcentre : gaussianTap sigmaPx i <= gaussianTap sigmaPx 0).
  { unfold gaussianTap.
    destruct (Z.eq_dec i 0%Z) as [-> | Hne]; [lra |].
    apply Rlt_le, exp_increasing.
    assert (Hi1 : 1 <= IZR i) by (apply IZR_le; lia).
    assert (0 < 2 * sigmaPx * sigmaPx) by nra.
    replace (- (0 * 0) / (2 * sigmaPx * sigmaPx)) with 0
      by (unfold Rdiv; ring).
    apply Rmult_lt_reg_r with (2 * sigmaPx * sigmaPx); [assumption |].
    unfold Rdiv. rewrite Rmult_assoc, Rinv_l by lra. nra. }
  unfold kernel. repeat split.
  - rewrite Z.add_comm. apply kernel_tap_value; [exact Hs | lia].
  - replace (kernelRadius sigmaPx - i)%Z with (- i + kernelRadius sigmaPx)%Z
      by lia.
    rewrite kernel_tap_value by (exact Hs || lia).
    unfold gaussianTap. rewrite opp_IZR.
    replace (- IZR i * - IZR i) with (IZR i * IZR i) by ring. reflexivity.
  - pose proof (kernel_tap_value sigmaPx 0 Hs) as Hzero.
    rewrite Z.add_0_l in Hzero. apply Hzero. unfold kernelRadius. lia.
  - apply Rdiv_lt_0_compat; [apply Hpos | lra].
  - apply Rmult_le_compat_r; [| exact Hcentre].
    apply Rlt_le, Rinv_0_lt_compat. lra.
Qed.

Lemma gaussian_kernel_symmetric_witness :
  let radius := Z.max 1 (Zfloor (2 * 3)) in
  let kernel := generateGaussianKernel1D 2 in
  exists weight centre : R,
    kget kernel (radius + 1) = Num weight /\
    kget kernel (radius - 1) = Num weight /\
    kget kernel radius = Num centre /\
    0 < weight <= centre.
Proof.
  apply (gaussian_kernel_symmetric 2 1); [lra | lia].
Defined.

(** ** Blurring a frame of one colour *)

Lemma zrange_nil (lo hi : Z) : (hi < lo)%Z -> zrange lo hi = [].
Proof.
  intros Hlt. unfold zrange.
  replace (Z.to_nat (hi - lo + 1)) with 0%nat by lia. reflexivity.
Qed.

Lemma zrange_cons (lo hi : Z) :
  (lo <= hi)%Z -> zrange lo hi = lo :: zrange (lo + 1) hi.
Proof.
  intros Hle. unfold zrange.
  replace (Z.to_nat (hi - lo + 1)) with (S (Z.to_nat (hi - (lo + 1) + 1)))
    by lia.
  cbn [seq fmap list_fmap]. f_equal; [lia |].
  rewrite <- fmap_S_seq, <- list_fmap_compose.
  apply list_fmap_ext. intros _ n _. cbn. lia.
Qed.

(** Invariants of a counting loop. *)
Lemma fold_zrange_invariant {St} (P : Z -> St -> Prop)
    (body : St -> Z -> St) (lo hi : Z) (s : St) :
  (lo <= hi + 1)%Z ->
  P lo s ->
  (forall i t, (lo <= i <= hi)%Z -> P i t -> P (i + 1)%Z (body t i)) ->
  P (hi + 1)%Z (fold_left body (zrange lo hi) s).
Proof.
  intros Hle Hinit Hstep.
  remember (Z.to_nat (hi + 1 - lo)) as m eqn:Hm.
  revert lo s Hle Hinit Hstep Hm.
  induction m as [| m IH]; intros lo s Hle Hinit Hstep Hm.
  - rewrite zrange_nil by lia. cbn.
    replace (hi + 1)%Z with lo by lia. exact Hinit.
  - rewrite zrange_cons by lia. cbn [fold_left].
    apply IH; [lia | apply Hstep; [lia | exact Hinit] | | lia].
    intros i t Hi. apply Hstep. lia.
Qed.

Lemma solidFrame_snoc (n : nat) (px : list Z) :
  solidFrame n px ++ px = px ++ solidFrame n px.
Proof.
  induction n as [| n IH]; cbn [solidFrame].
  - now rewrite app_nil_r.
  - now rewrite <- app_assoc, IH.
Qed.

Lemma aget_solid (n : nat) (k c : Z) (px : list Z) :
  length px = 4%nat -> (0 <= k < Z.of_nat n)%Z -> (0 <= c < 4)%Z ->
  aget (solidFrame n px) (k * 4 + c)
  = match px !! Z.to_nat c with Some v => ofZ v | None => NaN end.
Proof.
  intros Hpx Hk Hc. unfold aget.
  destruct (Z.ltb_spec (k * 4 + c) 0) as [Hneg | _]; [lia |].
  replace (Z.to_nat (k * 4 + c)) with (4 * Z.to_nat k + Z.to_nat c)%nat by lia.
  rewrite solidFrame_lookup by (assumption || lia). reflexivity.
Qed.

Lemma aset_in_tail (l1 l2 : list Z) (i : Z) (c : nat) (v : number) :
  i = (Z.of_nat (length l1) + Z.of_nat c)%Z ->
  aset (l1 ++ l2) i v = l1 ++ <[c := ToUint8Clamp v]> l2.
Proof.
  intros ->. unfold aset.
  destruct (Z.ltb_spec (Z.of_nat (length l1) + Z.of_nat c) 0) as [Hneg | _];
    [lia |].
  replace (Z.to_nat (Z.of_nat (length l1) + Z.of_nat c))
    with (length l1 + c)%nat by lia.
  apply insert_app_r.
Qed.

(** Writing the four bytes of pixel [k] extends the written part by one. *)
Lemma write_pixel_partlyFilled (total k : Z) (vr vg vb va : number) :
  (0 <= k < total)%Z ->
  let px := [ToUint8Clamp vr; ToUint8Clamp vg; ToUint8Clamp vb; ToUint8Clamp va] in
  aset (aset (aset (aset (partlyFilled total k px) (k * 4) vr)
                (k * 4 + 1) vg) (k * 4 + 2) vb) (k * 4 + 3) va
  = partlyFilled total (k + 1) px.
Proof.
  intros Hk px. unfold partlyFilled.
  replace (Z.to_nat (k + 1)) with (S (Z.to_nat k)) by lia.
  replace (4 * Z.to_nat (total - k))%nat
    with (4 + 4 * Z.to_nat (total - (k + 1)))%nat by lia.
  rewrite replicate_add. cbn [solidFrame].
  rewrite <- solidFrame_snoc, <- app_assoc.
  set (done := solidFrame (Z.to_nat k) px).
  assert (Hdone : length done = (4 * Z.to_nat k)%nat)
    by (unfold done; rewrite solidFrame_length; reflexivity).
  rewrite (aset_in_tail done _ (k * 4) 0) by lia.
  rewrite (aset_in_tail done _ (k * 4 + 1) 1) by lia.
  rewrite (aset_in_tail done _ (k * 4 + 2) 2) by lia.
  rewrite (aset_in_tail done _ (k * 4 + 3) 3) by lia.
  reflexivity.
Qed.

(** The accumulators of [applyKernelPixel] when every sample reads the same
    three channel values and every weight is finite. *)
Lemma accumulate_constant (r g b : R) (sample : Z -> number * number * number)
    (weight : Z -> number) (wf : Z -> R) (ks : list Z) (s0 : R) :
  (forall k, k ∈ ks -> sample k = (Num r, Num g, Num b)) ->
  (forall k, k ∈ ks -> weight k = Num (wf k)) ->
  let step (a : Accum) (k : Z) : Accum :=
    {| acc_r := (acc_r a + fst (fst (sample k)) * weight k)%num;
       acc_g := (acc_g a + snd (fst (sample k)) * weight k)%num;
       acc_b := (acc_b a + snd (sample k) * weight k)%num;
       acc_w := (acc_w a + weight k)%num |} in
  exists s : R,
    fold_left step ks
      {| acc_r := Num (r * s0); acc_g := Num (g * s0); acc_b := Num (b * s0);
         acc_w := Num s0 |}
    = {| acc_r := Num (r * s); acc_g := Num (g * s); acc_b := Num (b * s);
         acc_w := Num s |} /\
    s = fold_left (fun t k => t + wf k) ks s0.
Proof.
  intros Hsample Hweight step. revert s0.
  induction ks as [| k ks IH]; intros s0.
  - exists s0. split; reflexivity.
  - cbn [fold_left]. unfold step at 2. cbn [acc_r acc_g acc_b acc_w].
    rewrite Hsample, Hweight by apply list_elem_of_here.
    cbn [fst snd]. rewrite !nmul_Num, !nadd_Num.
    replace (r * s0 + r * wf k) with (r * (s0 + wf k)) by ring.
    replace (g * s0 + g * wf k) with (g * (s0 + wf k)) by ring.
    replace (b * s0 + b * wf k) with (b * (s0 + wf k)) by ring.
    apply IH; intros j Hj; [apply Hsample | apply Hweight];
      now apply list_elem_of_further.
Qed.

Lemma fold_left_add_pos (wf : Z -> R) (ks : list Z) (s0 : R) :
  (forall k, 0 < wf k) -> 0 <= s0 -> ks <> [] ->
  0 < fold_left (fun t k => t + wf k) ks s0.
Proof.
  intros Hpos. revert s0. induction ks as [| k ks IH]; intros s0 Hs0 Hne;
    [contradiction |].
  cbn [fold_left]. destruct ks as [| k' ks'].
  - cbn. specialize (Hpos k). lra.
  - apply IH; [specialize (Hpos k); lra | discriminate].
Qed.

Lemma generateGaussianKernel1D_half_length (sigmaPx : R) :
  0 < sigmaPx ->
  (Z.of_nat (length (generateGaussianKernel1D sigmaPx)) / 2)%Z
  = kernelRadius sigmaPx.
Proof.
  intros Hs. rewrite generateGaussianKernel1D_real by exact Hs.
  rewrite !length_fmap, realTaps_length.
  assert (1 <= kernelRadius sigmaPx)%Z by (unfold kernelRadius; lia).
  rewrite Z2Nat.id by lia.
  rewrite Z.add_comm, Z.mul_comm, Z.div_add by lia. reflexivity.
Qed.

(** On an input of one colour, a pixel of the convolution gets that colour
    and alpha 255, whatever the direction and wherever the kernel is
    clamped at the border. *)
Lemma applyKernelPixel_solid (sigmaPx : R) (r g b a : Z) (out : list Z)
    (width height x y : Z) (horizontal : bool) :
  0 < sigmaPx ->
  (0 <= x < width)%Z -> (0 <= y < height)%Z ->
  applyKernelPixel (solidFrame (Z.to_nat (width * height)) [r; g; b; a]) out
    width height x y (generateGaussianKernel1D sigmaPx) horizontal
  = aset (aset (aset (aset out ((y * width + x) * 4) (ofZ r))
                  ((y * width + x) * 4 + 1) (ofZ g))
            ((y * width + x) * 4 + 2) (ofZ b))
      ((y * width + x) * 4 + 3) 255.
Proof.
  intros Hs Hx Hy. unfold applyKernelPixel.
  rewrite generateGaussianKernel1D_half_length by exact Hs.
  set (input := solidFrame (Z.to_nat (width * height)) [r; g; b; a]).
  set (kr := kernelRadius sigmaPx).
  set (sx := fun k : Z => if horizontal
                          then Z.max 0 (Z.min (width - 1) (x + k)) else x).
  set (sy := fun k : Z => if horizontal
                          then y else Z.max 0 (Z.min (height - 1) (y + k))).
  set (sample := fun k : Z =>
         (aget input ((sy k * width + sx k) * 4),
          aget input ((sy k * width + sx k) * 4 + 1),
          aget input ((sy k * width + sx k) * 4 + 2))).
  set (weight := fun k : Z => kget (generateGaussianKernel1D sigmaPx) (k + kr)).
  set (wf := fun k : Z => gaussianTap sigmaPx k / tapSum sigmaPx).
  pose proof (tapSum_ge_1 _ Hs) as Hsum.
  assert (Hwpos : forall k, 0 < wf k).
  { intros k. unfold wf. apply Rdiv_lt_0_compat; [apply exp_pos | lra]. }
  assert (Hsample : forall k, k ∈ zrange (- kr) kr ->
            sample k = (Num (IZR r), Num (IZR g), Num (IZR b))).
  { intros k _. unfold sample.
    assert (Hin : (0 <= sy k * width + sx k
                   < Z.of_nat (Z.to_nat (width * height)))%Z).
    { unfold sx, sy. destruct horizontal; nia. }
    rewrite <- (Z.add_0_r ((sy k * width + sx k) * 4)) at 1.
    unfold input. rewrite !aget_solid by (reflexivity || lia || exact Hin).
    reflexivity. }
  assert (Hweight : forall k, k ∈ zrange (- kr) kr -> weight k = Num (wf k)).
  { intros k Hk%zrange_elem. unfold weight, wf, kr.
    now apply kernel_tap_value. }
  destruct (accumulate_constant (IZR r) (IZR g) (IZR b) sample weight wf
              (zrange (- kr) kr) 0 Hsample Hweight) as (s & Hfold & Hsval).
  assert (Hspos : 0 < s).
  { rewrite Hsval. apply fold_left_add_pos; [exact Hwpos | lra |].
    rewrite zrange_cons by (unfold kr, kernelRadius; lia). discriminate. }
  replace {| acc_r := Num (IZR r * 0); acc_g := Num (IZR g * 0);
             acc_b := Num (IZR b * 0); acc_w := Num 0 |}
    with {| acc_r := Num 0; acc_g := Num 0; acc_b := Num 0; acc_w := Num 0 |}
    in Hfold by (f_equal; f_equal; ring).
  cbn [fst snd] in Hfold.
  change (fold_left _ (zrange (- kr) kr) _) with
    (fold_left
       (fun (a0 : Accum) (k : Z) =>
          {| acc_r := (acc_r a0 + fst (fst (sample k)) * weight k)%num;
             acc_g := (acc_g a0 + snd (fst (sample k)) * weight k)%num;
             acc_b := (acc_b a0 + snd (sample k) * weight k)%num;
             acc_w := (acc_w a0 + weight k)%num |})
       (zrange (- kr) kr)
       {| acc_r := Num 0; acc_g := Num 0; acc_b := Num 0; acc_w := Num 0 |}).
  rewrite Hfold. cbn [acc_r acc_g acc_b acc_w].
  rewrite !ndiv_Num by lra.
  replace (IZR r * s / s) with (IZR r) by (field; lra).
  replace (IZR g * s / s) with (IZR g) by (field; lra).
  replace (IZR b * s / s) with (IZR b) by (field; lra).
  reflexivity.
Qed.

Lemma write_solid_pixel (total k r g b : Z) :
  (0 <= k < total)%Z ->
  (0 <= r <= 255)%Z -> (0 <= g <= 255)%Z -> (0 <= b <= 255)%Z ->
  aset (aset (aset (aset (partlyFilled total k [r; g; b; 255%Z]) (k * 4) (ofZ r))
                (k * 4 + 1) (ofZ g)) (k * 4 + 2) (ofZ b)) (k * 4 + 3) 255
  = partlyFilled total (k + 1) [r; g; b; 255%Z].
Proof.
  intros Hk Hr Hg Hb.
  pose proof (write_pixel_partlyFilled total k (ofZ r) (ofZ g) (ofZ b) 255 Hk)
    as Hwrite.
  cbn zeta in Hwrite.
  change (Num 255) with (ofZ 255) in Hwrite.
  rewrite !ToUint8Clamp_byte in Hwrite by lia.
  exact Hwrite.
Qed.

(** One pass of the separable blur over a frame of one colour gives the
    frame of that colour, with alpha 255. *)
Lemma convolvePass_solid (sigmaPx : R) (r g b a : Z) (width height : Z)
    (horizontal : bool) :
  0 < sigmaPx ->
  (0 < width)%Z -> (0 < height)%Z ->
  (0 <= r <= 255)%Z -> (0 <= g <= 255)%Z -> (0 <= b <= 255)%Z ->
  convolvePass (solidFrame (Z.to_nat (width * height)) [r; g; b; a])
    width height (generateGaussianKernel1D sigmaPx) horizontal
  = solidFrame (Z.to_nat (width * height)) [r; g; b; 255%Z].
Proof.
  intros Hs Hw Hh Hr Hg Hb. unfold convolvePass.
  assert (Htotal : (0 < width * height)%Z) by nia.
  assert (Hstart :
    replicate (length (solidFrame (Z.to_nat (width * height)) [r; g; b; a])) 0%Z
    = partlyFilled (width * height) 0 [r; g; b; 255%Z]).
  { rewrite solidFrame_length. unfold partlyFilled.
    rewrite Z.sub_0_r. reflexivity. }
  rewrite Hstart.
  pose proof (fold_zrange_invariant
                (fun y out =>
                   out = partlyFilled (width * height) (y * width)
                           [r; g; b; 255%Z])) as Houter.
  cbv beta in Houter.
  rewrite (Houter _ 0%Z (height - 1)%Z
             (partlyFilled (width * height) 0 [r; g; b; 255%Z])).
  - replace ((height - 1 + 1) * width)%Z with (width * height)%Z by lia.
    unfold partlyFilled. rewrite Z.sub_diag. cbn [Z.to_nat Nat.mul replicate].
    apply app_nil_r.
  - lia.
  - reflexivity.
  - intros y out Hy ->.
    pose proof (fold_zrange_invariant
                  (fun x out =>
                     out = partlyFilled (width * height) (y * width + x)
                             [r; g; b; 255%Z])) as Hinner.
    cbv beta in Hinner.
    rewrite (Hinner _ 0%Z (width - 1)%Z
               (partlyFilled (width * height) (y * width) [r; g; b; 255%Z])).
    + f_equal. lia.
    + lia.
    + now rewrite Z.add_0_r.
    + intros x out' Hx ->.
      rewrite applyKernelPixel_solid by (exact Hs || lia).
      rewrite write_solid_pixel by (assumption || nia).
      f_equal. lia.
Qed.

(** The two-pass Gaussian blur of a frame of one colour is that frame, with
    alpha 255: the clamping at the border changes nothing on it. *)
Theorem blur_keeps_solid_frame (sigmaPx : R) (r g b a : Z) (width height : Z) :
  0 < sigmaPx ->
  (0 < width)%Z -> (0 < height)%Z ->
  (0 <= r <= 255)%Z -> (0 <= g <= 255)%Z -> (0 <= b <= 255)%Z ->
  let kernel := generateGaussianKernel1D sigmaPx in
  let frame := solidFrame (Z.to_nat (width * height)) [r; g; b; a] in
  convolvePass (convolvePass frame width height kernel true)
    width height kernel false
  = solidFrame (Z.to_nat (width * height)) [r; g; b; 255%Z].
Proof.
  intros Hs Hw Hh Hr Hg Hb kernel frame. unfold kernel, frame.
  now rewrite !convolvePass_solid.
Qed.

Lemma blur_keeps_solid_frame_witness :
  let kernel := generateGaussianKernel1D 0.8 in
  let frame := solidFrame (Z.to_nat (3 * 2)) [128; 128; 128; 0]%Z in
  convolvePass (convolvePass frame 3 2 kernel true) 3 2 kernel false
  = solidFrame (Z.to_nat (3 * 2)) [128; 128; 128; 255]%Z.
Proof.
  apply (blur_keeps_solid_frame 0.8 128 128 128 0 3 2); lra || lia.
Defined.

(** ** Lateral inhibition on a frame of one colour *)

Lemma pixelIndices_elem (n : nat) (i : Z) :
  i ∈ pixelIndices (4 * n) -> exists k : Z, i = (k * 4)%Z /\ (0 <= k < Z.of_nat n)%Z.
Proof.
  rewrite pixelIndices_whole, list_elem_of_fmap. intros (j & -> & Hj).
  apply elem_of_seq in Hj. exists (Z.of_nat j). lia.
Qed.

(** Storing a value that converts to the byte already there changes nothing. *)
Lemma aset_unchanged (d : list Z) (i : Z) (v : number) :
  aget d i = ofZ (ToUint8Clamp v) -> aset d i v = d.
Proof.
  unfold aget, aset. destruct (i <? 0)%Z; [reflexivity |].
  destruct (d !! Z.to_nat i) as [old |] eqn:Hold; [| discriminate].
  intros Heq. apply list_insert_id. rewrite Hold. f_equal.
  unfold ofZ in Heq. injection Heq as Heq. now apply eq_IZR.
Qed.

Lemma dogPixel_solid (k : R) (n : nat) (r g b a : Z) (j : Z) :
  (0 <= j < Z.of_nat n)%Z ->
  (0 <= r <= 255)%Z -> (0 <= g <= 255)%Z -> (0 <= b <= 255)%Z ->
  dogPixel k (solidFrame n [r; g; b; 255%Z]) (solidFrame n [r; g; b; 255%Z])
    (solidFrame n [r; g; b; a]) (j * 4)
  = solidFrame n [r; g; b; a].
Proof.
  intros Hj Hr Hg Hb. unfold dogPixel.
  assert (Hkeep : forall (c v idx : Z), idx = (j * 4 + c)%Z ->
            (0 <= c < 3)%Z -> (0 <= v <= 255)%Z ->
            [r; g; b; a] !! Z.to_nat c = Some v ->
            [r; g; b; 255%Z] !! Z.to_nat c = Some v ->
            aset (solidFrame n [r; g; b; a]) idx
              (Math_max 0
                 (Math_min 255
                    (aget (solidFrame n [r; g; b; a]) idx
                     - k * (aget (solidFrame n [r; g; b; 255%Z]) idx
                            - aget (solidFrame n [r; g; b; 255%Z]) idx))%num))
            = solidFrame n [r; g; b; a]).
  { intros c v idx -> Hc Hv Hdata Hblur.
    apply aset_unchanged.
    rewrite !aget_solid by (reflexivity || lia).
    rewrite Hdata, Hblur, !ofZ_Num, nsub_Num, nmul_Num, nsub_Num.
    rewrite Math_min_Num, Math_max_Num.
    pose proof (IZR_le _ _ (proj1 Hv)) as Hv0.
    pose proof (IZR_le _ _ (proj2 Hv)) as Hv255.
    replace (IZR v - k * (IZR v - IZR v)) with (IZR v) by ring.
    rewrite Rmin_right, Rmax_right by lra.
    change (Num (IZR v)) with (ofZ v).
    now rewrite ToUint8Clamp_byte by exact Hv. }
  rewrite (Hkeep 0%Z r (j * 4)%Z) by (reflexivity || lia).
  rewrite (Hkeep 1%Z g) by (reflexivity || lia).
  now rewrite (Hkeep 2%Z b) by (reflexivity || lia).
Qed.

Lemma lateralInhibitionStage_solid (p : AgePreset) (r g b a : Z)
    (width height : Z) :
  (0 < width)%Z -> (0 < height)%Z ->
  (0 <= r <= 255)%Z -> (0 <= g <= 255)%Z -> (0 <= b <= 255)%Z ->
  lateralInhibitionStage p
    (solidFrame (Z.to_nat (width * height)) [r; g; b; a]) width height
  = solidFrame (Z.to_nat (width * height)) [r; g; b; a].
Proof.
  intros Hw Hh Hr Hg Hb. unfold lateralInhibitionStage.
  destruct (lateralInhibition p >? 0)%num; [| reflexivity].
  assert (Hs2 : 0 < 2.0 + 2.0 * (1 - Rmin 1 (lateralInhibition p))).
  { pose proof (Rmin_l 1 (lateralInhibition p)). lra. }
  rewrite !convolvePass_solid by (lra || lia).
  rewrite solidFrame_length.
  apply fold_left_fixed. intros i Hi.
  apply (pixelIndices_elem (Z.to_nat (width * height))) in Hi
    as (j & -> & Hj).
  now apply dogPixel_solid.
Qed.

(** Lateral inhibition leaves a frame of one colour as it is, whatever the
    preset: the two blurs agree on it and their difference is zero. *)
Theorem lateral_inhibition_keeps_solid_frame (p : AgePreset) (r g b a : Z)
    (width height : Z) :
  (0 < width)%Z -> (0 < height)%Z ->
  (0 <= r <= 255)%Z -> (0 <= g <= 255)%Z -> (0 <= b <= 255)%Z ->
  lateralInhibitionStage p
    (solidFrame (Z.to_nat (width * height)) [r; g; b; a]) width height
  = solidFrame (Z.to_nat (width * height)) [r; g; b; a].
Proof. apply lateralInhibitionStage_solid. Qed.

Lemma lateral_inhibition_keeps_solid_frame_witness :
  lateralInhibitionStage preset3
    (solidFrame (Z.to_nat (4 * 3)) [200; 100; 50; 255]%Z) 4 3
  = solidFrame (Z.to_nat (4 * 3)) [200; 100; 50; 255]%Z.
Proof.
  apply (lateral_inhibition_keeps_solid_frame preset3 200 100 50 255 4 3); lia.
Defined.

(** ** Chromatic aberration at every age *)

Lemma fold_left_invariant {A St} (P : St -> Prop) (body : St -> A -> St)
    (xs : list A) (s : St) :
  P s -> (forall x t, x ∈ xs -> P t -> P (body t x)) ->
  P (fold_left body xs s).
Proof.
  revert s. induction xs as [| x xs IH]; intros s Hs Hbody; [exact Hs |].
  cbn. apply IH.
  - apply Hbody; [apply list_elem_of_here | exact Hs].
  - intros z t Hz. apply Hbody. now apply list_elem_of_further.
Qed.

Lemma Rmin_IZR (a b : Z) : Rmin (IZR a) (IZR b) = IZR (Z.min a b).
Proof.
  destruct (Z.le_ge_cases a b) as [Hab | Hab].
  - rewrite Rmin_left, Z.min_l by (try apply IZR_le; assumption). reflexivity.
  - rewrite Rmin_right, Z.min_r by (try apply IZR_le; lia). reflexivity.
Qed.

(** The clamped, rounded coordinate of a finite sample position. *)
Lemma clamped_coordinate (bound : Z) (v : R) :
  Math_max 0 (Math_min (ofZ bound - 1)%num (Math_round (Num v)))
  = Num (IZR (Z.max 0 (Z.min (bound - 1) (Zfloor (v + / 2))))).
Proof.
  cbn [Math_round]. rewrite ofZ_Num, nsub_Num, Math_min_Num, Math_max_Num.
  f_equal. rewrite <- (minus_IZR bound 1), Rmin_IZR. apply (Rmax_IZR 0).
Qed.

(** Every finite sample position reads a pixel of the image. *)
Lemma sampleNearest_finite (src : list Z) (width height : Z) (ix iy : R)
    (channel : Z) :
  (0 < width)%Z -> (0 < height)%Z ->
  exists k : Z,
    (0 <= k < width * height)%Z /\
    sampleNearest src width height (Num ix) (Num iy) channel
    = aget src (k * 4 + channel).
Proof.
  intros Hw Hh. unfold sampleNearest. rewrite !clamped_coordinate.
  set (xc := Z.max 0 (Z.min (width - 1) (Zfloor (ix + / 2)))).
  set (yc := Z.max 0 (Z.min (height - 1) (Zfloor (iy + / 2)))).
  exists (yc * width + xc)%Z. split; [unfold xc, yc; nia |].
  rewrite !ofZ_Num, !nmul_Num, !nadd_Num, nmul_Num, nadd_Num.
  rewrite <- mult_IZR, <- plus_IZR, <- mult_IZR, <- plus_IZR.
  apply aget_num_integer.
Qed.

(** The two sample positions of a pixel are finite at every age. *)
Lemma sample_positions_finite (width height x y selectedAge : Z) :
  (0 < width)%Z ->
  let cx := (ofZ width / 2)%num in
  let cy := (ofZ height / 2)%num in
  let strength := ((3 - ofZ selectedAge) * 0.6)%num in
  let rNorm := radialNorm cx cy (Math_hypot cx cy) x y in
  exists rx ry bx by_ : R,
    (ofZ x + radialUnitX cx cy x y * (- strength * rNorm))%num = Num rx /\
    (ofZ y + radialUnitY cx cy x y * (- strength * rNorm))%num = Num ry /\
    (ofZ x + radialUnitX cx cy x y * (strength * rNorm))%num = Num bx /\
    (ofZ y + radialUnitY cx cy x y * (strength * rNorm))%num = Num by_.
Proof.
  intros Hw cx cy strength rNorm.
  destruct (radialNorm_finite width height x y Hw) as [r Hr].
  unfold rNorm, cx, cy. rewrite Hr.
  unfold radialUnitX, radialUnitY.
  rewrite !ofZ_Num, !(ndiv_Num _ 2), !nsub_Num by lra.
  destruct (unit_component_finite
              (IZR x - IZR width / 2) (IZR x - IZR width / 2)
              (IZR y - IZR height / 2)) as [ux ->].
  destruct (unit_component_finite
              (IZR y - IZR height / 2) (IZR x - IZR width / 2)
              (IZR y - IZR height / 2)) as [uy ->].
  unfold strength. rewrite ofZ_Num, nsub_Num, nmul_Num, nneg_Num, !nmul_Num, !nadd_Num.
  do 4 eexists. repeat split.
Qed.

Lemma aset_length (d : list Z) (i : Z) (v : number) :
  length (aset d i v) = length d.
Proof. unfold aset. destruct (i <? 0)%Z; [reflexivity | apply length_insert]. Qed.

Lemma aset_lookup_other (d : list Z) (i : Z) (v : number) (j : nat) :
  Z.of_nat j <> i -> aset d i v !! j = d !! j.
Proof.
  intros Hne. unfold aset. destruct (Z.ltb_spec i 0); [reflexivity |].
  apply list_lookup_insert_ne. lia.
Qed.

(** Copying a byte from the same place of an array of the same length. *)
Lemma aset_copy_lookup (d src : list Z) (i : Z) (j : nat) :
  bytes src -> length d = length src ->
  Z.of_nat j = i -> aset d i (aget src i) !! j = src !! j.
Proof.
  intros Hsrc Hlen <-. unfold aset, aget.
  destruct (Z.ltb_spec (Z.of_nat j) 0) as [Hneg | _]; [lia |].
  rewrite Nat2Z.id.
  destruct (src !! j) as [v |] eqn:Hv.
  - rewrite list_lookup_insert_eq
      by (rewrite Hlen; now apply lookup_lt_is_Some_1).
    f_equal. apply ToUint8Clamp_byte.
    unfold bytes in Hsrc. rewrite Forall_lookup in Hsrc. exact (Hsrc _ _ Hv).
  - rewrite list_insert_ge by (rewrite Hlen; now apply lookup_ge_None_1).
    apply lookup_ge_None_2. rewrite Hlen. now apply lookup_ge_None_1.
Qed.

(** At every age the chromatic aberration keeps the length of the buffer
    and leaves the green and the alpha byte of every pixel as they were:
    only red and blue samples move. *)
Theorem chromatic_aberration_keeps_green_and_alpha (src : list Z)
    (width height selectedAge : Z) (j : nat) :
  bytes src ->
  (j mod 4 = 1 \/ j mod 4 = 3)%nat ->
  length (chromaticAberration src width height selectedAge) = length src /\
  chromaticAberration src width height selectedAge !! j = src !! j.
Proof.
  intros Hsrc Hj. unfold chromaticAberration.
  set (P := fun dst : list Z => length dst = length src /\ dst !! j = src !! j).
  change (P (fold_left
               (fun dst y =>
                  fold_left
                    (fun dst0 x =>
                       chromaticPixel src width height
                         ((3 - ofZ selectedAge) * 0.6)%num dst0 x y)
                    (zrange 0 (width - 1)) dst)
               (zrange 0 (height - 1)) src)).
  apply fold_left_invariant; [split; reflexivity |].
  intros y dst Hy%zrange_elem Hdst.
  apply fold_left_invariant; [exact Hdst |].
  intros x dst' Hx%zrange_elem [Hlen Hkeep].
  unfold P, chromaticPixel. rewrite !aset_length.
  split; [exact Hlen |].
  set (idx := ((y * width + x) * 4)%Z).
  assert (Hidx : (0 <= idx)%Z) by (unfold idx; nia).
  assert (Hmod : (Z.to_nat idx mod 4 = 0)%nat).
  { unfold idx. rewrite Z2Nat.inj_mul by nia. apply Nat.Div0.mod_mul. }
  assert (Hne0 : Z.of_nat j <> idx) by (intros Heq; rewrite <- Heq, Nat2Z.id in Hmod; lia).
  assert (Hne2 : Z.of_nat j <> (idx + 2)%Z).
  { intros Heq. assert (j = Z.to_nat idx + 2)%nat as -> by lia.
    rewrite Nat.Div0.add_mod, Hmod in Hj. cbn in Hj. lia. }
  rewrite aset_lookup_other by exact Hne2.
  destruct (Z.eq_dec (Z.of_nat j) (idx + 1)%Z) as [Heq | Hne1].
  - apply aset_copy_lookup; [exact Hsrc | now rewrite aset_length | exact Heq].
  - now rewrite !aset_lookup_other.
Qed.

Lemma chromatic_aberration_keeps_green_and_alpha_witness :
  chromaticAberration [10; 20; 30; 255; 40; 50; 60; 255]%Z 2 1 1 !! 5%nat
  = Some 50%Z.
Proof.
  destruct (chromatic_aberration_keeps_green_and_alpha
              [10; 20; 30; 255; 40; 50; 60; 255]%Z 2 1 1 5) as [_ Hgreen].
  - unfold bytes. repeat constructor; lia.
  - left. reflexivity.
  - exact Hgreen.
Defined.

Lemma chromaticPixel_solid (n : nat) (r g b a : Z) (width height x y age : Z) :
  n = Z.to_nat (width * height) ->
  (0 <= x < width)%Z -> (0 <= y < height)%Z ->
  (0 <= r <= 255)%Z -> (0 <= g <= 255)%Z -> (0 <= b <= 255)%Z ->
  chromaticPixel (solidFrame n [r; g; b; a]) width height
    ((3 - ofZ age) * 0.6)%num (solidFrame n [r; g; b; a]) x y
  = solidFrame n [r; g; b; a].
Proof.
  intros -> Hx Hy Hr Hg Hb. unfold chromaticPixel.
  destruct (sample_positions_finite width height x y age ltac:(lia))
    as (rx & ry & bx & by_ & -> & -> & -> & ->).
  destruct (sampleNearest_finite
              (solidFrame (Z.to_nat (width * height)) [r; g; b; a])
              width height rx ry 0 ltac:(lia) ltac:(lia)) as (kr & Hkr & ->).
  destruct (sampleNearest_finite
              (solidFrame (Z.to_nat (width * height)) [r; g; b; a])
              width height bx by_ 2 ltac:(lia) ltac:(lia)) as (kb & Hkb & ->).
  set (frame := solidFrame (Z.to_nat (width * height)) [r; g; b; a]).
  assert (Hch : forall k c v, (0 <= k < width * height)%Z -> (0 <= c < 4)%Z ->
            [r; g; b; a] !! Z.to_nat c = Some v ->
            aget frame (k * 4 + c) = ofZ v).
  { intros k c v Hk Hc Hv. unfold frame.
    rewrite aget_solid by (reflexivity || lia). now rewrite Hv. }
  assert (Hown : (0 <= y * width + x < width * height)%Z) by nia.
  assert (H0 : aset frame ((y * width + x) * 4) (aget frame (kr * 4 + 0)) = frame).
  { apply aset_unchanged.
    rewrite (Hch kr 0%Z r) by (reflexivity || lia).
    rewrite ToUint8Clamp_byte by exact Hr.
    rewrite <- (Z.add_0_r ((y * width + x) * 4)).
    apply Hch; (reflexivity || lia). }
  rewrite H0.
  assert (H1 : aset frame ((y * width + x) * 4 + 1)
                 (aget frame ((y * width + x) * 4 + 1)) = frame).
  { apply aset_unchanged.
    rewrite (Hch _ 1%Z g) by (reflexivity || lia).
    now rewrite ToUint8Clamp_byte by exact Hg. }
  rewrite H1.
  apply aset_unchanged.
  rewrite (Hch kb 2%Z b) by (reflexivity || lia).
  rewrite ToUint8Clamp_byte by exact Hb.
  apply Hch; (reflexivity || lia).
Qed.

(** At every age the chromatic aberration leaves a frame of one colour as
    it is. *)
Theorem chromatic_aberration_keeps_solid_frame (r g b a : Z)
    (width height selectedAge : Z) :
  (0 <= r <= 255)%Z -> (0 <= g <= 255)%Z -> (0 <= b <= 255)%Z ->
  chromaticAberration (solidFrame (Z.to_nat (width * height)) [r; g; b; a])
    width height selectedAge
  = solidFrame (Z.to_nat (width * height)) [r; g; b; a].
Proof.
  intros Hr Hg Hb. unfold chromaticAberration.
  apply fold_left_fixed. intros y Hy%zrange_elem.
  apply fold_left_fixed. intros x Hx%zrange_elem.
  apply chromaticPixel_solid; (reflexivity || lia).
Qed.

Lemma chromatic_aberration_keeps_solid_frame_witness :
  chromaticAberration (solidFrame (Z.to_nat (3 * 2)) [255; 0; 0; 255]%Z) 3 2 1
  = solidFrame (Z.to_nat (3 * 2)) [255; 0; 0; 255]%Z.
Proof.
  apply (chromatic_aberration_keeps_solid_frame 255 0 0 255 3 2 1); lia.
Defined.

(** ** Optical effects without scatter *)

Lemma chromaticAberration_zero_strength (src : list Z) (width height : Z) :
  bytes src -> chromaticAberration src width height 3 = src.
Proof.
  intros Hsrc. unfold chromaticAberration.
  replace ((3 - ofZ 3) * 0.6)%num with (Num 0)
    by (rewrite ofZ_Num, nsub_Num, nmul_Num; f_equal; lra).
  apply fold_left_fixed. intros y Hy%zrange_elem.
  apply fold_left_fixed. intros x Hx%zrange_elem.
  apply chromaticPixel_zero_strength; [assumption | lia | lia].
Qed.

Section OpticalEffects.
Context `{Canvas2D}.

(** With a scattering factor that is not positive the canvas is never
    asked to blur and blend: [applyOpticalEffects] is the chromatic
    aberration alone, which at age 3 returns any buffer of bytes unchanged
    and at every age returns a frame of one colour unchanged. *)
Theorem optical_effects_without_scatter (p : AgePreset) (data : list Z)
    (width height selectedAge : Z) (r g b a : Z) :
  scatteringFactor p <= 0 ->
  bytes data ->
  (0 <= r <= 255)%Z -> (0 <= g <= 255)%Z -> (0 <= b <= 255)%Z ->
  applyOpticalEffects data width height p selectedAge
    = chromaticAberration data width height selectedAge /\
  applyOpticalEffects data width height p 3 = data /\
  applyOpticalEffects (solidFrame (Z.to_nat (width * height)) [r; g; b; a])
    width height p selectedAge
    = solidFrame (Z.to_nat (width * height)) [r; g; b; a].
Proof.
  intros Hsf Hdata Hr Hg Hb.
  assert (Hskip : forall d age,
            applyOpticalEffects d width height p age
            = chromaticAberration d width height age).
  { intros d age. unfold applyOpticalEffects.
    now rewrite ngt_Num, Rltb_false by exact Hsf. }
  split; [apply Hskip |]. split.
  - rewrite Hskip. now apply chromaticAberration_zero_strength.
  - rewrite Hskip. unfold chromaticAberration.
    apply fold_left_fixed. intros y Hy%zrange_elem.
    apply fold_left_fixed. intros x Hx%zrange_elem.
    apply chromaticPixel_solid; (reflexivity || lia).
Qed.

End OpticalEffects.

Lemma optical_effects_without_scatter_witness :
  applyOpticalEffects (H := plainCanvas) [9; 8; 7; 255]%Z 1 1 unitPreset 3
  = [9; 8; 7; 255]%Z.
Proof.
  destruct (optical_effects_without_scatter (H := plainCanvas) unitPreset
              [9; 8; 7; 255]%Z 1 1 3 0 0 0 0) as (_ & Hid & _).
  - cbn. lra.
  - unfold bytes. repeat constructor; lia.
  - lia.
  - lia.
  - lia.
  - exact Hid.
Defined.

(** ** Neural effects *)

(** With a noise level that is not positive the noise stage draws no random
    number and returns the buffer; with lateral inhibition also not
    positive the whole of [applyNeuralEffects] returns the buffer; and in
    either case of inhibition a frame of one colour comes back unchanged. *)
Theorem neural_effects_without_noise (p : AgePreset) (data : list Z)
    (width height : Z) (rand : nat -> number) (r g b a : Z) :
  photoreceptorNoise p <= 0 ->
  (0 < width)%Z -> (0 < height)%Z ->
  (0 <= r <= 255)%Z -> (0 <= g <= 255)%Z -> (0 <= b <= 255)%Z ->
  photoreceptorNoiseStage p rand data = data /\
  (lateralInhibition p <= 0 ->
   applyNeuralEffects data width height p rand = data) /\
  applyNeuralEffects (solidFrame (Z.to_nat (width * height)) [r; g; b; a])
    width height p rand
  = solidFrame (Z.to_nat (width * height)) [r; g; b; a].
Proof.
  intros Hnoise Hw Hh Hr Hg Hb.
  assert (Hstage : forall d, photoreceptorNoiseStage p rand d = d).
  { intros d. unfold photoreceptorNoiseStage.
    now rewrite ngt_Num, Rltb_false by exact Hnoise. }
  split; [apply Hstage |]. split.
  - intros Hli. unfold applyNeuralEffects. rewrite Hstage.
    unfold lateralInhibitionStage. now rewrite ngt_Num, Rltb_false by exact Hli.
  - unfold applyNeuralEffects. rewrite Hstage.
    now apply lateralInhibitionStage_solid.
Qed.

Lemma neural_effects_without_noise_witness :
  applyNeuralEffects [10; 20; 30; 255]%Z 1 1 unitPreset (fun _ => Num 0.25)
  = [10; 20; 30; 255]%Z.
Proof.
  destruct (neural_effects_without_noise unitPreset [10; 20; 30; 255]%Z 1 1
              (fun _ => Num 0.25) 0 0 0 0) as (_ & Hid & _);
    try lia; try (cbn; lra).
  apply Hid. cbn. lra.
Defined.

(** ** Loops that rewrite the colour bytes of each pixel *)

Lemma pixelIndices_multiple (len : nat) (i : Z) :
  i ∈ pixelIndices len -> exists k : nat, i = (4 * Z.of_nat k)%Z.
Proof.
  unfold pixelIndices. intros (n & -> & _)%list_elem_of_fmap. now exists n.
Qed.

Lemma rgb_writes_keep_alpha (d : list Z) (m : nat) (v0 v1 v2 : number) (k : nat) :
  let i := (4 * Z.of_nat m)%Z in
  aset (aset (aset d i v0) (i + 1) v1) (i + 2) v2 !! (4 * k + 3)%nat
  = d !! (4 * k + 3)%nat.
Proof.
  cbn zeta. rewrite !aset_lookup_other by lia. reflexivity.
Qed.

Lemma rgb_writes_length (d : list Z) (i : Z) (v0 v1 v2 : number) :
  length (aset (aset (aset d i v0) (i + 1) v1) (i + 2) v2) = length d.
Proof. now rewrite !aset_length. Qed.

Lemma sameAlpha_refl (data : list Z) : sameAlpha data data.
Proof. now split. Qed.

Lemma sameAlpha_rgb_writes (data d : list Z) (m : nat) (v0 v1 v2 : number) :
  sameAlpha data d ->
  sameAlpha data
    (aset (aset (aset d (4 * Z.of_nat m) v0) (4 * Z.of_nat m + 1) v1)
       (4 * Z.of_nat m + 2) v2).
Proof.
  intros [Hlen Halpha]. split.
  - now rewrite rgb_writes_length.
  - intros k. now rewrite (rgb_writes_keep_alpha d m v0 v1 v2 k).
Qed.

Lemma forEach_invariant {A St} (P : St -> Prop)
    (body : St -> A -> completion St) (xs : list A) (s : St) :
  P s ->
  (forall x t, x ∈ xs -> P t -> exists t', body t x = Return t' /\ P t') ->
  exists s', forEach xs body s = Return s' /\ P s'.
Proof.
  revert s. induction xs as [| x xs IH]; intros s Hs Hbody.
  - exists s. now split.
  - destruct (Hbody x s (list_elem_of_here _ _) Hs) as (t & Ht & HPt).
    cbn [forEach]. rewrite Ht. cbn [bind].
    apply IH; [exact HPt |].
    intros y u Hy. apply Hbody. now apply list_elem_of_further.
Qed.

Lemma forEach_fixed {A St} (body : St -> A -> completion St)
    (xs : list A) (s : St) :
  (forall x, x ∈ xs -> body s x = Return s) -> forEach xs body s = Return s.
Proof.
  induction xs as [| x xs IH]; intros Hbody; [reflexivity |].
  cbn [forEach]. rewrite (Hbody x (list_elem_of_here _ _)). cbn [bind].
  apply IH. intros y Hy. apply Hbody. now apply list_elem_of_further.
Qed.

Lemma forEach_ext {A St} (body1 body2 : St -> A -> completion St)
    (xs : list A) (s : St) :
  (forall t x, body1 t x = body2 t x) ->
  forEach xs body1 s = forEach xs body2 s.
Proof.
  intros Hext. revert s. induction xs as [| x xs IH]; intros s; [reflexivity |].
  cbn [forEach]. rewrite Hext. destruct (body2 s x); cbn [bind]; [apply IH | reflexivity].
Qed.

Lemma infantColorPixel_defined (p : AgePreset) (age : Z) (d : list Z) (i : Z) :
  exists v0 v1 v2 : number,
    infantColorPixel (Some p) age d i
    = Return (aset (aset (aset d i v0) (i + 1) v1) (i + 2) v2).
Proof.
  unfold infantColorPixel.
  destruct (age =? 1)%Z; [| destruct (age =? 2)%Z]; cbn [prop bind];
    eexists _, _, _; reflexivity.
Qed.

(** ** Infant colour vision *)

Lemma applyInfantColorVision_defined (p : AgePreset) (data : list Z)
    (width height age : Z) :
  exists out : list Z,
    applyInfantColorVision data width height (Some p) age = Return out /\
    sameAlpha data out.
Proof.
  unfold applyInfantColorVision.
  apply (forEach_invariant (sameAlpha data)); [apply sameAlpha_refl |].
  intros i d [m ->]%pixelIndices_multiple Hd.
  destruct (infantColorPixel_defined p age d (4 * Z.of_nat m)) as (v0 & v1 & v2 & ->).
  eexists. split; [reflexivity |]. now apply sameAlpha_rgb_writes.
Qed.

(** With a preset in hand [applyInfantColorVision] never throws, at any age
    and on any buffer, and what it returns has the length and the alpha
    bytes of what it was given. *)
Theorem infant_colour_keeps_alpha_and_length (p : AgePreset) (data : list Z)
    (width height age : Z) :
  exists out : list Z,
    applyInfantColorVision data width height (Some p) age = Return out /\
    length out = length data /\
    forall k : nat, out !! (4 * k + 3)%nat = data !! (4 * k + 3)%nat.
Proof.
  destruct (applyInfantColorVision_defined p data width height age)
    as (out & Hrun & Hlen & Halpha).
  now exists out.
Qed.

(** Without a preset ([undefined]) the function throws exactly when there
    is a pixel to process: an empty buffer comes back as it is. *)
Theorem infant_colour_undefined_preset (data : list Z) (width height age : Z) :
  applyInfantColorVision data width height None age
  = match data with
    | [] => Return []
    | _ :: _ => ThrowTypeError
    end.
Proof.
  destruct data as [| b data]; [reflexivity |].
  apply applyInfantColorVision_undefined. cbn. lia.
Qed.

(** The age is only compared with 1 and 2: every other value, a key of the
    preset table or not, is processed with the formulas of 3 months. *)
Theorem infant_colour_other_ages_as_age3 (preset : option AgePreset)
    (data : list Z) (width height age : Z) :
  age <> 1%Z -> age <> 2%Z ->
  applyInfantColorVision data width height preset age
  = applyInfantColorVision data width height preset 3.
Proof.
  intros H1 H2. unfold applyInfantColorVision. apply forEach_ext.
  intros d i. unfold infantColorPixel.
  destruct (Z.eqb_spec age 1) as [? | _]; [contradiction |].
  destruct (Z.eqb_spec age 2) as [? | _]; [contradiction |].
  reflexivity.
Qed.

Lemma infant_colour_other_ages_as_age3_witness :
  applyInfantColorVision [200; 100; 50; 255]%Z 1 1 (Some preset2) 7
  = applyInfantColorVision [200; 100; 50; 255]%Z 1 1 (Some preset2) 3.
Proof.
  apply infant_colour_other_ages_as_age3; lia.
Defined.

Lemma linearOfByte_range (b : Z) :
  (0 <= b <= 255)%Z -> 0 <= linearOfByte b <= 1.
Proof.
  intros Hb. unfold linearOfByte, srgbToLinearR.
  assert (H0 : 0 <= IZR b) by (apply IZR_le; lia).
  assert (H1 : IZR b <= 255) by (apply IZR_le; lia).
  destruct (Rle_dec (IZR b / 255) 0.04045) as [Hle | Hgt].
  - rewrite Rleb_true by exact Hle. lra.
  - rewrite Rleb_false by lra. split.
    + left. apply exp_pos.
    + rewrite <- (Rpower_one 2.4). apply Rle_Rpower_l; lra.
Qed.

Lemma aget_cases (d : list Z) (j : Z) :
  bytes d ->
  (forall v, aset d j v = d) \/
  (exists b, (0 <= b <= 255)%Z /\ aget d j = ofZ b).
Proof.
  intros Hd. unfold aget, aset. destruct (j <? 0)%Z; [now left |].
  destruct (d !! Z.to_nat j) as [b |] eqn:Hb.
  - right. exists b. split; [| reflexivity].
    exact (proj1 (Forall_lookup _ d) Hd _ _ Hb).
  - left. intros v. apply list_insert_ge. now apply lookup_ge_None.
Qed.

Lemma unit_channel_unchanged (d : list Z) (j : Z) :
  bytes d ->
  aset d j
    (Math_round
       (linearToSrgb (clamp01 (srgbToLinear (aget d j / 255) * Num 1)) * 255))%num
  = d.
Proof.
  intros Hd. destruct (aget_cases d j Hd) as [Hout | (b & Hb & Hget)];
    [apply Hout |].
  apply aset_unchanged. rewrite Hget at 1. f_equal.
  rewrite Hget. unfold ofZ. rewrite ndiv_Num by lra.
  rewrite srgbToLinear_Num, nmul_Num, clamp01_Num.
  fold (linearOfByte b). rewrite Rmult_1_r.
  rewrite clamp01R_inside by now apply linearOfByte_range.
  symmetry. now apply encodeByte_linearOfByte.
Qed.

(** With all three cone sensitivities equal to 1, at an age other than 1
    and 2, every channel is decoded, kept and encoded back to the byte it
    was: the buffer is returned unchanged, whatever its length. *)
Theorem infant_colour_unit_cones_identity (p : AgePreset) (data : list Z)
    (width height age : Z) :
  unitCones p -> bytes data -> age <> 1%Z -> age <> 2%Z ->
  applyInfantColorVision data width height (Some p) age = Return data.
Proof.
  intros (HL & HM & HS) Hdata H1 H2. unfold applyInfantColorVision.
  apply forEach_fixed. intros i _. unfold infantColorPixel.
  destruct (Z.eqb_spec age 1) as [? | _]; [contradiction |].
  destruct (Z.eqb_spec age 2) as [? | _]; [contradiction |].
  cbn [prop bind]. rewrite HL, HM, HS.
  rewrite (unit_channel_unchanged data i Hdata).
  rewrite (unit_channel_unchanged data (i + 1) Hdata).
  rewrite (unit_channel_unchanged data (i + 2) Hdata).
  reflexivity.
Qed.

Lemma infant_colour_unit_cones_identity_witness :
  applyInfantColorVision [200; 100; 50; 255; 7]%Z 1 1 (Some unitPreset) 3
  = Return [200; 100; 50; 255; 7]%Z.
Proof.
  apply infant_colour_unit_cones_identity.
  - unfold unitCones. cbn. repeat split; reflexivity.
  - unfold bytes. repeat constructor; lia.
  - lia.
  - lia.
Defined.

(** ** LMS colour processing *)

(** [applyLMSColorProcessing] rewrites the three colour bytes of each
    pixel and nothing else: length and alpha bytes are those of the input,
    for every preset, age and buffer. *)
Theorem lms_processing_keeps_alpha_and_length (p : AgePreset) (data : list Z)
    (width height age : Z) :
  length (applyLMSColorProcessing data width height p age) = length data /\
  forall k : nat,
    applyLMSColorProcessing data width height p age !! (4 * k + 3)%nat
    = data !! (4 * k + 3)%nat.
Proof.
  unfold applyLMSColorProcessing.
  apply (fold_left_invariant (sameAlpha data)); [apply sameAlpha_refl |].
  intros i d [m ->]%pixelIndices_multiple Hd. unfold lmsColorPixel.
  destruct (lmsLinear _ _ _ _ _) as [[newR newG] newB].
  now apply sameAlpha_rgb_writes.
Qed.

(** ** Neural effects: what is never written *)

Lemma noise_loop_sameAlpha (scale : number) (rand : nat -> number)
    (data : list Z) (xs : list Z) (st : list Z * nat) :
  (forall i, i ∈ xs -> exists m : nat, i = (4 * Z.of_nat m)%Z) ->
  sameAlpha data (fst st) ->
  sameAlpha data (fst (fold_left (noisePixel scale rand) xs st)).
Proof.
  intros Hxs Hst.
  apply (fold_left_invariant (fun st => sameAlpha data (fst st))); [exact Hst |].
  intros i [d n] [m ->]%Hxs Hd. unfold noisePixel. cbn [fst] in *.
  now apply sameAlpha_rgb_writes.
Qed.

(** Noise and lateral inhibition together change colour bytes only: the
    result of [applyNeuralEffects] has the length and the alpha bytes of
    its input, for every preset, frame size and random sequence. *)
Theorem neural_effects_keep_alpha_and_length (p : AgePreset) (data : list Z)
    (width height : Z) (rand : nat -> number) :
  length (applyNeuralEffects data width height p rand) = length data /\
  forall k : nat,
    applyNeuralEffects data width height p rand !! (4 * k + 3)%nat
    = data !! (4 * k + 3)%nat.
Proof.
  change (sameAlpha data (applyNeuralEffects data width height p rand)).
  unfold applyNeuralEffects.
  assert (Hnoise : sameAlpha data (photoreceptorNoiseStage p rand data)).
  { unfold photoreceptorNoiseStage.
    destruct (photoreceptorNoise p >? 0)%num; [| apply sameAlpha_refl].
    apply noise_loop_sameAlpha; [| apply sameAlpha_refl].
    intros i. apply pixelIndices_multiple. }
  set (d1 := photoreceptorNoiseStage p rand data) in *.
  unfold lateralInhibitionStage.
  destruct (lateralInhibition p >? 0)%num; [| exact Hnoise].
  apply (fold_left_invariant (sameAlpha data)); [exact Hnoise |].
  intros i d [m ->]%pixelIndices_multiple Hd. unfold dogPixel.
  now apply sameAlpha_rgb_writes.
Qed.

(** ** Photoreceptor noise is small *)

Lemma noisy_byte_close (b : Z) (n : R) :
  (0 <= b <= 255)%Z -> -1.5 < n < 1.5 ->
  withinOne b (ToUint8Clamp (Math_max 0 (Math_min 255 (ofZ b + Num n)%num))).
Proof.
  intros Hb Hn. rewrite ofZ_Num, nadd_Num, Math_min_Num, Math_max_Num.
  assert (Hb0 : 0 <= IZR b) by (apply IZR_le; lia).
  assert (Hb1 : IZR b <= 255) by (apply IZR_le; lia).
  set (x := IZR b + n). unfold ToUint8Clamp, withinOne.
  destruct (Rle_dec (Rmax 0 (Rmin 255 x)) 0) as [Hlow | Hlow].
  { rewrite Rleb_true by exact Hlow.
    assert (Hx : x <= 0).
    { unfold Rmax, Rmin in Hlow.
      destruct (Rle_dec 255 x), (Rle_dec 0 255), (Rle_dec 0 x); lra. }
    assert (b < 2)%Z by (apply lt_IZR; unfold x in Hx; lra). lia. }
  rewrite Rleb_false by lra.
  destruct (Rle_dec 255 (Rmax 0 (Rmin 255 x))) as [Hhigh | Hhigh].
  { rewrite Rleb_true by exact Hhigh.
    assert (Hx : 255 <= x).
    { unfold Rmax, Rmin in Hhigh.
      destruct (Rle_dec 255 x), (Rle_dec 0 255), (Rle_dec 0 x); lra. }
    assert (253 < b)%Z by (apply lt_IZR; unfold x in Hx; lra). lia. }
  rewrite Rleb_false by lra.
  assert (Hy : Rmax 0 (Rmin 255 x) = x /\ 0 < x < 255).
  { unfold Rmax, Rmin in *.
    destruct (Rle_dec 255 x), (Rle_dec 0 255), (Rle_dec 0 x); lra. }
  destruct Hy as [-> Hx].
  pose proof (Zfloor_bound x) as Hf. set (f := Zfloor x) in *.
  assert (Hf0 : (0 <= f)%Z) by (apply Zfloor_lub; lra).
  assert (Hf1 : (f < 255)%Z) by (apply lt_IZR; lra).
  destruct (Rlt_dec (x - IZR f) (/ 2)) as [Hlt | Hnlt].
  { rewrite Rltb_true by exact Hlt.
    assert (b - 2 < f)%Z by (apply lt_IZR; rewrite minus_IZR; unfold x in *; lra).
    assert (f < b + 2)%Z by (apply lt_IZR; rewrite plus_IZR; unfold x in *; lra).
    lia. }
  rewrite Rltb_false by lra.
  assert (Hlo : (b - 3 < f)%Z)
    by (apply lt_IZR; rewrite minus_IZR; unfold x in *; lra).
  destruct (Rlt_dec (/ 2) (x - IZR f)) as [Hgt | Hngt].
  { rewrite Rltb_true by exact Hgt.
    assert (f < b + 1)%Z by (apply lt_IZR; rewrite plus_IZR; unfold x in *; lra).
    lia. }
  rewrite Rltb_false by lra.
  assert (f < b + 1)%Z by (apply lt_IZR; rewrite plus_IZR; unfold x in *; lra).
  assert (b - 2 < f)%Z by (apply lt_IZR; rewrite minus_IZR; unfold x in *; lra).
  destruct (Z.even f); lia.
Qed.

Lemma noise_amplitude (r g b : Z) (scale u : R) :
  (0 <= r <= 255)%Z -> (0 <= g <= 255)%Z -> (0 <= b <= 255)%Z ->
  0 <= scale <= 0.09 -> 0 <= u <= 1 ->
  exists n : R,
    ((Num u * 2 - 1)
     * (Math_sqrt (Math_max 1 (0.2126 * ofZ r + 0.7152 * ofZ g + 0.0722 * ofZ b))
        * Num scale))%num = Num n /\
    -1.5 < n < 1.5.
Proof.
  intros Hr Hg Hb Hs Hu. rewrite !ofZ_Num.
  assert (0 <= IZR r <= 255) by (split; apply IZR_le; lia).
  assert (0 <= IZR g <= 255) by (split; apply IZR_le; lia).
  assert (0 <= IZR b <= 255) by (split; apply IZR_le; lia).
  rewrite !nmul_Num, !nadd_Num, nsub_Num, Math_max_Num.
  set (L := 0.2126 * IZR r + 0.7152 * IZR g + 0.0722 * IZR b).
  assert (HL : 1 <= Rmax 1 L <= 256).
  { unfold Rmax. destruct (Rle_dec 1 L); unfold L in *; lra. }
  unfold Math_sqrt. rewrite Rltb_false by lra.
  rewrite !nmul_Num. eexists. split; [reflexivity |].
  assert (Hs16 : 0 <= sqrt (Rmax 1 L) <= 16).
  { split; [apply sqrt_pos |].
    replace 16 with (sqrt (16 * 16)) by (apply sqrt_square; lra).
    apply sqrt_le_1; lra. }
  set (q := sqrt (Rmax 1 L)) in *.
  assert (Hsig : 0 <= q * scale <= 1.44) by nra.
  set (sg := q * scale) in *.
  nra.
Qed.

Lemma aget_aset_other (d : list Z) (i j : Z) (v : number) :
  i <> j -> aget (aset d i v) j = aget d j.
Proof.
  intros Hij. unfold aget. destruct (j <? 0)%Z eqn:Hj; [reflexivity |].
  rewrite aset_lookup_other; [reflexivity |]. apply Z.ltb_ge in Hj. lia.
Qed.

Lemma aget_lookup (d : list Z) (j : nat) (x : Z) :
  d !! j = Some x -> aget d (Z.of_nat j) = ofZ x.
Proof.
  intros Hx. unfold aget.
  destruct (Z.of_nat j <? 0)%Z eqn:Hj; [apply Z.ltb_lt in Hj; lia |].
  now rewrite Nat2Z.id, Hx.
Qed.

Lemma Forall2_write (P : Z -> Z -> Prop) (d0 d : list Z) (j : nat) (x : Z)
    (v : number) :
  Forall2 P d0 d -> d0 !! j = Some x -> P x (ToUint8Clamp v) ->
  Forall2 P d0 (aset d (Z.of_nat j) v).
Proof.
  intros Hd Hx HP. rewrite aset_nat.
  rewrite <- (list_insert_id d0 j x Hx). now apply Forall2_insert.
Qed.

Lemma noise_loop_close (scale : R) (rand : nat -> number) (d0 : list Z) :
  bytes d0 -> 0 <= scale <= 0.09 ->
  (forall k, exists u, rand k = Num u /\ 0 <= u <= 1) ->
  forall (m a : nat) (d : list Z) (n : nat),
    (4 * (a + m) <= length d0)%nat ->
    Forall2 withinOne d0 d ->
    (forall j, (4 * a <= j)%nat -> d !! j = d0 !! j) ->
    Forall2 withinOne d0
      (fst (fold_left (noisePixel (Num scale) rand)
              ((fun n => (4 * Z.of_nat n)%Z) <$> seq a m) (d, n))).
Proof.
  intros Hd0 Hscale Hrand. induction m as [| m IH]; intros a d n Hlen Hclose Hrest.
  - exact Hclose.
  - cbn [seq fmap list_fmap fold_left].
    assert (Hbyte : forall c, (c < 3)%nat ->
              exists x, d0 !! (4 * a + c)%nat = Some x /\ (0 <= x <= 255)%Z).
    { intros c Hc. destruct (lookup_lt_is_Some_2 d0 (4 * a + c)%nat) as [x Hx];
        [lia |].
      exists x. split; [exact Hx |].
      exact (proj1 (Forall_lookup _ d0) Hd0 _ _ Hx). }
    destruct (Hbyte 0%nat) as (r & Hr & Hrb); [lia |].
    destruct (Hbyte 1%nat) as (g & Hg & Hgb); [lia |].
    destruct (Hbyte 2%nat) as (b & Hb & Hbb); [lia |].
    rewrite Nat.add_0_r in Hr.
    assert (Hgr : aget d (4 * Z.of_nat a) = ofZ r).
    { replace (4 * Z.of_nat a)%Z with (Z.of_nat (4 * a)) by lia.
      apply aget_lookup. rewrite Hrest by lia. exact Hr. }
    assert (Hgg : aget d (4 * Z.of_nat a + 1) = ofZ g).
    { replace (4 * Z.of_nat a + 1)%Z with (Z.of_nat (4 * a + 1)) by lia.
      apply aget_lookup. rewrite Hrest by lia. exact Hg. }
    assert (Hgb' : aget d (4 * Z.of_nat a + 2) = ofZ b).
    { replace (4 * Z.of_nat a + 2)%Z with (Z.of_nat (4 * a + 2)) by lia.
      apply aget_lookup. rewrite Hrest by lia. exact Hb. }
    unfold noisePixel at 2.
    rewrite !aget_aset_other by lia. rewrite Hgr, Hgg, Hgb'.
    destruct (Hrand n) as (u0 & -> & Hu0).
    destruct (Hrand (S n)) as (u1 & -> & Hu1).
    destruct (Hrand (S (S n))) as (u2 & -> & Hu2).
    destruct (noise_amplitude r g b scale u0 Hrb Hgb Hbb Hscale Hu0) as (n0 & -> & Hn0).
    destruct (noise_amplitude r g b scale u1 Hrb Hgb Hbb Hscale Hu1) as (n1 & -> & Hn1).
    destruct (noise_amplitude r g b scale u2 Hrb Hgb Hbb Hscale Hu2) as (n2 & -> & Hn2).
    apply IH.
    + lia.
    + replace (4 * Z.of_nat a + 2)%Z with (Z.of_nat (4 * a + 2)) by lia.
      apply (Forall2_write _ _ _ _ b); [| exact Hb | now apply noisy_byte_close].
      replace (4 * Z.of_nat a + 1)%Z with (Z.of_nat (4 * a + 1)) by lia.
      apply (Forall2_write _ _ _ _ g); [| exact Hg | now apply noisy_byte_close].
      replace (4 * Z.of_nat a)%Z with (Z.of_nat (4 * a)) by lia.
      apply (Forall2_write _ _ _ _ r); [| exact Hr | now apply noisy_byte_close].
      exact Hclose.
    + intros j Hj. rewrite !aset_lookup_other by lia. apply Hrest. lia.
Qed.

Lemma withinOne_refl (d : list Z) : bytes d -> Forall2 withinOne d d.
Proof.
  intros Hd. apply Forall_Forall2_diag. eapply Forall_impl; [exact Hd |].
  intros x Hx. cbn beta in Hx. unfold withinOne. lia.
Qed.

(** With the random numbers in [0, 1] and a noise level of at most 0.15
    (the presets have 0.08 at most), the noise stage moves every byte of a
    whole-pixel buffer by at most one step, and the result is again a
    buffer of bytes of the same length. *)
Theorem photoreceptor_noise_within_one (p : AgePreset) (data : list Z)
    (rand : nat -> number) (pixels : nat) :
  bytes data -> length data = (4 * pixels)%nat ->
  photoreceptorNoise p <= 0.15 ->
  (forall k, exists u, rand k = Num u /\ 0 <= u <= 1) ->
  Forall2 withinOne data (photoreceptorNoiseStage p rand data).
Proof.
  intros Hdata Hlen Hnoise Hrand. unfold photoreceptorNoiseStage.
  rewrite ngt_Num.
  destruct (Rlt_dec 0 (photoreceptorNoise p)) as [Hpos | Hnpos].
  - rewrite Rltb_true by exact Hpos. rewrite nmul_Num.
    unfold pixelIndices. rewrite Hlen.
    replace ((4 * pixels + 3) / 4)%nat with pixels
      by (apply Nat.div_unique with 3%nat; lia).
    apply noise_loop_close; try assumption.
    + lra.
    + lia.
    + now apply withinOne_refl.
    + reflexivity.
  - rewrite Rltb_false by lra. now apply withinOne_refl.
Qed.

Lemma photoreceptor_noise_within_one_witness :
  Forall2 withinOne [10; 20; 30; 255]%Z
    (photoreceptorNoiseStage preset1 (fun _ => Num 0.25) [10; 20; 30; 255]%Z).
Proof.
  apply (photoreceptor_noise_within_one preset1 [10; 20; 30; 255]%Z
           (fun _ => Num 0.25) 1).
  - unfold bytes. repeat constructor; lia.
  - reflexivity.
  - cbn. lra.
  - intros _. exists 0.25. split; [reflexivity | lra].
Defined.

(** ** The vignette gradient *)

(** On a frame of finite size the gradient of [applyPeripheralVision] is
    well formed for every preset: both circles share the centre of the
    frame, the inner radius is at least 1 and at most the outer radius,
    which reaches at least half the diagonal; and with a peripheral
    suppression between 0 and 1 the three stops carry alphas that go down
    from 1 and stay non-negative. *)
Theorem peripheral_gradient_well_formed (w h : R) (p : AgePreset) :
  0 <= peripheralSuppression p <= 1 ->
  exists r0 r1 a1 a2 : R,
    peripheralGradient (Num w) (Num h) p =
      {| gx0 := Num (w / 2); gy0 := Num (h / 2); gr0 := Num r0;
         gx1 := Num (w / 2); gy1 := Num (h / 2); gr1 := Num r1;
         colorStops := [ (Num 0, Num 1); (Num 0.5, Num a1); (Num 1, Num a2) ] |} /\
    1 <= r0 <= r1 /\ sqrt (w * w + h * h) * 0.5 <= r1 /\
    0 <= a2 <= a1 /\ a1 <= 1.
Proof.
  intros Hps. rewrite peripheralGradient_finite.
  eexists _, _, _, _. split; [reflexivity |].
  unfold innerRadius, outerRadius, halfDiagonal.
  set (c := centralRadiusPx w h p).
  assert (Hc : 1 <= c) by (unfold c, centralRadiusPx; apply Rmax_l).
  repeat split.
  - apply Rmax_l.
  - apply Rmax_lub.
    + apply Rle_trans with c; [exact Hc | apply Rmax_l].
    + apply Rle_trans with c; [lra | apply Rmax_l].
  - apply Rmax_r.
  - lra.
  - lra.
  - lra.
Qed.

Lemma peripheral_gradient_well_formed_witness :
  exists r0 r1 a1 a2 : R,
    peripheralGradient (Num 640) (Num 480) preset1 =
      {| gx0 := Num (640 / 2); gy0 := Num (480 / 2); gr0 := Num r0;
         gx1 := Num (640 / 2); gy1 := Num (480 / 2); gr1 := Num r1;
         colorStops := [ (Num 0, Num 1); (Num 0.5, Num a1); (Num 1, Num a2) ] |} /\
    1 <= r0 <= r1 /\ sqrt (640 * 640 + 480 * 480) * 0.5 <= r1 /\
    0 <= a2 <= a1 /\ a1 <= 1.
Proof.
  apply (peripheral_gradient_well_formed 640 480 preset1). cbn. lra.
Defined.

(** ** Ticks of the application *)

Section FrameTicks.
Context `{Canvas2D}.
Import App.

(** A tick that finds no output context, a canvas without area, no video
    element or a video that is not ready returns before it touches the
    context: nothing of the state changes, the frame counter included. *)
Theorem processFrame_skips_when_not_ready (s : AppState) :
  outputCtx s = None \/
  (canvasWidth s <= 0)%Z \/ (canvasHeight s <= 0)%Z \/
  videoElement s = None \/
  (exists video, videoElement s = Some video /\ (readyState video < 2)%Z) ->
  processFrame s = Return s.
Proof.
  intros Hcase. unfold processFrame.
  destruct (outputCtx s) as [ctx |]; [| reflexivity].
  destruct (Z.leb_spec (canvasWidth s) 0) as [| Hw]; [reflexivity |].
  destruct (Z.leb_spec (canvasHeight s) 0) as [| Hh]; [reflexivity |].
  cbn [orb].
  destruct Hcase as [Hc | [Hc | [Hc | [Hc | (video & Hv & Hc)]]]];
    [discriminate | lia | lia | now rewrite Hc |].
  rewrite Hv.
  destruct (Z.ltb_spec (readyState video) 2) as [| Hready]; [reflexivity |].
  lia.
Qed.

(** A tick with the age at 1, 2 or 3 and a frame drawn never throws: the
    frame is blurred by [2 * (4 - age)] pixels with a contrast of twice the
    preset's peak, recoloured, darkened by the vignette when that is
    enabled, and the frame counter goes up by one. *)
Theorem processFrame_known_age (s : AppState) (pixels frame : list Z)
    (video : VideoElement) :
  outputCtx s = Some pixels ->
  (0 < canvasWidth s)%Z -> (0 < canvasHeight s)%Z ->
  videoElement s = Some video ->
  (2 <= readyState video)%Z ->
  drawVideo (isMirrored s) (canvasWidth s) (canvasHeight s) (currentFrame video)
    = Some frame ->
  (1 <= selectedAge s <= 3)%Z ->
  exists (p : AgePreset) (coloured : list Z),
    AGE_PRESETS !! selectedAge s = Some p /\
    applyInfantColorVision
      (drawSelfFiltered (ofZ (2 * (4 - selectedAge s)))
         (Num (contrastSensitivityPeak p * 2)) frame)
      (canvasWidth s) (canvasHeight s) (Some p) (selectedAge s)
    = Return coloured /\
    processFrame s =
      Return (withFrame s
                (if enablePeripheralBlend s
                 then fillRectMultiply
                        (peripheralGradient (ofZ (canvasWidth s))
                           (ofZ (canvasHeight s)) p)
                        (canvasWidth s) (canvasHeight s) coloured
                 else coloured)).
Proof.
  intros Hctx Hw Hh Hvideo Hready Hdraw Hage.
  assert (Hp : exists p, AGE_PRESETS !! selectedAge s = Some p).
  { rewrite AGE_PRESETS_lookup. repeat case_decide; eauto. lia. }
  destruct Hp as [p Hp]. exists p.
  destruct (applyInfantColorVision_defined p
              (drawSelfFiltered (ofZ (2 * (4 - selectedAge s)))
                 (Num (contrastSensitivityPeak p * 2)) frame)
              (canvasWidth s) (canvasHeight s) (selectedAge s))
    as (coloured & Hcol & _).
  exists coloured. split; [exact Hp |]. split; [exact Hcol |].
  unfold processFrame. rewrite Hctx.
  destruct (Z.leb_spec (canvasWidth s) 0) as [Hbad | _]; [lia |].
  destruct (Z.leb_spec (canvasHeight s) 0) as [Hbad | _]; [lia |].
  cbn [orb]. rewrite Hvideo.
  destruct (Z.ltb_spec (readyState video) 2) as [Hbad | _]; [lia |].
  rewrite Hdraw, Hp.
  replace (Z.max 0 ((4 - selectedAge s) * 2)) with (2 * (4 - selectedAge s))%Z by lia.
  destruct (Z.ltb_spec 0 (2 * (4 - selectedAge s))) as [_ | Hbad]; [| lia].
  cbn [prop bind]. rewrite nmul_Num, Hcol. cbn [bind].
  destruct (enablePeripheralBlend s); reflexivity.
Qed.

End FrameTicks.

Lemma processFrame_skips_when_not_ready_witness :
  App.processFrame (H := plainCanvas)
    {| App.outputCtx := Some [0; 0; 0; 255]%Z;
       App.canvasWidth := 1; App.canvasHeight := 1;
       App.videoElement :=
         Some (@App.Build_VideoElement plainCanvas 1 [200; 100; 50; 255]%Z);
       App.selectedAge := 1; App.isMirrored := true;
       App.enablePeripheralBlend := true; App.frameCount := 7 |}
  = Return
    {| App.outputCtx := Some [0; 0; 0; 255]%Z;
       App.canvasWidth := 1; App.canvasHeight := 1;
       App.videoElement :=
         Some (@App.Build_VideoElement plainCanvas 1 [200; 100; 50; 255]%Z);
       App.selectedAge := 1; App.isMirrored := true;
       App.enablePeripheralBlend := true; App.frameCount := 7 |}.
Proof.
  apply (processFrame_skips_when_not_ready (H := plainCanvas)).
  right. right. right. right.
  exists (@App.Build_VideoElement plainCanvas 1 [200; 100; 50; 255]%Z).
  split; [reflexivity |]. cbn. lia.
Defined.

Lemma processFrame_known_age_witness :
  exists (p : AgePreset) (coloured : list Z),
    AGE_PRESETS !! 2%Z = Some p /\
    applyInfantColorVision
      (drawSelfFiltered (Canvas2D := plainCanvas) (ofZ (2 * (4 - 2)))
         (Num (contrastSensitivityPeak p * 2)) [200; 100; 50; 255]%Z)
      1 1 (Some p) 2
    = Return coloured /\
    App.processFrame (H := plainCanvas)
      {| App.outputCtx := Some [0; 0; 0; 255]%Z;
         App.canvasWidth := 1; App.canvasHeight := 1;
         App.videoElement :=
           Some (@App.Build_VideoElement plainCanvas 4 [200; 100; 50; 255]%Z);
         App.selectedAge := 2; App.isMirrored := true;
         App.enablePeripheralBlend := false; App.frameCount := 59 |}
    = Return
      {| App.outputCtx := Some coloured;
         App.canvasWidth := 1; App.canvasHeight := 1;
         App.videoElement :=
           Some (@App.Build_VideoElement plainCanvas 4 [200; 100; 50; 255]%Z);
         App.selectedAge := 2; App.isMirrored := true;
         App.enablePeripheralBlend := false; App.frameCount := 60 |}.
Proof.
  apply (processFrame_known_age (H := plainCanvas)
           {| App.outputCtx := Some [0; 0; 0; 255]%Z;
              App.canvasWidth := 1; App.canvasHeight := 1;
              App.videoElement :=
                Some (@App.Build_VideoElement plainCanvas 4 [200; 100; 50; 255]%Z);
              App.selectedAge := 2; App.isMirrored := true;
              App.enablePeripheralBlend := false; App.frameCount := 59 |}
           [0; 0; 0; 255]%Z [200; 100; 50; 255]%Z
           (@App.Build_VideoElement plainCanvas 4 [200; 100; 50; 255]%Z)).
  - reflexivity.
  - cbn. lia.
  - cbn. lia.
  - reflexivity.
  - cbn. lia.
  - reflexivity.
  - cbn. lia.
Defined.

(** ** Spatial frequency filter *)

Lemma ln_2_pos : 0 < ln 2.
Proof. rewrite <- ln_1. apply ln_increasing; lra. Qed.

Lemma cutoffSigmaPx_formula (width height : Z) (p : AgePreset) :
  Stages.cutoffSigmaPx width height p
  = Num (cutoffSigmaR (IZR width) (IZR height) p).
Proof.
  unfold Stages.cutoffSigmaPx, cutoffSigmaR. rewrite !ofZ_Num.
  rewrite estimatePixelsPerDegree_formula. fold (pixelsPerDegreeR (IZR width) (IZR height)).
  assert (Hppd : 1 <= pixelsPerDegreeR (IZR width) (IZR height))
    by (unfold pixelsPerDegreeR; apply Rmax_l).
  set (ppd := pixelsPerDegreeR (IZR width) (IZR height)) in *.
  rewrite Math_max_Num.
  assert (Hc : 0.5 <= Rmax 0.5 (spatialCutoffCPD p)) by apply Rmax_l.
  set (c := Rmax 0.5 (spatialCutoffCPD p)) in *.
  rewrite ndiv_Num by lra.
  assert (Hcpp : 0 < c / ppd).
  { apply Rmult_lt_0_compat; [lra | apply Rinv_0_lt_compat; lra]. }
  pose proof ln_2_pos as Hln. pose proof PI_RGT_0 as Hpi.
  unfold Stages.Math_log. rewrite Rltb_false by lra. rewrite Reqb_false by lra.
  unfold Math_sqrt. rewrite Rltb_false by lra.
  unfold Math_PI. rewrite !nmul_Num.
  assert (Hden : 0 < 2 * PI * (c / ppd)).
  { apply Rmult_lt_0_compat; [lra | exact Hcpp]. }
  rewrite ndiv_Num by lra. now rewrite Math_max_Num.
Qed.

Lemma cutoffSigmaR_min (w h : R) (p : AgePreset) : 0.5 <= cutoffSigmaR w h p.
Proof. unfold cutoffSigmaR. apply Rmax_l. Qed.

Lemma applyKernelPixel_length (input output : list Z) (width height x y : Z)
    (kernel : list number) (horizontal : bool) :
  length (applyKernelPixel input output width height x y kernel horizontal)
  = length output.
Proof. unfold applyKernelPixel. cbn zeta. now rewrite !aset_length. Qed.

Lemma convolvePass_length (input : list Z) (width height : Z)
    (kernel : list number) (horizontal : bool) :
  length (convolvePass input width height kernel horizontal) = length input.
Proof.
  unfold convolvePass.
  apply (fold_left_invariant (fun out => length out = length input)).
  - apply length_replicate.
  - intros y out _ Hout.
    apply (fold_left_invariant (fun out => length out = length input));
      [exact Hout |].
    intros x out' _ Hout'. now rewrite applyKernelPixel_length.
Qed.

Lemma contrast_loop_sameAlpha (slope : number) (d : list Z) :
  sameAlpha d (fold_left (Stages.contrastPixel slope) (pixelIndices (length d)) d).
Proof.
  apply (fold_left_invariant (sameAlpha d)); [apply sameAlpha_refl |].
  intros i t [m ->]%pixelIndices_multiple Ht. unfold Stages.contrastPixel.
  now apply sameAlpha_rgb_writes.
Qed.

(** The filter is defined on every input: for every frame size and preset
    the sigma of the blur is finite and at least 0.5, given by the cutoff
    and the pixels per degree, and the result has the length of the
    input. *)
Theorem spatial_filter_defined (data : list Z) (width height : Z)
    (p : AgePreset) :
  Stages.cutoffSigmaPx width height p
    = Num (cutoffSigmaR (IZR width) (IZR height) p) /\
  0.5 <= cutoffSigmaR (IZR width) (IZR height) p /\
  exists out : list Z,
    Stages.applySpatialFrequencyFilter data width height p = Some out /\
    length out = length data.
Proof.
  split; [apply cutoffSigmaPx_formula |]. split; [apply cutoffSigmaR_min |].
  unfold Stages.applySpatialFrequencyFilter. rewrite cutoffSigmaPx_formula.
  eexists. split; [reflexivity |].
  destruct (contrast_loop_sameAlpha (clamp01 (contrastSlope p))
              (convolvePass
                 (convolvePass data width height
                    (generateGaussianKernel1D
                       (cutoffSigmaR (IZR width) (IZR height) p)) true)
                 width height
                 (generateGaussianKernel1D
                    (cutoffSigmaR (IZR width) (IZR height) p)) false))
    as [Hlen _].
  rewrite Hlen. now rewrite !convolvePass_length.
Qed.

Lemma contrastPixel_fixed (d : list Z) (i : Z) (r g b : Z) (s : R) :
  aget d i = ofZ r -> aget d (i + 1) = ofZ g -> aget d (i + 2) = ofZ b ->
  (0 <= r <= 255)%Z -> (0 <= g <= 255)%Z -> (0 <= b <= 255)%Z ->
  s = 1 \/ (r = g /\ g = b) ->
  Stages.contrastPixel (Num s) d i = d.
Proof.
  intros Hr Hg Hb Hrb Hgb Hbb Hcase. unfold Stages.contrastPixel.
  rewrite Hr, Hg, Hb, !ofZ_Num. rewrite !ndiv_Num by lra.
  rewrite !srgbToLinear_Num.
  fold (linearOfByte r) (linearOfByte g) (linearOfByte b).
  pose proof (linearOfByte_range r Hrb) as Hlr.
  pose proof (linearOfByte_range g Hgb) as Hlg.
  pose proof (linearOfByte_range b Hbb) as Hlb.
  set (lr := linearOfByte r) in *. set (lg := linearOfByte g) in *.
  set (lb := linearOfByte b) in *.
  repeat rewrite ?nmul_Num, ?nadd_Num, ?nsub_Num.
  set (L := 0.2126 * lr + 0.7152 * lg + 0.0722 * lb).
  assert (Er : L + (lr - L) * s = lr /\ L + (lg - L) * s = lg
               /\ L + (lb - L) * s = lb).
  { destruct Hcase as [-> | [Hrg Hgb']].
    - lra.
    - assert (lr = lg) by (unfold lr, lg; now rewrite Hrg).
      assert (lg = lb) by (unfold lg, lb; now rewrite Hgb').
      assert (HL : L = lb) by (unfold L; lra).
      rewrite HL. replace lr with lb by lra. replace lg with lb by lra.
      repeat split; ring. }
  destruct Er as (-> & -> & ->).
  rewrite !clamp01_Num, !clamp01R_inside by assumption.
  assert (H0 : aset d i (Math_round (linearToSrgb (Num lr) * 255)%num) = d).
  { apply aset_unchanged. rewrite Hr. f_equal. symmetry.
    now apply encodeByte_linearOfByte. }
  rewrite H0.
  assert (H1 : aset d (i + 1) (Math_round (linearToSrgb (Num lg) * 255)%num) = d).
  { apply aset_unchanged. rewrite Hg. f_equal. symmetry.
    now apply encodeByte_linearOfByte. }
  rewrite H1.
  apply aset_unchanged. rewrite Hb. f_equal. symmetry.
  now apply encodeByte_linearOfByte.
Qed.

(** A frame of one colour passes the filter unchanged, alpha set to 255,
    when the colour is a grey or when the contrast slope of the preset is
    at least 1: the blur has nothing to blur and the contrast compression
    has nothing to compress. *)
Theorem spatial_filter_keeps_solid_frame (p : AgePreset) (r g b a : Z)
    (width height : Z) :
  (0 < width)%Z -> (0 < height)%Z ->
  (0 <= r <= 255)%Z -> (0 <= g <= 255)%Z -> (0 <= b <= 255)%Z ->
  1 <= contrastSlope p \/ (r = g /\ g = b) ->
  Stages.applySpatialFrequencyFilter
    (solidFrame (Z.to_nat (width * height)) [r; g; b; a]) width height p
  = Some (solidFrame (Z.to_nat (width * height)) [r; g; b; 255%Z]).
Proof.
  intros Hw Hh Hr Hg Hb Hcase. unfold Stages.applySpatialFrequencyFilter.
  rewrite cutoffSigmaPx_formula.
  pose proof (cutoffSigmaR_min (IZR width) (IZR height) p) as Hsigma.
  rewrite !convolvePass_solid by (assumption || lra).
  f_equal. rewrite clamp01_Num.
  apply fold_left_fixed. intros i Hi.
  rewrite solidFrame_length in Hi. cbn [length] in Hi.
  apply pixelIndices_elem in Hi as (k & -> & Hk).
  assert (Hget : forall c : Z, (0 <= c < 4)%Z ->
            aget (solidFrame (Z.to_nat (width * height)) [r; g; b; 255%Z])
              (k * 4 + c)
            = match [r; g; b; 255%Z] !! Z.to_nat c with
              | Some v => ofZ v
              | None => NaN
              end).
  { intros c Hc. apply aget_solid; [reflexivity | lia | lia]. }
  apply (contrastPixel_fixed _ _ r g b); try assumption.
  - rewrite <- (Z.add_0_r (k * 4)). now rewrite (Hget 0%Z) by lia.
  - now rewrite (Hget 1%Z) by lia.
  - now rewrite (Hget 2%Z) by lia.
  - destruct Hcase as [Hslope | Hgrey]; [left | now right].
    unfold clamp01R. rewrite Rltb_false by lra.
    destruct (Rlt_dec 1 (contrastSlope p)) as [Hgt | Hle].
    + now rewrite Rltb_true.
    + rewrite Rltb_false by lra. lra.
Qed.

Lemma spatial_filter_keeps_solid_frame_witness :
  Stages.applySpatialFrequencyFilter
    (solidFrame (Z.to_nat (2 * 1)) [128; 128; 128; 0]%Z) 2 1 preset1
  = Some (solidFrame (Z.to_nat (2 * 1)) [128; 128; 128; 255]%Z).
Proof.
  apply (spatial_filter_keeps_solid_frame preset1 128 128 128 0 2 1); lia.
Defined.

(** ** Temporal integration *)

Lemma temporalAlpha_finite (st : Stages.TemporalState) (p : AgePreset)
    (t0 t : R) :
  Stages.lastTs st = Num t0 ->
  temporalAlpha st p (Num t) = Num (temporalAlphaR t0 t (temporalIntegrationMs p)) /\
  0 < temporalAlphaR t0 t (temporalIntegrationMs p) <= 1.
Proof.
  intros Hts. unfold temporalAlpha, temporalAlphaR. rewrite Hts.
  set (tau := Rmax 10 (temporalIntegrationMs p)).
  assert (Htau : 10 <= tau) by apply Rmax_l.
  set (dt := if Reqb t0 0 then 16 else Rmax 1 (t - t0)).
  assert (Hdt : 1 <= dt).
  { unfold dt. destruct (Reqb t0 0); [lra | apply Rmax_l]. }
  assert (Hnum : (if truthy (Num t0) then Math_max 1 (Num t - Num t0)%num else 16)
                 = Num dt).
  { unfold truthy, dt. destruct (Reqb t0 0); cbn [negb]; [reflexivity |].
    now rewrite nsub_Num, Math_max_Num. }
  rewrite Hnum, Math_max_Num. fold tau. rewrite ndiv_Num by lra.
  rewrite Math_min_Num. split; [reflexivity |].
  assert (Hq : 0 < dt / tau).
  { apply Rmult_lt_0_compat; [lra | apply Rinv_0_lt_compat; lra]. }
  unfold Rmin. destruct (Rle_dec 1 (dt / tau)); lra.
Qed.

Lemma Math_round_between (lo hi : Z) (v : R) :
  IZR lo <= v <= IZR hi ->
  exists z : Z, Math_round (Num v) = Num (IZR z) /\ (lo <= z <= hi)%Z.
Proof.
  intros Hv. unfold Math_round. eexists. split; [reflexivity |]. split.
  - apply Zfloor_lub. lra.
  - pose proof (Zfloor_bound (v + / 2)) as Hf.
    assert (Zfloor (v + / 2) < hi + 1)%Z; [| lia].
    apply lt_IZR. rewrite plus_IZR. lra.
Qed.

Lemma blendByte_between (a : R) (p c : Z) :
  0 <= a <= 1 -> (0 <= p <= 255)%Z -> (0 <= c <= 255)%Z ->
  (Z.min p c <= blendByte (Num a) p c <= Z.max p c)%Z.
Proof.
  intros Ha Hp Hc. unfold blendByte.
  rewrite !ofZ_Num, nsub_Num, !nmul_Num, nadd_Num.
  assert (Hmin : IZR (Z.min p c) <= IZR p /\ IZR (Z.min p c) <= IZR c)
    by (split; apply IZR_le; lia).
  assert (Hmax : IZR p <= IZR (Z.max p c) /\ IZR c <= IZR (Z.max p c))
    by (split; apply IZR_le; lia).
  destruct (Math_round_between (Z.min p c) (Z.max p c)
              (IZR p * (1 - a) + IZR c * a)) as (z & -> & Hz); [nra |].
  fold (ofZ z). rewrite ToUint8Clamp_byte by lia. exact Hz.
Qed.

Lemma blendByte_one (p c : Z) :
  (0 <= c <= 255)%Z -> blendByte (Num 1) p c = c.
Proof.
  intros Hc. unfold blendByte.
  rewrite !ofZ_Num, nsub_Num, !nmul_Num, nadd_Num.
  replace (IZR p * (1 - 1) + IZR c * 1) with (IZR c) by lra.
  rewrite Math_round_integer. fold (ofZ c). now apply ToUint8Clamp_byte.
Qed.

Lemma blendByte_same (a : R) (c : Z) :
  (0 <= c <= 255)%Z -> blendByte (Num a) c c = c.
Proof.
  intros Hc. unfold blendByte.
  rewrite !ofZ_Num, nsub_Num, !nmul_Num, nadd_Num.
  replace (IZR c * (1 - a) + IZR c * a) with (IZR c) by lra.
  rewrite Math_round_integer. fold (ofZ c). now apply ToUint8Clamp_byte.
Qed.

Lemma aset_lookup_eq (d : list Z) (i : Z) (j : nat) (v : number) :
  i = Z.of_nat j -> (j < length d)%nat ->
  aset d i v !! j = Some (ToUint8Clamp v).
Proof.
  intros -> Hj. rewrite aset_nat. now apply list_lookup_insert_eq.
Qed.

Lemma temporalPixel_lookup (alpha : number) (curr prev : list Z) (s : nat) :
  (4 * s + 3 < length prev)%nat ->
  let d1 := Stages.temporalPixel alpha curr prev (4 * Z.of_nat s) in
  length d1 = length prev /\
  (forall j, (j < 4 * s \/ 4 * s + 4 <= j)%nat -> d1 !! j = prev !! j) /\
  d1 !! (4 * s + 3)%nat = Some 255%Z /\
  (forall c pb cb, (c < 3)%nat ->
     prev !! (4 * s + c)%nat = Some pb -> curr !! (4 * s + c)%nat = Some cb ->
     d1 !! (4 * s + c)%nat = Some (blendByte alpha pb cb)).
Proof.
  intros Hlen. cbn zeta. unfold Stages.temporalPixel.
  split; [now rewrite !aset_length |]. split; [| split].
  - intros j Hj. rewrite !aset_lookup_other by lia. reflexivity.
  - rewrite (aset_lookup_eq _ _ (4 * s + 3)) by (rewrite ?aset_length; lia).
    f_equal. change (Num 255) with (ofZ 255). apply ToUint8Clamp_byte. lia.
  - intros c pb cb Hc Hp Hcur.
    assert (Hgp : aget prev (4 * Z.of_nat s + Z.of_nat c) = ofZ pb).
    { replace (4 * Z.of_nat s + Z.of_nat c)%Z with (Z.of_nat (4 * s + c)) by lia.
      now apply aget_lookup. }
    assert (Hgc : aget curr (4 * Z.of_nat s + Z.of_nat c) = ofZ cb).
    { replace (4 * Z.of_nat s + Z.of_nat c)%Z with (Z.of_nat (4 * s + c)) by lia.
      now apply aget_lookup. }
    destruct c as [| [| [| c]]]; [| | | lia].
    + rewrite Z.add_0_r in Hgp, Hgc.
      rewrite !aset_lookup_other by lia.
      rewrite (aset_lookup_eq _ _ (4 * s + 0)) by lia.
      now rewrite Hgp, Hgc.
    + change (Z.of_nat 1) with 1%Z in Hgp, Hgc.
      rewrite !aset_lookup_other by lia.
      rewrite (aset_lookup_eq _ _ (4 * s + 1)) by (rewrite ?aset_length; lia).
      rewrite aget_aset_other by lia. now rewrite Hgp, Hgc.
    + change (Z.of_nat 2) with 2%Z in Hgp, Hgc.
      rewrite !aset_lookup_other by lia.
      rewrite (aset_lookup_eq _ _ (4 * s + 2)) by (rewrite ?aset_length; lia).
      rewrite !aget_aset_other by lia. now rewrite Hgp, Hgc.
Qed.

Lemma temporal_loop (alpha : number) (curr : list Z) :
  forall (m s : nat) (prev : list Z),
    (4 * (s + m) <= length prev)%nat ->
    let out := fold_left (Stages.temporalPixel alpha curr)
                 ((fun n => (4 * Z.of_nat n)%Z) <$> seq s m) prev in
    length out = length prev /\
    (forall j, (j < 4 * s \/ 4 * (s + m) <= j)%nat -> out !! j = prev !! j) /\
    (forall k, (s <= k < s + m)%nat -> out !! (4 * k + 3)%nat = Some 255%Z) /\
    (forall k c pb cb, (s <= k < s + m)%nat -> (c < 3)%nat ->
       prev !! (4 * k + c)%nat = Some pb -> curr !! (4 * k + c)%nat = Some cb ->
       out !! (4 * k + c)%nat = Some (blendByte alpha pb cb)).
Proof.
  induction m as [| m IH]; intros s prev Hlen; cbn zeta.
  - cbn. repeat split; try reflexivity; intros; lia.
  - cbn [seq fmap list_fmap fold_left].
    destruct (temporalPixel_lookup alpha curr prev s ltac:(lia))
      as (Hlen1 & Hother1 & Halpha1 & Hblend1).
    set (d1 := Stages.temporalPixel alpha curr prev (4 * Z.of_nat s)) in *.
    destruct (IH (S s) d1 ltac:(lia)) as (Hlen2 & Hother2 & Halpha2 & Hblend2).
    split; [lia |]. split; [| split].
    + intros j Hj. rewrite Hother2 by lia. apply Hother1. lia.
    + intros k Hk. destruct (decide (k = s)) as [-> | Hne].
      * rewrite Hother2 by lia. exact Halpha1.
      * apply Halpha2. lia.
    + intros k c pb cb Hk Hc Hp Hcur. destruct (decide (k = s)) as [-> | Hne].
      * rewrite Hother2 by lia. now apply Hblend1.
      * apply Hblend2; [lia | lia | | exact Hcur].
        rewrite Hother1 by lia. exact Hp.
Qed.

Lemma pixelIndices_whole_frame (n : nat) :
  pixelIndices (4 * n) = (fun k => (4 * Z.of_nat k)%Z) <$> seq 0 n.
Proof.
  unfold pixelIndices. f_equal. f_equal.
  symmetry. apply Nat.div_unique with 3%nat; lia.
Qed.

Lemma typedArraySet_same_length (target source : list Z) :
  length source = length target ->
  Stages.typedArraySet target source = Some source.
Proof.
  intros Hlen. unfold Stages.typedArraySet.
  destruct (Nat.ltb_spec (length target) (length source)) as [Hlt | _]; [lia |].
  rewrite drop_ge by lia. now rewrite app_nil_r.
Qed.

Lemma applyTemporalIntegration_run (st : Stages.TemporalState) (curr : list Z)
    (frameWidth frameHeight : Z) (p : AgePreset) (nowMs : option number)
    (clock : number) (n : nat) :
  length curr = (4 * n)%nat ->
  length (temporalStart st curr frameWidth frameHeight) = (4 * n)%nat ->
  let now := match nowMs with Some t => t | None => clock end in
  let start := temporalStart st curr frameWidth frameHeight in
  exists out : list Z,
    Stages.applyTemporalIntegration st curr frameWidth frameHeight p nowMs clock
    = Stages.Integrated
        {| Stages.buffer := Some out; Stages.width := frameWidth;
           Stages.height := frameHeight; Stages.lastTs := now |} out /\
    length out = (4 * n)%nat /\
    (forall k, (k < n)%nat -> out !! (4 * k + 3)%nat = Some 255%Z) /\
    (forall k c pb cb, (k < n)%nat -> (c < 3)%nat ->
       start !! (4 * k + c)%nat = Some pb -> curr !! (4 * k + c)%nat = Some cb ->
       out !! (4 * k + c)%nat = Some (blendByte (temporalAlpha st p now) pb cb)).
Proof.
  intros Hcurr Hstart. cbn zeta.
  set (now := match nowMs with Some t => t | None => clock end).
  destruct (temporal_loop (temporalAlpha st p now) curr n 0
              (temporalStart st curr frameWidth frameHeight) ltac:(lia))
    as (Hlen & _ & Halpha & Hblend).
  rewrite <- pixelIndices_whole_frame, <- Hcurr in Hlen, Halpha, Hblend.
  exists (fold_left (Stages.temporalPixel (temporalAlpha st p now) curr)
            (pixelIndices (length curr))
            (temporalStart st curr frameWidth frameHeight)).
  split; [| split; [| split]].
  - unfold Stages.applyTemporalIntegration. fold now.
    fold (temporalAlpha st p now).
    unfold temporalStart in Hlen, Hstart |- *.
    destruct (Stages.buffer st) as [kept |].
    + destruct (Z.eqb_spec (Stages.width st) frameWidth) as [Hw | Hw];
        destruct (Z.eqb_spec (Stages.height st) frameHeight) as [Hh | Hh];
        cbn [negb orb] in *; cbn [Stages.width Stages.height Stages.lastTs];
        (rewrite typedArraySet_same_length by (rewrite Hlen; lia));
        rewrite ?Hw, ?Hh; reflexivity.
    + cbn [Stages.width Stages.height Stages.lastTs].
      rewrite typedArraySet_same_length by (rewrite Hlen; lia). reflexivity.
  - rewrite Hlen. exact Hstart.
  - intros k Hk. apply Halpha. lia.
  - intros k c pb cb Hk Hc. apply Hblend; lia.
Qed.

Lemma lookup_byte (d : list Z) (j : nat) :
  bytes d -> (j < length d)%nat ->
  exists x, d !! j = Some x /\ (0 <= x <= 255)%Z.
Proof.
  intros Hd Hj. destruct (lookup_lt_is_Some_2 d j Hj) as [x Hx].
  exists x. split; [exact Hx |]. exact (proj1 (Forall_lookup _ d) Hd _ _ Hx).
Qed.

(** When no buffer is kept yet, or the frame has another size than the
    kept one, the call at a finite time puts the current frame back with
    its colour bytes as they were and every alpha byte at 255, and keeps
    exactly that frame, its size and the time. *)
Theorem temporal_integration_first_frame (st : Stages.TemporalState)
    (curr : list Z) (frameWidth frameHeight : Z) (p : AgePreset)
    (nowMs : option number) (clock : number) (t0 t : R) (n : nat) :
  Stages.buffer st = None \/ Stages.width st <> frameWidth
    \/ Stages.height st <> frameHeight ->
  Stages.lastTs st = Num t0 ->
  match nowMs with Some t' => t' | None => clock end = Num t ->
  bytes curr -> length curr = (4 * n)%nat ->
  exists out : list Z,
    Stages.applyTemporalIntegration st curr frameWidth frameHeight p nowMs clock
    = Stages.Integrated
        {| Stages.buffer := Some out; Stages.width := frameWidth;
           Stages.height := frameHeight; Stages.lastTs := Num t |} out /\
    length out = (4 * n)%nat /\
    (forall k, (k < n)%nat -> out !! (4 * k + 3)%nat = Some 255%Z) /\
    (forall k c, (k < n)%nat -> (c < 3)%nat ->
       out !! (4 * k + c)%nat = curr !! (4 * k + c)%nat).
Proof.
  intros Hfresh Hts Hnow Hbytes Hlen.
  assert (Hstart : temporalStart st curr frameWidth frameHeight = curr).
  { unfold temporalStart. destruct (Stages.buffer st) as [kept |]; [| reflexivity].
    destruct Hfresh as [Hnone | [Hw | Hh]]; [discriminate | |].
    - destruct (Z.eqb_spec (Stages.width st) frameWidth); [contradiction |].
      reflexivity.
    - destruct (Z.eqb_spec (Stages.height st) frameHeight); [contradiction |].
      now rewrite orb_true_r. }
  destruct (applyTemporalIntegration_run st curr frameWidth frameHeight p nowMs
              clock n Hlen ltac:(now rewrite Hstart))
    as (out & Hrun & Hlenout & Halpha & Hblend).
  rewrite Hnow, Hstart in *.
  exists out. repeat split; try assumption.
  intros k c Hk Hc.
  destruct (lookup_byte curr (4 * k + c) Hbytes ltac:(lia)) as (cb & Hcb & Hrange).
  rewrite (Hblend k c cb cb Hk Hc Hcb Hcb), Hcb. f_equal.
  destruct (temporalAlpha_finite st p t0 t Hts) as [-> _].
  now apply blendByte_same.
Qed.

Lemma temporal_integration_first_frame_witness :
  exists out : list Z,
    Stages.applyTemporalIntegration Stages.TEMPORAL_STATE
      [10; 20; 30; 0]%Z 1 1 preset1 (Some (Num 1000)) (Num 0)
    = Stages.Integrated
        {| Stages.buffer := Some out; Stages.width := 1;
           Stages.height := 1; Stages.lastTs := Num 1000 |} out /\
    length out = (4 * 1)%nat /\
    (forall k, (k < 1)%nat -> out !! (4 * k + 3)%nat = Some 255%Z) /\
    (forall k c, (k < 1)%nat -> (c < 3)%nat ->
       out !! (4 * k + c)%nat = [10; 20; 30; 0]%Z !! (4 * k + c)%nat).
Proof.
  apply (temporal_integration_first_frame Stages.TEMPORAL_STATE
           [10; 20; 30; 0]%Z 1 1 preset1 (Some (Num 1000)) (Num 0) 0 1000 1).
  - left. reflexivity.
  - reflexivity.
  - reflexivity.
  - unfold bytes. repeat constructor; lia.
  - reflexivity.
Defined.

(** With a kept buffer of the size of the frame and finite times, every
    colour byte put back lies between the kept byte and the current one,
    every alpha byte is 255, and the result is what is kept for the next
    call; once the time since the last call has reached the integration
    time (at least 10 ms), the result is the current frame alone. *)
Theorem temporal_integration_blends (st : Stages.TemporalState)
    (prev curr : list Z) (frameWidth frameHeight : Z) (p : AgePreset)
    (nowMs : option number) (clock : number) (t0 t : R) (n : nat) :
  Stages.buffer st = Some prev ->
  Stages.width st = frameWidth -> Stages.height st = frameHeight ->
  Stages.lastTs st = Num t0 ->
  match nowMs with Some t' => t' | None => clock end = Num t ->
  bytes prev -> bytes curr ->
  length prev = (4 * n)%nat -> length curr = (4 * n)%nat ->
  exists out : list Z,
    Stages.applyTemporalIntegration st curr frameWidth frameHeight p nowMs clock
    = Stages.Integrated
        {| Stages.buffer := Some out; Stages.width := frameWidth;
           Stages.height := frameHeight; Stages.lastTs := Num t |} out /\
    length out = (4 * n)%nat /\
    (forall k, (k < n)%nat -> out !! (4 * k + 3)%nat = Some 255%Z) /\
    (forall k c pb cb, (k < n)%nat -> (c < 3)%nat ->
       prev !! (4 * k + c)%nat = Some pb -> curr !! (4 * k + c)%nat = Some cb ->
       exists v, out !! (4 * k + c)%nat = Some v /\
         (Z.min pb cb <= v <= Z.max pb cb)%Z /\
         (t0 <> 0 -> Rmax 10 (temporalIntegrationMs p) <= t - t0 -> v = cb)).
Proof.
  intros Hbuf Hw Hh Hts Hnow Hprev Hcurr Hlenp Hlenc.
  assert (Hstart : temporalStart st curr frameWidth frameHeight = prev).
  { unfold temporalStart. rewrite Hbuf, Hw, Hh, !Z.eqb_refl. reflexivity. }
  destruct (applyTemporalIntegration_run st curr frameWidth frameHeight p nowMs
              clock n Hlenc ltac:(now rewrite Hstart))
    as (out & Hrun & Hlenout & Halpha & Hblend).
  rewrite Hnow, Hstart in *.
  exists out. repeat split; try assumption.
  intros k c pb cb Hk Hc Hpb Hcb.
  exists (blendByte (temporalAlpha st p (Num t)) pb cb).
  split; [now apply Hblend |].
  destruct (temporalAlpha_finite st p t0 t Hts) as [-> Ha].
  assert (Hpbr : (0 <= pb <= 255)%Z)
    by exact (proj1 (Forall_lookup _ prev) Hprev _ _ Hpb).
  assert (Hcbr : (0 <= cb <= 255)%Z)
    by exact (proj1 (Forall_lookup _ curr) Hcurr _ _ Hcb).
  split; [apply blendByte_between; (lra || lia) |].
  intros Ht0 Hlate.
  assert (Hone : temporalAlphaR t0 t (temporalIntegrationMs p) = 1).
  { unfold temporalAlphaR. rewrite Reqb_false by exact Ht0.
    set (tau := Rmax 10 (temporalIntegrationMs p)) in *.
    assert (Htau : 10 <= tau) by apply Rmax_l.
    rewrite Rmax_right by lra.
    apply Rmin_left.
    apply Rmult_le_reg_r with tau; [lra |].
    unfold Rdiv. rewrite Rmult_assoc, Rinv_l by lra. lra. }
  rewrite Hone. now apply blendByte_one.
Qed.

Lemma temporal_integration_blends_witness :
  exists out : list Z,
    Stages.applyTemporalIntegration
      {| Stages.buffer := Some [0; 0; 0; 255]%Z; Stages.width := 1;
         Stages.height := 1; Stages.lastTs := Num 1000 |}
      [10; 20; 30; 0]%Z 1 1 preset1 (Some (Num 1016)) (Num 0)
    = Stages.Integrated
        {| Stages.buffer := Some out; Stages.width := 1;
           Stages.height := 1; Stages.lastTs := Num 1016 |} out /\
    length out = (4 * 1)%nat /\
    (forall k, (k < 1)%nat -> out !! (4 * k + 3)%nat = Some 255%Z) /\
    (forall k c pb cb, (k < 1)%nat -> (c < 3)%nat ->
       [0; 0; 0; 255]%Z !! (4 * k + c)%nat = Some pb ->
       [10; 20; 30; 0]%Z !! (4 * k + c)%nat = Some cb ->
       exists v, out !! (4 * k + c)%nat = Some v /\
         (Z.min pb cb <= v <= Z.max pb cb)%Z /\
         (1000 <> 0 -> Rmax 10 (temporalIntegrationMs preset1) <= 1016 - 1000 ->
          v = cb)).
Proof.
  apply (temporal_integration_blends
           {| Stages.buffer := Some [0; 0; 0; 255]%Z; Stages.width := 1;
              Stages.height := 1; Stages.lastTs := Num 1000 |}
           [0; 0; 0; 255]%Z [10; 20; 30; 0]%Z 1 1 preset1
           (Some (Num 1016)) (Num 0) 1000 1016 1).
  - reflexivity.
  - reflexivity.
  - reflexivity.
  - reflexivity.
  - reflexivity.
  - unfold bytes. repeat constructor; lia.
  - unfold bytes. repeat constructor; lia.
  - reflexivity.
  - reflexivity.
Defined.

Lemma blendByte_NaN (p c : Z) : blendByte NaN p c = 0%Z.
Proof. unfold blendByte, ofZ. cbn. reflexivity. Qed.

(** A time that is [NaN] passes the test for a number: after a call with a
    time recorded, the weight is [NaN], every colour byte put back and kept
    is 0, and [NaN] becomes the recorded time. *)
Theorem temporal_integration_NaN_time (st : Stages.TemporalState)
    (curr : list Z) (frameWidth frameHeight : Z) (p : AgePreset)
    (clock : number) (n : nat) :
  truthy (Stages.lastTs st) = true ->
  (forall kept, Stages.buffer st = Some kept -> length kept = (4 * n)%nat) ->
  length curr = (4 * n)%nat ->
  exists out : list Z,
    Stages.applyTemporalIntegration st curr frameWidth frameHeight p
      (Some NaN) clock
    = Stages.Integrated
        {| Stages.buffer := Some out; Stages.width := frameWidth;
           Stages.height := frameHeight; Stages.lastTs := NaN |} out /\
    length out = (4 * n)%nat /\
    forall k c, (k < n)%nat -> (c < 3)%nat -> out !! (4 * k + c)%nat = Some 0%Z.
Proof.
  intros Hts Hkept Hlen.
  assert (Hstart : length (temporalStart st curr frameWidth frameHeight)
                   = (4 * n)%nat).
  { unfold temporalStart. destruct (Stages.buffer st) as [kept |]; [| exact Hlen].
    destruct (negb _ || negb _); [exact Hlen | now apply Hkept]. }
  destruct (applyTemporalIntegration_run st curr frameWidth frameHeight p
              (Some NaN) clock n Hlen Hstart)
    as (out & Hrun & Hlenout & _ & Hblend).
  exists out. split; [exact Hrun |]. split; [exact Hlenout |].
  intros k c Hk Hc.
  destruct (lookup_lt_is_Some_2 (temporalStart st curr frameWidth frameHeight)
              (4 * k + c)%nat ltac:(lia)) as [pb Hpb].
  destruct (lookup_lt_is_Some_2 curr (4 * k + c)%nat ltac:(lia)) as [cb Hcb].
  rewrite (Hblend k c pb cb Hk Hc Hpb Hcb). f_equal.
  assert (Halpha : temporalAlpha st p NaN = NaN).
  { unfold temporalAlpha. rewrite Hts.
    destruct (Stages.lastTs st); reflexivity. }
  rewrite Halpha. apply blendByte_NaN.
Qed.

Lemma temporal_integration_NaN_time_witness :
  exists out : list Z,
    Stages.applyTemporalIntegration
      {| Stages.buffer := Some [200; 200; 200; 255]%Z; Stages.width := 1;
         Stages.height := 1; Stages.lastTs := Num 1000 |}
      [10; 20; 30; 0]%Z 1 1 preset1 (Some NaN) (Num 0)
    = Stages.Integrated
        {| Stages.buffer := Some out; Stages.width := 1;
           Stages.height := 1; Stages.lastTs := NaN |} out /\
    length out = (4 * 1)%nat /\
    forall k c, (k < 1)%nat -> (c < 3)%nat -> out !! (4 * k + c)%nat = Some 0%Z.
Proof.
  apply (temporal_integration_NaN_time
           {| Stages.buffer := Some [200; 200; 200; 255]%Z; Stages.width := 1;
              Stages.height := 1; Stages.lastTs := Num 1000 |}
           [10; 20; 30; 0]%Z 1 1 preset1 (Num 0) 1).
  - cbn. rewrite Reqb_false by lra. reflexivity.
  - intros kept [= <-]. reflexivity.
  - reflexivity.
Defined.
